(** * go-laravel-long-polling: fan-out registry, upstream pool, poll handler
    and reconnect supervisor, embedded from the Go sources.

    - [Redis]  : internal/redis/subscriber.go
    - [Core]   : internal/core (LaravelUpstreamPool)
    - [Http]   : internal/http/handlers.go
    - [Main]   : cmd/longpoll-server (registerHooks, the reconnect goroutine)

    Logging calls are not modelled: the logger is write-only and no
    control flow depends on it. *)

From stdpp Require Import gmap strings list fin_maps.
From Stdlib Require Import ZArith Lia.

Local Open Scope Z_scope.
Local Open Scope nat_scope.

(** ** Go values shared by the packages *)

(** A call either returns or panics (which unwinds the goroutine). *)
Inductive result (A : Type) : Type :=
| Ok (a : A)
| Panic (msg : string).
Arguments Ok {A} a.
Arguments Panic {A} msg.

#[global] Instance result_bind : MBind result := λ A B k r,
  match r with
  | Ok a => k a
  | Panic m => Panic m
  end.

(** Go [error] values; [context.Canceled] and [context.DeadlineExceeded]
    are compared by identity in the sources. *)
Inductive error : Type :=
| context_Canceled
| context_DeadlineExceeded
| errorf (msg : string).

Definition error_eqb (a b : error) : bool :=
  match a, b with
  | context_Canceled, context_Canceled => true
  | context_DeadlineExceeded, context_DeadlineExceeded => true
  | errorf x, errorf y => bool_decide (x = y)
  | _, _ => false
  end.

(** How many elements of a list satisfy a test. *)
Definition b2n (b : bool) : nat := if b then 1 else 0.

Fixpoint countb {A : Type} (f : A → bool) (l : list A) : nat :=
  match l with
  | [] => 0
  | x :: l' => b2n (f x) + countb f l'
  end.

(** ** internal/redis/subscriber.go *)
Module Redis.

(** [type EventNotification struct] *)
Record EventNotification : Type := {
  ChannelID : string;
  EventID : Z;
  Timestamp : Z
}.

(** A channel value is a reference; two channel values are [==] when they
    denote the same cell. *)
Abbreviation chan_id := nat (only parsing).

(** The cell of a [chan EventNotification]: buffered items (oldest first),
    capacity, and whether [close] was called on it. *)
Record Chan : Type := {
  buf : list EventNotification;
  cap : nat;
  closed : bool
}.

(** Channel operations performed so far, oldest first (ghost log). The
    two return events are logged by the goroutine machine below, when a
    call to [Subscribe] or [Unsubscribe] releases the lock; [removed]
    tells whether the range loop of that [Unsubscribe] found its
    channel. *)
Inductive Event : Type :=
| EvMake (ch : chan_id)
| EvSend (ch : chan_id) (delivered : bool)
| EvClose (ch : chan_id)
| EvSubscribeReturn (channelID : string) (ch : chan_id)
| EvUnsubscribeReturn (channelID : string) (ch : chan_id) (removed : bool).

(** [type Subscriber struct]: the [handlers] map, together with the cells
    of the channels it has made and the log of channel operations.
    [mu] is modelled in [Sys] below, [cancel] in [Start]. *)
Record Subscriber : Type := {
  handlers : gmap string (list chan_id);
  chans : list Chan;
  events : list Event
}.

(** [func NewSubscriber]: [handlers: make(map[string][]chan EventNotification)] *)
Definition NewSubscriber : Subscriber :=
  {| handlers := ∅; chans := []; events := [] |}.

(** [s.handlers[channelID]]: a missing key reads as the nil slice. *)
Definition handlers_at (s : Subscriber) (channelID : string) : list chan_id :=
  default [] (handlers s !! channelID).

(** [make(chan EventNotification, n)] *)
Definition chan_make (n : nat) (s : Subscriber) : chan_id * Subscriber :=
  let ch := length (chans s) in
  (ch, {| handlers := handlers s;
          chans := chans s ++ [{| buf := []; cap := n; closed := false |}];
          events := events s ++ [EvMake ch] |}).

(** [close(ch)]: panics on a closed channel and on a channel without a
    cell (the nil channel). *)
Definition chan_close (ch : chan_id) (s : Subscriber) : result Subscriber :=
  match chans s !! ch with
  | None => Panic "close of nil channel"
  | Some c =>
      if closed c then Panic "close of closed channel"
      else Ok {| handlers := handlers s;
                 chans := <[ch := {| buf := buf c; cap := cap c; closed := true |}]> (chans s);
                 events := events s ++ [EvClose ch] |}
  end.

(** [select { case ch <- v: default: }]: the send case is ready when the
    buffer has room; a send on a closed channel panics; a channel without
    a cell is never ready. *)
Definition chan_try_send (ch : chan_id) (v : EventNotification) (s : Subscriber)
  : result Subscriber :=
  match chans s !! ch with
  | None => Ok {| handlers := handlers s; chans := chans s;
                  events := events s ++ [EvSend ch false] |}
  | Some c =>
      if closed c then Panic "send on closed channel"
      else if bool_decide (length (buf c) < cap c)
      then Ok {| handlers := handlers s;
                 chans := <[ch := {| buf := buf c ++ [v]; cap := cap c; closed := false |}]> (chans s);
                 events := events s ++ [EvSend ch true] |}
      else Ok {| handlers := handlers s; chans := chans s;
                 events := events s ++ [EvSend ch false] |}
  end.

(** [v := <-ch] when it is ready: the oldest buffered item, or the zero
    value of a closed and drained channel. [None]: the receive blocks. *)
Definition zero_notification : EventNotification :=
  {| ChannelID := ""; EventID := 0%Z; Timestamp := 0%Z |}.

Definition chan_recv (ch : chan_id) (s : Subscriber)
  : option (EventNotification * Subscriber) :=
  match chans s !! ch with
  | None => None
  | Some c =>
      match buf c with
      | v :: rest =>
          Some (v, {| handlers := handlers s;
                      chans := <[ch := {| buf := rest; cap := cap c; closed := closed c |}]> (chans s);
                      events := events s |})
      | [] => if closed c then Some (zero_notification, s) else None
      end
  end.

(** [func (s *Subscriber) Subscribe(channelID string) chan EventNotification]
    (the body between Lock and Unlock). *)
Definition Subscribe (channelID : string) (s : Subscriber) : chan_id * Subscriber :=
  let '(ch, s1) := chan_make 10 s in
  (ch, {| handlers := <[channelID := handlers_at s1 channelID ++ [ch]]> (handlers s1);
          chans := chans s1;
          events := events s1 |}).

(** Index of the first handler [== ch] in the range loop. *)
Fixpoint find_handler (ch : chan_id) (hs : list chan_id) : option nat :=
  match hs with
  | [] => None
  | h :: hs' =>
      if bool_decide (h = ch) then Some 0
      else S <$> find_handler ch hs'
  end.

(** [func (s *Subscriber) Unsubscribe(channelID string, ch chan EventNotification)]
    (the body between Lock and Unlock). *)
Definition Unsubscribe (channelID : string) (ch : chan_id) (s : Subscriber)
  : result Subscriber :=
  let hs := handlers_at s channelID in
  s1 ← match find_handler ch hs with
       | Some i =>
           (* s.handlers[channelID] = append(handlers[:i], handlers[i+1:]...) *)
           chan_close ch
             {| handlers := <[channelID := take i hs ++ drop (S i) hs]> (handlers s);
                chans := chans s;
                events := events s |}
       | None => Ok s
       end;
  if bool_decide (length (handlers_at s1 channelID) = 0)
  then Ok {| handlers := delete channelID (handlers s1);
             chans := chans s1;
             events := events s1 |}
  else Ok s1.

(** The range loop of [handleMessage] over the slice read under RLock. *)
Fixpoint sweep (notification : EventNotification) (hs : list chan_id) (s : Subscriber)
  : result Subscriber :=
  match hs with
  | [] => Ok s
  | handler :: hs' =>
      s1 ← chan_try_send handler notification s;
      sweep notification hs' s1
  end.

Section WithJSON.

(** [json.Unmarshal([]byte(payload), &notification)]; [None] on error. *)
Variable json_Unmarshal : string → option EventNotification.

(** [func (s *Subscriber) handleMessage(payload string)] *)
Definition handleMessage (payload : string) (s : Subscriber) : result Subscriber :=
  match json_Unmarshal payload with
  | None => Ok s
  | Some notification => sweep notification (handlers_at s (ChannelID notification)) s
  end.

(** What [<-ch] (the pub/sub stream) and [<-ctx.Done()] hand to the
    [select] of [Start], one item per loop iteration. *)
Inductive FeedItem : Type :=
| FeedDone                    (* case <-ctx.Done(): Stop was called *)
| FeedClosed                  (* msg, ok := <-ch with !ok *)
| FeedNil                     (* msg == nil *)
| FeedMsg (payload : string).

(** One connection: the result of [pubsub.Receive(ctx)] and what the
    stream then delivers. *)
Record Connection : Type := {
  confirm : option error;
  feed : list FeedItem
}.

(** [Returned err]: the value [Start] returned ([None] is nil).
    [Blocked]: the loop is suspended in its [select]. *)
Inductive StartOutcome : Type :=
| Returned (err : option error)
| Blocked.

(** The [for { select { ... } }] loop of [Start]. [ctx] derives from
    [context.WithCancel], so [ctx.Err()] is [context.Canceled]. *)
Fixpoint Start_loop (items : list FeedItem) (s : Subscriber)
  : result (StartOutcome * Subscriber) :=
  match items with
  | [] => Ok (Blocked, s)
  | FeedDone :: _ => Ok (Returned (Some context_Canceled), s)
  | FeedClosed :: _ => Ok (Returned None, s)
  | FeedNil :: rest => Start_loop rest s
  | FeedMsg payload :: rest =>
      s1 ← handleMessage payload s;
      Start_loop rest s1
  end.

(** [func (s *Subscriber) Start(ctx context.Context) error] *)
Definition Start (conn : Connection) (s : Subscriber)
  : result (StartOutcome * Subscriber) :=
  match confirm conn with
  | Some err => Ok (Returned (Some err), s)
  | None => Start_loop (feed conn) s
  end.

(** *** Calls on one subscriber, one after the other *)

Inductive op : Type :=
| OpSubscribe (channelID : string)
| OpUnsubscribe (channelID : string) (ch : chan_id)
| OpHandleMessage (payload : string)
| OpRecv (ch : chan_id).

Definition apply_op (o : op) (s : Subscriber) : result Subscriber :=
  match o with
  | OpSubscribe c => Ok (Subscribe c s).2
  | OpUnsubscribe c ch => Unsubscribe c ch s
  | OpHandleMessage payload => handleMessage payload s
  | OpRecv ch =>
      match chan_recv ch s with
      | Some (_, s1) => Ok s1
      | None => Ok s
      end
  end.

Fixpoint run_ops (ops : list op) (s : Subscriber) : result Subscriber :=
  match ops with
  | [] => Ok s
  | o :: ops' => s1 ← apply_op o s; run_ops ops' s1
  end.

(** *** Goroutines calling into one subscriber under [mu sync.RWMutex]

    Each goroutine is at one of the program points below. [HM_Range]
    holds the read lock; the [_Body] and [_Unlock] points hold the write
    lock. [RLock] is granted whenever no writer holds [mu] and [Lock]
    whenever nobody holds it; [sync.RWMutex] also keeps new readers out
    while a writer waits, so it allows fewer interleavings than these. *)
Inductive pc : Type :=
| Idle
| HM_RLock (n : EventNotification)
| HM_Range (n : EventNotification) (rest : list chan_id)
| Sub_Lock (c : string)
| Sub_Body (c : string)
| Sub_Unlock (c : string) (ch : chan_id)
| Un_Lock (c : string) (ch : chan_id)
| Un_Body (c : string) (ch : chan_id)
| Un_Unlock (c : string) (ch : chan_id) (removed : bool).

Record Sys : Type := {
  sub : Subscriber;
  readers : nat;          (* read locks held on mu *)
  writer : bool;          (* write lock held on mu *)
  goroutines : list pc
}.

Definition init (k : nat) : Sys :=
  {| sub := NewSubscriber; readers := 0; writer := false;
     goroutines := replicate k Idle |}.

(** What the scheduler or the environment does next. *)
Inductive action : Type :=
| Call_handleMessage (g : nat) (payload : string)
| Call_Subscribe (g : nat) (c : string)
| Call_Unsubscribe (g : nat) (c : string) (ch : chan_id)
| Recv (ch : chan_id)
| Next (g : nat).

Definition at_pc (y : Sys) (g : nat) (p : pc) : Sys :=
  {| sub := sub y; readers := readers y; writer := writer y;
     goroutines := <[g := p]> (goroutines y) |}.

Definition log_event (e : Event) (s : Subscriber) : Subscriber :=
  {| handlers := handlers s; chans := chans s; events := events s ++ [e] |}.

(** The next instruction of goroutine [g] at program point [p]. [None]:
    the goroutine cannot move (it waits for the lock, or is idle). *)
Definition next_step (g : nat) (p : pc) (y : Sys) : option (result Sys) :=
  match p with
  | Idle => None
  | HM_RLock n =>
      (* s.mu.RLock(); handlers := s.handlers[notification.ChannelID] *)
      if writer y then None
      else Some (Ok {| sub := sub y; readers := S (readers y); writer := false;
                       goroutines := <[g := HM_Range n (handlers_at (sub y) (ChannelID n))]> (goroutines y) |})
  | HM_Range n (handler :: rest) =>
      Some (s1 ← chan_try_send handler n (sub y);
            Ok {| sub := s1; readers := readers y; writer := writer y;
                  goroutines := <[g := HM_Range n rest]> (goroutines y) |})
  | HM_Range n [] =>
      (* deferred s.mu.RUnlock() *)
      Some (Ok {| sub := sub y; readers := pred (readers y); writer := writer y;
                  goroutines := <[g := Idle]> (goroutines y) |})
  | Sub_Lock c =>
      if writer y || negb (bool_decide (readers y = 0)) then None
      else Some (Ok {| sub := sub y; readers := readers y; writer := true;
                       goroutines := <[g := Sub_Body c]> (goroutines y) |})
  | Sub_Body c =>
      let '(ch, s1) := Subscribe c (sub y) in
      Some (Ok {| sub := s1; readers := readers y; writer := writer y;
                  goroutines := <[g := Sub_Unlock c ch]> (goroutines y) |})
  | Sub_Unlock c ch =>
      Some (Ok {| sub := log_event (EvSubscribeReturn c ch) (sub y);
                  readers := readers y; writer := false;
                  goroutines := <[g := Idle]> (goroutines y) |})
  | Un_Lock c ch =>
      if writer y || negb (bool_decide (readers y = 0)) then None
      else Some (Ok {| sub := sub y; readers := readers y; writer := true;
                       goroutines := <[g := Un_Body c ch]> (goroutines y) |})
  | Un_Body c ch =>
      let removed := bool_decide (is_Some (find_handler ch (handlers_at (sub y) c))) in
      Some (s1 ← Unsubscribe c ch (sub y);
            Ok {| sub := s1; readers := readers y; writer := writer y;
                  goroutines := <[g := Un_Unlock c ch removed]> (goroutines y) |})
  | Un_Unlock c ch removed =>
      Some (Ok {| sub := log_event (EvUnsubscribeReturn c ch removed) (sub y);
                  readers := readers y; writer := false;
                  goroutines := <[g := Idle]> (goroutines y) |})
  end.

Definition call (g : nat) (p : pc) (y : Sys) : option (result Sys) :=
  match goroutines y !! g with
  | Some Idle => Some (Ok (at_pc y g p))
  | _ => None
  end.

Definition step (a : action) (y : Sys) : option (result Sys) :=
  match a with
  | Call_handleMessage g payload =>
      match json_Unmarshal payload with
      | None => call g Idle y
      | Some n => call g (HM_RLock n) y
      end
  | Call_Subscribe g c => call g (Sub_Lock c) y
  | Call_Unsubscribe g c ch => call g (Un_Lock c ch) y
  | Recv ch =>
      match chan_recv ch (sub y) with
      | Some (_, s1) =>
          Some (Ok {| sub := s1; readers := readers y; writer := writer y;
                      goroutines := goroutines y |})
      | None => None
      end
  | Next g =>
      match goroutines y !! g with
      | Some p => next_step g p y
      | None => None
      end
  end.

(** A schedule runs from [y]; [None] when some action was not enabled. *)
Fixpoint run (sched : list action) (y : Sys) : option (result Sys) :=
  match sched with
  | [] => Some (Ok y)
  | a :: sched' =>
      match step a y with
      | Some (Ok y1) => run sched' y1
      | Some (Panic m) => Some (Panic m)
      | None => None
      end
  end.

End WithJSON.

End Redis.

(** ** internal/core: LaravelUpstreamPool *)
Module Core.

(** [type Event struct]; the [event] object is kept as its JSON text. *)
Record Event : Type := {
  ID : Z;
  EventJSON : string;
  CreatedAt : Z
}.

(** The arguments [fmt.Sprintf] puts into [reqURL]. *)
Record Request : Type := {
  req_addr : string;
  req_channel_id : string;
  req_secret : string;
  req_offset : Z;
  req_limit : Z
}.

(** [type LaravelUpstreamPool struct]. [semaphore] is a
    [chan struct{}] of capacity [workers]; only the number of buffered
    items matters. [issued] logs the requests given to [httpClient.Do],
    oldest first (ghost). *)
Record LaravelUpstreamPool : Type := {
  laravelAddr : string;
  secret : string;
  maxLimit : Z;
  workers : nat;
  semaphore : nat;
  issued : list Request
}.

(** [func NewLaravelUpstreamPool]: [make(chan struct{}, workers)] panics
    on a negative size. *)
Definition NewLaravelUpstreamPool (addr sec : string) (maxLim workers_ : Z)
  : result LaravelUpstreamPool :=
  if (workers_ <? 0)%Z then Panic "makechan: size out of range"
  else Ok {| laravelAddr := addr; secret := sec; maxLimit := maxLim;
             workers := Z.to_nat workers_; semaphore := 0; issued := [] |}.

(** What [GetEvents] returns: [(events, nil)] or [(nil, err)]. *)
Inductive ret : Type :=
| RetEvents (evs : list Event)
| RetErr (err : error).

(** Which case of the first [select] fires. *)
Inductive SelectCase : Type :=
| CaseAcquire                  (* case p.semaphore <- struct{}{} *)
| CaseDone (err : error).      (* case <-ctx.Done(), with ctx.Err() *)

(** What [httpClient.Do] comes back with. *)
Inductive Transport : Type :=
| DoError (msg : string)
| Response (status : Z) (body : string).

(** The environment of one call. *)
Record CallEnv : Type := {
  select_case : SelectCase;
  new_request_err : option string;   (* http.NewRequestWithContext *)
  transport : Transport
}.

(** Program points of one [GetEvents] call. From [G_Clamp] to
    [G_Release] the call holds a permit. *)
Inductive gpc : Type :=
| G_Select (channelID : string) (offset limit : Z)
| G_Clamp (channelID : string) (offset limit : Z)
| G_NewRequest (channelID : string) (offset limit : Z)
| G_Do (req : Request)
| G_Release (r : ret)
| G_Return (r : ret).

Definition holds_permit (c : gpc) : bool :=
  match c with
  | G_Clamp _ _ _ | G_NewRequest _ _ _ | G_Do _ | G_Release _ => true
  | G_Select _ _ _ | G_Return _ => false
  end.

Definition with_semaphore (p : LaravelUpstreamPool) (n : nat) : LaravelUpstreamPool :=
  {| laravelAddr := laravelAddr p; secret := secret p; maxLimit := maxLimit p;
     workers := workers p; semaphore := n; issued := issued p |}.

Definition issue (p : LaravelUpstreamPool) (req : Request) : LaravelUpstreamPool :=
  {| laravelAddr := laravelAddr p; secret := secret p; maxLimit := maxLimit p;
     workers := workers p; semaphore := semaphore p; issued := issued p ++ [req] |}.

Section WithLibs.

(** [url.QueryEscape] and the decoding of a [LaravelResponse] body
    ([None] on a decode error; the [events] field otherwise). *)
Variable url_QueryEscape : string → string.
Variable json_Decode : string → option (list Event).

(** [reqURL := fmt.Sprintf(...)]: the request built from the arguments. *)
Definition request_of (p : LaravelUpstreamPool) (channelID : string)
  (offset limit : Z) : Request :=
  {| req_addr := laravelAddr p;
     req_channel_id := url_QueryEscape channelID;
     req_secret := url_QueryEscape (secret p);
     req_offset := offset;
     req_limit := limit |}.

(** From [resp, err := p.httpClient.Do(req)] to the return statement. *)
Definition outcome_of (env : CallEnv) : ret :=
  match transport env with
  | DoError m => RetErr (errorf ("failed to execute request: " +:+ m))
  | Response status body =>
      if negb (status =? 200)%Z
      then RetErr (errorf ("Laravel returned status: " +:+ body))
      else match json_Decode body with
           | None => RetErr (errorf "failed to decode response")
           | Some evs => RetEvents evs
           end
  end.

(** One instruction of a call. [None]: the call cannot move (no case of
    the [select] is ready, or the call has returned). *)
Definition call_step (env : CallEnv) (p : LaravelUpstreamPool) (c : gpc)
  : option (LaravelUpstreamPool * gpc) :=
  match c with
  | G_Select channelID offset limit =>
      match select_case env with
      | CaseAcquire =>
          if bool_decide (semaphore p < workers p)
          then Some (with_semaphore p (S (semaphore p)), G_Clamp channelID offset limit)
          else None
      | CaseDone err => Some (p, G_Return (RetErr err))
      end
  | G_Clamp channelID offset limit =>
      let limit := if (limit >? maxLimit p)%Z then maxLimit p else limit in
      Some (p, G_NewRequest channelID offset limit)
  | G_NewRequest channelID offset limit =>
      let req := request_of p channelID offset limit in
      match new_request_err env with
      | Some m => Some (p, G_Release (RetErr (errorf ("failed to create request: " +:+ m))))
      | None => Some (issue p req, G_Do req)
      end
  | G_Do req => Some (p, G_Release (outcome_of env))
  | G_Release r =>
      (* defer func() { <-p.semaphore }(): a receive, ready when an item
         is buffered *)
      match semaphore p with
      | 0 => None
      | S n => Some (with_semaphore p n, G_Return r)
      end
  | G_Return _ => None
  end.

(** At most [fuel] instructions of one call, stopping at its return. *)
Fixpoint run_call (fuel : nat) (env : CallEnv) (p : LaravelUpstreamPool) (c : gpc)
  : option (LaravelUpstreamPool * gpc) :=
  match c, fuel with
  | G_Return _, _ => Some (p, c)
  | _, 0 => Some (p, c)
  | _, S fuel' =>
      match call_step env p c with
      | Some (p1, c1) => run_call fuel' env p1 c1
      | None => None
      end
  end.

(** [func (p *LaravelUpstreamPool) GetEvents(ctx, channelID, offset, limit)]
    run on its own from the [select] to the return. [None]: the call is
    suspended in the [select]. *)
Definition GetEvents (env : CallEnv) (channelID : string) (offset limit : Z)
  (p : LaravelUpstreamPool) : option (ret * LaravelUpstreamPool) :=
  match run_call 5 env p (G_Select channelID offset limit) with
  | Some (p1, G_Return r) => Some (r, p1)
  | _ => None
  end.

(** *** Concurrent calls on one pool *)

Record PoolSys : Type := {
  pool : LaravelUpstreamPool;
  calls : list (CallEnv * gpc)
}.

Inductive pool_action : Type :=
| PCall (env : CallEnv) (channelID : string) (offset limit : Z)
| PNext (i : nat).

Definition pool_step (a : pool_action) (y : PoolSys) : option PoolSys :=
  match a with
  | PCall env channelID offset limit =>
      Some {| pool := pool y;
              calls := calls y ++ [(env, G_Select channelID offset limit)] |}
  | PNext i =>
      match calls y !! i with
      | Some (env, c) =>
          match call_step env (pool y) c with
          | Some (p1, c1) => Some {| pool := p1; calls := <[i := (env, c1)]> (calls y) |}
          | None => None
          end
      | None => None
      end
  end.

Fixpoint pool_run (sched : list pool_action) (y : PoolSys) : option PoolSys :=
  match sched with
  | [] => Some y
  | a :: sched' =>
      match pool_step a y with
      | Some y1 => pool_run sched' y1
      | None => None
      end
  end.

(** Calls holding a permit, and calls inside [httpClient.Do]. *)
Definition permits_held (y : PoolSys) : nat :=
  countb (λ ec, holds_permit ec.2) (calls y).

Definition is_in_flight (c : gpc) : bool :=
  match c with G_Do _ => true | _ => false end.

Definition in_flight (y : PoolSys) : nat :=
  countb (λ ec, is_in_flight ec.2) (calls y).

End WithLibs.

End Core.

(** ** internal/http/handlers.go *)
Module Http.

(** The fields of [type Handlers struct] that [GetUpdates] reads besides
    the pool and the subscriber. *)
Record Handlers : Type := {
  pollTimeout : Z;
  maxLimit : Z
}.

(** The subscriber and the pool a handler works on. *)
Record World : Type := {
  subscriber : Redis.Subscriber;
  upstreamPool : Core.LaravelUpstreamPool
}.

(** What [c.JSON(status, gin.H{...})] writes. *)
Inductive Body : Type :=
| BodyError (msg : string)             (* gin.H{"error": msg} *)
| BodyEvents (evs : list Core.Event).  (* gin.H{"events": evs} *)

Record Response : Type := {
  status : Z;
  body : Body
}.

Definition StatusOK : Z := 200.
Definition StatusBadRequest : Z := 400.
Definition StatusUnauthorized : Z := 401.
Definition StatusInternalServerError : Z := 500.

(** Where a request stands when [GetUpdates] first suspends or returns. *)
Inductive Poll : Type :=
| Responded (r : Response)
| Waiting (channelID : string) (offset limit : Z) (notifyCh : Redis.chan_id).

(** Which case of the [select] on [pollCtx.Done()] and [notifyCh] fires. *)
Inductive Wake : Type :=
| WakeDone
| WakeNotify.

Section WithLibs.

Variable url_QueryEscape : string → string.
Variable json_Decode : string → option (list Core.Event).
(** [h.jwtService.ValidateToken]; [None] on error. *)
Variable ValidateToken : string → option string.
(** [strconv.ParseInt(s, 10, 64)] and [strconv.Atoi]; [None] on error. *)
Variable strconv_ParseInt : string → option Z.
Variable strconv_Atoi : string → option Z.

(** [c.Query(key)] and [c.DefaultQuery(key, def)] on the query string. *)
Definition Query (q : gmap string string) (key : string) : string :=
  default "" (q !! key).
Definition DefaultQuery (q : gmap string string) (key def : string) : string :=
  default def (q !! key).

(** [offset, err := strconv.ParseInt(offsetStr, 10, 64); if err != nil { offset = 0 }] *)
Definition offset_param (q : gmap string string) : Z :=
  default 0%Z (strconv_ParseInt (DefaultQuery q "offset" "0")).

(** [limit, err := strconv.Atoi(limitStr)] with its two guards. *)
Definition limit_param (h : Handlers) (q : gmap string string) : Z :=
  let limit := match strconv_Atoi (DefaultQuery q "limit" "100") with
               | Some l => if (l <? 1)%Z then 100%Z else l
               | None => 100%Z
               end in
  if (limit >? maxLimit h)%Z then maxLimit h else limit.

(** [GetUpdates] from its entry to the first of: a response, or the
    [select] on [pollCtx.Done()] and [notifyCh]. [None]: suspended inside
    [GetEvents]. *)
Definition GetUpdates_enter (h : Handlers) (q : gmap string string)
  (env : Core.CallEnv) (w : World) : option (Poll * World) :=
  let tokenString := Query q "token" in
  if bool_decide (tokenString = "")
  then Some (Responded {| status := StatusBadRequest; body := BodyError "token is required" |}, w)
  else
  match ValidateToken tokenString with
  | None => Some (Responded {| status := StatusUnauthorized;
                               body := BodyError "Invalid or expired token" |}, w)
  | Some channelID =>
      let offset := offset_param q in
      let limit := limit_param h q in
      match Core.GetEvents url_QueryEscape json_Decode env channelID offset limit (upstreamPool w) with
      | None => None
      | Some (Core.RetErr _, p1) =>
          Some (Responded {| status := StatusInternalServerError;
                             body := BodyError "Failed to fetch events" |},
                {| subscriber := subscriber w; upstreamPool := p1 |})
      | Some (Core.RetEvents evs, p1) =>
          if bool_decide (0 < length evs)
          then Some (Responded {| status := StatusOK; body := BodyEvents evs |},
                     {| subscriber := subscriber w; upstreamPool := p1 |})
          else
            let '(notifyCh, s1) := Redis.Subscribe channelID (subscriber w) in
            Some (Waiting channelID offset limit notifyCh,
                  {| subscriber := s1; upstreamPool := p1 |})
      end
  end.

(** [GetUpdates] from the [select] to its return: the response written
    by [c.JSON], then the deferred [Unsubscribe]. [None]: the chosen case
    is not ready, or the call is suspended inside [GetEvents]. *)
Definition GetUpdates_wake (h : Handlers) (channelID : string) (offset limit : Z)
  (notifyCh : Redis.chan_id) (wake : Wake) (env : Core.CallEnv) (w : World)
  : option (Response * result World) :=
  match wake with
  | WakeDone =>
      Some ({| status := StatusOK; body := BodyEvents [] |},
            s1 ← Redis.Unsubscribe channelID notifyCh (subscriber w);
            Ok {| subscriber := s1; upstreamPool := upstreamPool w |})
  | WakeNotify =>
      match Redis.chan_recv notifyCh (subscriber w) with
      | None => None
      | Some (notification, s1) =>
          match Core.GetEvents url_QueryEscape json_Decode env channelID offset limit (upstreamPool w) with
          | None => None
          | Some (r, p1) =>
              Some (match r with
                    | Core.RetErr _ =>
                        {| status := StatusInternalServerError;
                           body := BodyError "Failed to fetch events" |}
                    | Core.RetEvents evs =>
                        {| status := StatusOK; body := BodyEvents evs |}
                    end,
                    s2 ← Redis.Unsubscribe channelID notifyCh s1;
                    Ok {| subscriber := s2; upstreamPool := p1 |})
          end
      end
  end.

End WithLibs.

(** What [GetAccessToken] writes: [gin.H{"error": msg}] or
    [gin.H{"token": token}]. *)
Inductive TokenBody : Type :=
| TokenError (msg : string)
| TokenIssued (token : string).

Record TokenResponse : Type := {
  t_status : Z;
  t_body : TokenBody
}.

Section WithJWT.

(** [h.jwtService.GenerateToken]; [None] on error. *)
Variable GenerateToken : string → option string.

(** [func (h *Handlers) GetAccessToken(c *gin.Context)];
    [accessSecret] is the field [h.accessSecret]. *)
Definition GetAccessToken (accessSecret : string) (q : gmap string string)
  : TokenResponse :=
  let channelID := default "" (q !! "channel_id") in
  let secret := default "" (q !! "secret") in
  if bool_decide (channelID = "")
  then {| t_status := StatusBadRequest; t_body := TokenError "channel_id is required" |}
  else if negb (bool_decide (secret = accessSecret))
  then {| t_status := StatusUnauthorized; t_body := TokenError "Unauthorized" |}
  else match GenerateToken channelID with
       | None => {| t_status := StatusInternalServerError;
                    t_body := TokenError "Failed to generate token" |}
       | Some token => {| t_status := StatusOK; t_body := TokenIssued token |}
       end.

End WithJWT.

End Http.

(** ** cmd/longpoll-server: the reconnect goroutine of [registerHooks] *)
Module Main.

(** [time.Duration] is an int64 count of nanoseconds. *)
Definition wrap64 (z : Z) : Z :=
  ((z + 2 ^ 63) mod 2 ^ 64 - 2 ^ 63)%Z.

Definition time_Second : Z := 1000000000.
Definition time_Minute : Z := 60 * time_Second.

(** What the goroutine does, oldest first. *)
Inductive SupEvent : Type :=
| SupStart (outcome : Redis.StartOutcome)   (* subscriber.Start(...) and how it ended *)
| SupSleep (d : Z)                            (* time.Sleep(backoff) *)
| SupReturn                                   (* return: the goroutine ends *)
| SupPanic.

Section WithJSON.

Variable json_Unmarshal : string → option Redis.EventNotification.

Definition maxBackoff : Z := time_Minute.

(** The [for] loop of the goroutine, one iteration per connection the
    environment offers; with no connection left the loop stays inside
    its last [Start]. *)
Fixpoint supervise (conns : list Redis.Connection) (backoff : Z) (s : Redis.Subscriber)
  : list SupEvent :=
  match conns with
  | [] => []
  | conn :: rest =>
      match Redis.Start json_Unmarshal conn s with
      | Panic _ => [SupPanic]
      | Ok (Redis.Blocked, _) => [SupStart Redis.Blocked]
      | Ok (Redis.Returned err, s1) =>
          SupStart (Redis.Returned err) ::
          match err with
          | Some e =>
              if negb (error_eqb e context_Canceled)
              then
                (* time.Sleep(backoff); backoff *= 2; if backoff > maxBackoff {...} *)
                let backoff2 := wrap64 (backoff * 2) in
                SupSleep backoff ::
                supervise rest (if (backoff2 >? maxBackoff)%Z then maxBackoff else backoff2) s1
              else
                (* backoff = time.Second; err == context.Canceled: return *)
                [SupReturn]
          | None =>
              (* backoff = time.Second; the loop goes round *)
              supervise rest time_Second s1
          end
      end
  end.

(** [go func() { backoff := time.Second; ... }()] *)
Definition supervisor (conns : list Redis.Connection) (s : Redis.Subscriber) : list SupEvent :=
  supervise conns time_Second s.

End WithJSON.

End Main.

(** ** internal/auth/jwt.go: the constructor *)
Module Auth.

Inductive SigningMethod : Type :=
| SigningMethodHS256
| SigningMethodHS384
| SigningMethodHS512.

(** [type JWTService struct] *)
Record JWTService : Type := {
  secret : string;
  expiresIn : Z;
  signingAlg : SigningMethod
}.

(** A Go pair [(value, nil)] or [(nil, err)]. *)
Inductive returned (A : Type) : Type :=
| Val (a : A)
| Err (err : error).
Arguments Val {A} a.
Arguments Err {A} err.

(** [func NewJWTService(secret string, expiresIn int, algo string)] *)
Definition NewJWTService (secret_ : string) (expiresIn_ : Z) (algo : string)
  : returned JWTService :=
  if bool_decide (algo = "HS256")
  then Val {| secret := secret_; expiresIn := expiresIn_; signingAlg := SigningMethodHS256 |}
  else if bool_decide (algo = "HS384")
  then Val {| secret := secret_; expiresIn := expiresIn_; signingAlg := SigningMethodHS384 |}
  else if bool_decide (algo = "HS512")
  then Val {| secret := secret_; expiresIn := expiresIn_; signingAlg := SigningMethodHS512 |}
  else Err (errorf ("unsupported algorithm: " +:+ algo)).

End Auth.

(** ** internal/config *)
Module Config.

(** [type Config struct] *)
Record Config : Type := {
  LaravelAddr : string;
  HTTPAddr : string;
  HTTPReadTimeout : Z;
  HTTPWriteTimeout : Z;
  JWTSecret : string;
  JWTExpiresIn : Z;
  JWTAlgo : string;
  RedisAddr : string;
  RedisDB : Z;
  RedisPassword : string;
  RedisChannel : string;
  PollTimeout : Z;
  AccessTokenSecret : string;
  LogLevel : string;
  LogFormat : string;
  LaravelUpstreamWorkers : Z;
  MaxLimit : Z;
  CORSAllowedOrigins : string;
  CORSAllowedMethods : string;
  CORSAllowedHeaders : string;
  CORSAllowCredentials : bool;
  CORSMaxAge : Z
}.

(** [func (c *Config) validate() error]; [None] is nil. *)
Definition validate (c : Config) : option error :=
  if bool_decide (JWTSecret c = "")
  then Some (errorf "JWT_SECRET is required")
  else if bool_decide (AccessTokenSecret c = "")
  then Some (errorf "ACCESS_TOKEN_SECRET is required")
  else if (LaravelUpstreamWorkers c <? 1)%Z
  then Some (errorf "LARAVEL_UPSTREAM_WORKERS must be at least 1")
  else if (MaxLimit c <? 1)%Z || (MaxLimit c >? 1000)%Z
  then Some (errorf "MAX_LIMIT must be between 1 and 1000")
  else None.

(** [slog.Level] values. *)
Definition LevelDebug : Z := (-4)%Z.
Definition LevelInfo : Z := 0%Z.
Definition LevelWarn : Z := 4%Z.
Definition LevelError : Z := 8%Z.

(** [func (c *Config) GetLogLevel() slog.Level] *)
Definition GetLogLevel (c : Config) : Z :=
  if bool_decide (LogLevel c = "debug") then LevelDebug
  else if bool_decide (LogLevel c = "info") then LevelInfo
  else if bool_decide (LogLevel c = "warn") then LevelWarn
  else if bool_decide (LogLevel c = "error") then LevelError
  else LevelInfo.

(** [err.Error()] *)
Definition error_text (e : error) : string :=
  match e with
  | context_Canceled => "context canceled"
  | context_DeadlineExceeded => "context deadline exceeded"
  | errorf msg => msg
  end.

Section WithLibs.

(** [strconv.Atoi], [time.ParseDuration] (nanoseconds) and
    [strconv.ParseBool]; [None] on error. *)
Variable strconv_Atoi : string → option Z.
Variable time_ParseDuration : string → option Z.
Variable strconv_ParseBool : string → option bool.

(** [os.Getenv(key)] on the process environment: a variable that is not
    set reads as the empty string. *)
Definition Getenv (env : gmap string string) (key : string) : string :=
  default "" (env !! key).

(** [func getEnv(key, defaultValue string) string] *)
Definition getEnv (env : gmap string string) (key defaultValue : string) : string :=
  let value := Getenv env key in
  if negb (bool_decide (value = "")) then value else defaultValue.

(** [func getIntEnv(key string, defaultValue int) int] *)
Definition getIntEnv (env : gmap string string) (key : string) (defaultValue : Z) : Z :=
  let value := Getenv env key in
  if negb (bool_decide (value = ""))
  then match strconv_Atoi value with
       | Some intValue => intValue
       | None => defaultValue
       end
  else defaultValue.

(** [func getDurationEnv(key string, defaultValue time.Duration) time.Duration] *)
Definition getDurationEnv (env : gmap string string) (key : string) (defaultValue : Z) : Z :=
  let value := Getenv env key in
  if negb (bool_decide (value = ""))
  then match time_ParseDuration value with
       | Some duration => duration
       | None => defaultValue
       end
  else defaultValue.

(** [func getBoolEnv(key string, defaultValue bool) bool] *)
Definition getBoolEnv (env : gmap string string) (key : string) (defaultValue : bool) : bool :=
  let value := Getenv env key in
  if negb (bool_decide (value = ""))
  then match strconv_ParseBool value with
       | Some boolValue => boolValue
       | None => defaultValue
       end
  else defaultValue.

(** The [cfg := &Config{...}] literal of [Load]. *)
Definition from_env (env : gmap string string) : Config :=
  {| LaravelAddr := getEnv env "LARAVEL_ADDR" "http://localhost:8000";
     HTTPAddr := getEnv env "HTTP_ADDR" ":8085";
     HTTPReadTimeout := getDurationEnv env "HTTP_READ_TIMEOUT" (30 * Main.time_Second);
     HTTPWriteTimeout := getDurationEnv env "HTTP_WRITE_TIMEOUT" (30 * Main.time_Second);
     JWTSecret := getEnv env "JWT_SECRET" "super_long_random_secret";
     JWTExpiresIn := getIntEnv env "JWT_EXPIRES_IN" 3600;
     JWTAlgo := getEnv env "JWT_ALGO" "HS256";
     RedisAddr := getEnv env "REDIS_ADDR" "redis:6379";
     RedisDB := getIntEnv env "REDIS_DB" 0;
     RedisPassword := getEnv env "REDIS_PASSWORD" "";
     RedisChannel := getEnv env "REDIS_CHANNEL" "longpoll:events";
     PollTimeout := getDurationEnv env "POLL_TIMEOUT" (25 * Main.time_Second);
     AccessTokenSecret := getEnv env "ACCESS_TOKEN_SECRET" "shared_secret_between_laravel_and_go";
     LogLevel := getEnv env "LOG_LEVEL" "info";
     LogFormat := getEnv env "LOG_FORMAT" "json";
     LaravelUpstreamWorkers := getIntEnv env "LARAVEL_UPSTREAM_WORKERS" 15;
     MaxLimit := getIntEnv env "MAX_LIMIT" 100;
     CORSAllowedOrigins := getEnv env "CORS_ALLOWED_ORIGINS" "*";
     CORSAllowedMethods := getEnv env "CORS_ALLOWED_METHODS" "GET,POST,PUT,DELETE,OPTIONS";
     CORSAllowedHeaders := getEnv env "CORS_ALLOWED_HEADERS" "Content-Type,Authorization,X-Requested-With";
     CORSAllowCredentials := getBoolEnv env "CORS_ALLOW_CREDENTIALS" true;
     CORSMaxAge := getIntEnv env "CORS_MAX_AGE" 3600 |}.

(** [func Load()] of package config, on the environment as
    [godotenv.Load()] leaves it. *)
Definition Load (env : gmap string string) : Auth.returned Config :=
  let cfg := from_env env in
  match validate cfg with
  | Some err => Auth.Err (errorf ("config validation failed: " +:+ error_text err))
  | None => Auth.Val cfg
  end.

End WithLibs.

End Config.

(** ** cmd/longpoll-server: the providers *)
Module App.

(** [func provideJWTService(cfg *config.Config, ...)] *)
Definition provideJWTService (cfg : Config.Config) : Auth.returned Auth.JWTService :=
  Auth.NewJWTService (Config.JWTSecret cfg) (Config.JWTExpiresIn cfg) (Config.JWTAlgo cfg).

(** [func provideLaravelUpstreamPool(cfg *config.Config, ...)] *)
Definition provideLaravelUpstreamPool (cfg : Config.Config)
  : result Core.LaravelUpstreamPool :=
  Core.NewLaravelUpstreamPool (Config.LaravelAddr cfg) (Config.AccessTokenSecret cfg)
    (Config.MaxLimit cfg) (Config.LaravelUpstreamWorkers cfg).

(** [func provideHTTPHandlers(...)]: the fields the handlers read. *)
Definition provideHTTPHandlers (cfg : Config.Config) : Http.Handlers :=
  {| Http.pollTimeout := Config.PollTimeout cfg;
     Http.maxLimit := Config.MaxLimit cfg |}.

End App.

(** * Invariants and vocabulary of the statements *)
Module Spec.
Import Redis.

(** The registry invariant: no key holds an empty slice; every registered
    channel has an open cell; no channel is registered twice, neither
    under one key nor under two; every channel logged as closed is closed;
    every channel was made by [Subscribe] with capacity 10. *)
Record wf (s : Subscriber) : Prop := {
  wf_nonempty : ∀ c hs, handlers s !! c = Some hs → hs ≠ [];
  wf_open : ∀ c hs ch, handlers s !! c = Some hs → ch ∈ hs →
            ∃ k, chans s !! ch = Some k ∧ closed k = false;
  wf_nodup : ∀ c hs, handlers s !! c = Some hs → NoDup hs;
  wf_disjoint : ∀ c c' hs hs' ch,
            handlers s !! c = Some hs → handlers s !! c' = Some hs' →
            ch ∈ hs → ch ∈ hs' → c = c';
  wf_closed : ∀ ch, EvClose ch ∈ events s →
            ∃ k, chans s !! ch = Some k ∧ closed k = true;
  wf_cap : ∀ ch k, chans s !! ch = Some k → cap k = 10
}.

(** [ch] is registered under some key. *)
Definition registered (s : Subscriber) (ch : chan_id) : Prop :=
  ∃ c, ch ∈ handlers_at s c.

(** Whether a non-blocking send on [ch] finds room in state [s]. *)
Definition has_room (s : Subscriber) (ch : chan_id) : bool :=
  match chans s !! ch with
  | Some k => bool_decide (length (buf k) < cap k)
  | None => false
  end.

(** The cell of [ch] after one send attempt of [v]. *)
Definition after_send (v : EventNotification) (k : Chan) : Chan :=
  if bool_decide (length (buf k) < cap k)
  then {| buf := buf k ++ [v]; cap := cap k; closed := closed k |}
  else k.

Definition is_close (e : Event) : bool :=
  match e with EvClose _ => true | _ => false end.

(** The state [Unsubscribe] leaves when it finds [ch] at index [i] of the
    slice [hs] of [c], [k] being the cell of [ch]. *)
Definition removed_state (s : Subscriber) (c : string) (ch : chan_id)
  (i : nat) (hs : list chan_id) (k : Chan) : Subscriber :=
  {| handlers := if bool_decide (delete i hs = [])
                 then delete c (handlers s)
                 else <[c := delete i hs]> (handlers s);
     chans := <[ch := {| buf := buf k; cap := cap k; closed := true |}]> (chans s);
     events := events s ++ [EvClose ch] |}.

(** *** Concrete inputs used to exercise the statements *)

Definition note_a : EventNotification :=
  {| ChannelID := "a"; EventID := 7; Timestamp := 1 |}.

(** A decoder that accepts exactly the payload ["a"]. *)
Definition json_a (payload : string) : option EventNotification :=
  if bool_decide (payload = "a") then Some note_a else None.

(** Two pollers subscribe to ["a"] and ["b"], one notification for ["a"]
    is delivered. *)
Definition ops_ab : list op :=
  [OpSubscribe "a"; OpSubscribe "b"; OpHandleMessage "a"].

Definition state_ab : Subscriber :=
  {| handlers := {[ "a" := [0]; "b" := [1] ]};
     chans := [ {| buf := [note_a]; cap := 10; closed := false |};
                {| buf := []; cap := 10; closed := false |} ];
     events := [EvMake 0; EvMake 1; EvSend 0 true] |}.

(** One poller on ["a"] whose queue has filled up (ten notifications
    unread), then a second poller on ["a"] which has read its only one. *)
Definition ops_full : list op :=
  [OpSubscribe "a"] ++ replicate 10 (OpHandleMessage "a") ++
  [OpSubscribe "a"; OpHandleMessage "a"; OpRecv 1].

Definition state_full : Subscriber :=
  {| handlers := {[ "a" := [0; 1] ]};
     chans := [ {| buf := replicate 10 note_a; cap := 10; closed := false |};
                {| buf := []; cap := 10; closed := false |} ];
     events := [EvMake 0] ++ replicate 10 (EvSend 0 true) ++
               [EvMake 1; EvSend 0 false; EvSend 1 true] |}.

(** *** The goroutine machine *)

Definition holds_read (p : pc) : bool :=
  match p with HM_Range _ _ => true | _ => false end.

Definition holds_write (p : pc) : bool :=
  match p with
  | Sub_Body _ | Sub_Unlock _ _ | Un_Body _ _ | Un_Unlock _ _ _ => true
  | _ => false
  end.

(** In a log: no send attempt on a channel after its close. *)
Definition no_send_after_close (tr : list Event) : Prop :=
  ∀ t1 t2 ch, tr = t1 ++ EvClose ch :: t2 → ∀ b, EvSend ch b ∉ t2.

(** In a log: an [Unsubscribe] that removed its channel returns after
    the close of that channel. *)
Definition return_after_close (tr : list Event) : Prop :=
  ∀ t1 t2 c ch, tr = t1 ++ EvUnsubscribeReturn c ch true :: t2 → EvClose ch ∈ t1.

(** In a log: no send attempt on a channel after the return of the
    [Unsubscribe] that removed it. *)
Definition no_send_after_return (tr : list Event) : Prop :=
  ∀ t1 t2 c ch, tr = t1 ++ EvUnsubscribeReturn c ch true :: t2 →
                ∀ b, EvSend ch b ∉ t2.

(** In state [s], channel [ch] is still registered under [c], or has
    been closed. *)
Definition live_or_closed (s : Subscriber) (c : string) (ch : chan_id) : Prop :=
  ch ∈ handlers_at s c ∨ EvClose ch ∈ events s.

(** In a log: when [Unsubscribe(c, ch)] returns for a channel that
    [Subscribe(c)] had returned, the channel has been closed. *)
Definition unsubscribed_is_closed (tr : list Event) : Prop :=
  ∀ t1 t2 c ch b, tr = t1 ++ EvUnsubscribeReturn c ch b :: t2 →
                  EvSubscribeReturn c ch ∈ t1 → EvClose ch ∈ t1.

(** In a log: no send attempt on a channel that [Subscribe(c)] returned
    comes after the return of an [Unsubscribe(c, ch)]. *)
Definition no_send_after_unsubscribe (tr : list Event) : Prop :=
  ∀ t1 t2 c ch b, tr = t1 ++ EvUnsubscribeReturn c ch b :: t2 →
                  EvSubscribeReturn c ch ∈ t1 →
                  ∀ b', EvSend ch b' ∉ t2.

(** The invariant of the machine. *)
Record sys_inv (y : Sys) : Prop := {
  inv_wf : wf (sub y);
  inv_readers : readers y = countb holds_read (goroutines y);
  inv_writer : b2n (writer y) = countb holds_write (goroutines y);
  inv_excl : writer y = true → readers y = 0;
  inv_range : ∀ g n rest, goroutines y !! g = Some (HM_Range n rest) →
                ∀ ch, ch ∈ rest → registered (sub y) ch;
  inv_unlock : ∀ g c ch, goroutines y !! g = Some (Un_Unlock c ch true) →
                EvClose ch ∈ events (sub y);
  inv_trace : no_send_after_close (events (sub y));
  inv_ret : return_after_close (events (sub y));
  inv_sub : ∀ c ch, EvSubscribeReturn c ch ∈ events (sub y) →
                live_or_closed (sub y) c ch;
  inv_sub_pc : ∀ g c ch, goroutines y !! g = Some (Sub_Unlock c ch) →
                live_or_closed (sub y) c ch;
  inv_un_pc : ∀ g c ch b, goroutines y !! g = Some (Un_Unlock c ch b) →
                ch ∉ handlers_at (sub y) c;
  inv_unsub : unsubscribed_is_closed (events (sub y))
}.

(** A poller subscribes to ["a"]; a sweep for ["a"] takes the read lock;
    the poller calls [Unsubscribe] and has to wait for the sweep to end;
    a second sweep then finds no registration. *)
Definition sched_race : list action :=
  [ Call_Subscribe 0 "a"; Next 0; Next 0; Next 0;
    Call_handleMessage 1 "a"; Next 1;
    Call_Unsubscribe 0 "a" 0;
    Next 1; Next 1;
    Next 0; Next 0; Next 0;
    Call_handleMessage 1 "a"; Next 1; Next 1 ].

Definition state_race : Sys :=
  {| sub := {| handlers := ∅;
               chans := [ {| buf := [note_a]; cap := 10; closed := true |} ];
               events := [EvMake 0; EvSubscribeReturn "a" 0; EvSend 0 true;
                          EvClose 0; EvUnsubscribeReturn "a" 0 true] |};
     readers := 0; writer := false;
     goroutines := [Idle; Idle] |}.

(** *** The upstream pool *)

(** The invariant of concurrent calls on one pool of capacity [N]: the
    permits in the semaphore are exactly those of the calls between
    their acquire and their release, and never exceed the capacity. *)
Record pool_inv (N : nat) (y : Core.PoolSys) : Prop := {
  pinv_workers : Core.workers (Core.pool y) = N;
  pinv_held : Core.semaphore (Core.pool y) = Core.permits_held y;
  pinv_cap : Core.semaphore (Core.pool y) ≤ N
}.

(** The reading of "clamp, then acquire": when the [select] of a call
    hands it a permit, the limit it carries is already
    [min(requested, maxLimit)]. *)
Definition clamps_before_acquire
  (esc : string → string) (dec : string → option (list Core.Event)) : Prop :=
  ∀ env p channelID offset limit p1 c1,
    Core.call_step esc dec env p (Core.G_Select channelID offset limit) = Some (p1, c1) →
    Core.holds_permit c1 = true →
    ∃ channelID' offset' limit',
      (c1 = Core.G_Clamp channelID' offset' limit' ∨
       c1 = Core.G_NewRequest channelID' offset' limit') ∧
      limit' = Z.min limit (Core.maxLimit p).

Definition pool_1 : Core.LaravelUpstreamPool :=
  {| Core.laravelAddr := "http://laravel"; Core.secret := "s";
     Core.maxLimit := 100; Core.workers := 1; Core.semaphore := 0;
     Core.issued := [] |}.

Definition ev_5 : Core.Event :=
  {| Core.ID := 5; Core.EventJSON := "{}"; Core.CreatedAt := 1 |}.

(** A decoder that knows two bodies: ["ok"] holds one event, ["none"]
    holds an empty list. *)
Definition decode_ok (body : string) : option (list Core.Event) :=
  if bool_decide (body = "ok") then Some [ev_5]
  else if bool_decide (body = "none") then Some []
  else None.

Definition env_ok : Core.CallEnv :=
  {| Core.select_case := Core.CaseAcquire;
     Core.new_request_err := None;
     Core.transport := Core.Response 200 "ok" |}.

Definition env_canceled : Core.CallEnv :=
  {| Core.select_case := Core.CaseDone context_Canceled;
     Core.new_request_err := None;
     Core.transport := Core.Response 200 "ok" |}.

Definition pool_1_busy : Core.LaravelUpstreamPool :=
  Core.with_semaphore pool_1 1.

(** Two calls race for the single permit of [pool_1]; the first gets
    it and is inside [httpClient.Do], the second waits in its [select]. *)
Definition sched_pool : list Core.pool_action :=
  [ Core.PCall env_ok "a" 0 500; Core.PCall env_ok "b" 0 10;
    Core.PNext 0; Core.PNext 0; Core.PNext 0 ].

Definition state_pool : Core.PoolSys :=
  {| Core.pool :=
       {| Core.laravelAddr := "http://laravel"; Core.secret := "s";
          Core.maxLimit := 100; Core.workers := 1; Core.semaphore := 1;
          Core.issued := [ {| Core.req_addr := "http://laravel";
                              Core.req_channel_id := "a";
                              Core.req_secret := "s";
                              Core.req_offset := 0;
                              Core.req_limit := 100 |} ] |};
     Core.calls :=
       [ (env_ok, Core.G_Do {| Core.req_addr := "http://laravel";
                               Core.req_channel_id := "a";
                               Core.req_secret := "s";
                               Core.req_offset := 0;
                               Core.req_limit := 100 |});
         (env_ok, Core.G_Select "b" 0 10) ] |}.

Definition env_none : Core.CallEnv :=
  {| Core.select_case := Core.CaseAcquire;
     Core.new_request_err := None;
     Core.transport := Core.Response 200 "none" |}.

(** *** The poll handler *)

Definition handlers_1 : Http.Handlers :=
  {| Http.pollTimeout := 30000000000; Http.maxLimit := 100 |}.

(** A token authority that accepts exactly the token ["t"], for channel
    ["a"]; number parsers that reject every string. *)
Definition validate_t (token : string) : option string :=
  if bool_decide (token = "t") then Some "a" else None.

Definition parse_none (s : string) : option Z := None.

Definition query_t : gmap string string := {[ "token" := "t" ]}.

Definition world_1 : Http.World :=
  {| Http.subscriber := NewSubscriber; Http.upstreamPool := pool_1 |}.

(** *** The reconnect goroutine *)

(** The interval slept after the [i]-th failed attempt in a row
    (counting from 0). *)
Definition backoff_after (i : nat) : Z :=
  Z.min (2 ^ Z.of_nat i * Main.time_Second) Main.time_Minute.

(** [k] failed attempts in a row, each with its sleep. *)
Definition failed_attempts (e : error) (k : nat) : list Main.SupEvent :=
  flat_map (λ i, [Main.SupStart (Returned (Some e)); Main.SupSleep (backoff_after i)])
           (seq 0 k).

(** The reading of "every disconnection is followed by a wait": a
    [Start] that returned nil is never directly followed by the next
    [Start]. *)
Definition waits_after_disconnect (tr : list Main.SupEvent) : Prop :=
  ∀ t1 t2 o, tr ≠ t1 ++ Main.SupStart (Returned None) :: Main.SupStart o :: t2.

(** A connection that delivers one notification and is then lost; a
    connection during which [Stop] is called; a connection that cannot
    be established. *)
Definition conn_lost : Connection :=
  {| confirm := None; feed := [FeedMsg "a"; FeedClosed] |}.

Definition conn_stopped : Connection :=
  {| confirm := None; feed := [FeedDone] |}.

Definition conn_refused : Connection :=
  {| confirm := Some (errorf "dial tcp: connection refused"); feed := [] |}.

(** *** Queues and the feed loop *)

(** No queue holds more items than its capacity. *)
Definition queues_bounded (s : Subscriber) : Prop :=
  ∀ ch k, chans s !! ch = Some k → length (buf k) ≤ cap k.

(** The feed items the loop of [Start] passes over without any effect:
    nil messages and payloads that do not parse. *)
Definition passed_over (json : string → option EventNotification)
  (it : FeedItem) : bool :=
  match it with
  | FeedNil => true
  | FeedMsg payload => if json payload is Some _ then false else true
  | _ => false
  end.

(** The payloads the loop hands to [handleMessage] before it ends, and
    how it ends. *)
Fixpoint handled_payloads (items : list FeedItem) : list string :=
  match items with
  | [] | FeedDone :: _ | FeedClosed :: _ => []
  | FeedNil :: rest => handled_payloads rest
  | FeedMsg payload :: rest => payload :: handled_payloads rest
  end.

Fixpoint loop_end (items : list FeedItem) : StartOutcome :=
  match items with
  | [] => Blocked
  | FeedDone :: _ => Returned (Some context_Canceled)
  | FeedClosed :: _ => Returned None
  | _ :: rest => loop_end rest
  end.

(** The state of [sched_race] after its seventh action: the sweep is in
    its range loop, [Unsubscribe] waits for the lock. *)
Definition state_waiting : Sys :=
  {| sub := {| handlers := {[ "a" := [0] ]};
               chans := [ {| buf := []; cap := 10; closed := false |} ];
               events := [EvMake 0; EvSubscribeReturn "a" 0] |};
     readers := 1; writer := false;
     goroutines := [Un_Lock "a" 0; HM_Range note_a [0]] |}.

(** How many instructions a call that holds a permit still has before
    it returns. *)
Definition steps_left (env : Core.CallEnv) (c : Core.gpc) : nat :=
  match c with
  | Core.G_Clamp _ _ _ => if Core.new_request_err env is Some _ then 3 else 4
  | Core.G_NewRequest _ _ _ => if Core.new_request_err env is Some _ then 2 else 3
  | Core.G_Do _ => 2
  | Core.G_Release _ => 1
  | _ => 0
  end.

(** A token generator that signs every channel. *)
Definition generate_t (channelID : string) : option string :=
  Some ("token-for-" +:+ channelID).

Definition query_token_request : gmap string string :=
  {[ "channel_id" := "a"; "secret" := "shared" ]}.

(** A world whose subscriber is [state_ab]; the poll of the query
    [query_t] entering it, and the same world once the poll waits and a
    notification for ["a"] has been delivered. *)
Definition world_ab : Http.World :=
  {| Http.subscriber := state_ab; Http.upstreamPool := pool_1 |}.

Definition env_fail : Core.CallEnv :=
  {| Core.select_case := Core.CaseAcquire;
     Core.new_request_err := None;
     Core.transport := Core.Response 503 "unavailable" |}.

(** Parsers for the configuration that know a few literals. *)
Definition atoi_small (s : string) : option Z :=
  if bool_decide (s = "0") then Some 0%Z
  else if bool_decide (s = "4") then Some 4%Z
  else if bool_decide (s = "5000") then Some 5000%Z
  else None.

Definition parse_no_duration (s : string) : option Z := None.
Definition parse_no_bool (s : string) : option bool := None.

Definition env_four_workers : gmap string string :=
  {[ "LARAVEL_UPSTREAM_WORKERS" := "4" ]}.

Definition env_rs256 : gmap string string :=
  {[ "JWT_ALGO" := "RS256" ]}.

End Spec.

(** * Facts about the registry, one call after the other *)
Module RedisFacts.
Import Redis Spec.

Lemma find_handler_Some ch hs i :
  find_handler ch hs = Some i → hs !! i = Some ch.
Proof.
  revert i. induction hs as [|h hs IH]; intros i; simpl; [done|].
  case_bool_decide as Hh.
  - intros [= <-]. by subst.
  - destruct (find_handler ch hs) as [j|] eqn:Hf; simpl; [|done].
    intros [= <-]. simpl. by apply IH.
Qed.

Lemma find_handler_None ch hs :
  find_handler ch hs = None ↔ ch ∉ hs.
Proof.
  induction hs as [|h hs IH]; simpl.
  - split; [intros _; apply not_elem_of_nil | done].
  - case_bool_decide as Hh.
    + subst. split; [done|]. intros []. apply elem_of_cons. by left.
    + destruct (find_handler ch hs) as [j|] eqn:Hf; simpl.
      * split; [done|]. intros Hn. exfalso.
        assert (ch ∉ hs) as Hhs by (intros ?; apply Hn; apply elem_of_cons; by right).
        apply IH in Hhs. done.
      * split; [|done]. intros _ [->|Hin]%elem_of_cons; [done|].
        by apply (proj1 IH).
Qed.

Lemma NoDup_delete_notin (hs : list chan_id) i ch :
  NoDup hs → hs !! i = Some ch → ch ∉ delete i hs.
Proof.
  intros Hnd Hi.
  rewrite <- (take_drop_middle hs i ch Hi) in Hnd.
  apply NoDup_app in Hnd as (_ & Hl & Hr).
  apply NoDup_cons in Hr as [Hr _].
  rewrite delete_take_drop. intros [Hin|Hin]%elem_of_app; [|done].
  apply (Hl _ Hin). apply elem_of_cons. by left.
Qed.

Lemma handlers_at_Some s c hs :
  handlers s !! c = Some hs → handlers_at s c = hs.
Proof. unfold handlers_at. by intros ->. Qed.

Lemma handlers_at_elem s c ch :
  ch ∈ handlers_at s c → ∃ hs, handlers s !! c = Some hs ∧ ch ∈ hs.
Proof.
  unfold handlers_at. destruct (handlers s !! c) as [hs|]; simpl.
  - eauto.
  - by intros ?%not_elem_of_nil.
Qed.

Lemma wf_NewSubscriber : wf NewSubscriber.
Proof.
  split; simpl.
  - intros c hs. by rewrite lookup_empty.
  - intros c hs ch. by rewrite lookup_empty.
  - intros c hs. by rewrite lookup_empty.
  - intros c c' hs hs' ch. by rewrite lookup_empty.
  - intros ch ?%not_elem_of_nil. done.
  - intros ch k. done.
Qed.

Lemma wf_registered_lt s ch :
  wf s → registered s ch → ch < length (chans s).
Proof.
  intros Hwf [c Hin]. apply handlers_at_elem in Hin as (hs & Hc & Hin).
  destruct (wf_open s Hwf c hs ch Hc Hin) as (k & Hk & _).
  by apply lookup_lt_Some in Hk.
Qed.

Lemma Subscribe_eq c s :
  Subscribe c s =
  (length (chans s),
   {| handlers := <[c := handlers_at s c ++ [length (chans s)]]> (handlers s);
      chans := chans s ++ [{| buf := []; cap := 10; closed := false |}];
      events := events s ++ [EvMake (length (chans s))] |}).
Proof. reflexivity. Qed.

Lemma wf_Subscribe c s : wf s → wf (Subscribe c s).2.
Proof.
  intros Hwf. rewrite Subscribe_eq. simpl.
  assert (∀ c' hs' ch', handlers s !! c' = Some hs' → ch' ∈ hs' →
            ch' < length (chans s)) as Hlt.
  { intros c' hs' ch' Hc' Hin. apply (wf_registered_lt s ch' Hwf).
    exists c'. by rewrite (handlers_at_Some _ _ _ Hc'). }
  assert (length (chans s) ∉ handlers_at s c) as Hfresh.
  { intros Hin. apply handlers_at_elem in Hin as (hs & Hc & Hin).
    specialize (Hlt _ _ _ Hc Hin). lia. }
  split; simpl.
  - intros c' hs. rewrite lookup_insert. case_decide; [|apply Hwf].
    intros [= <-]. by destruct (handlers_at s c).
  - intros c' hs ch. rewrite lookup_insert. case_decide.
    + intros [= <-] [Hin| ->%list_elem_of_singleton]%elem_of_app.
      * apply handlers_at_elem in Hin as (hs & Hc & Hin).
        destruct (wf_open s Hwf _ _ _ Hc Hin) as (k & Hk & Hopen).
        exists k. split; [|done]. by apply lookup_app_l_Some.
      * eexists. split.
        { rewrite lookup_app_r; [|lia]. by rewrite Nat.sub_diag. }
        done.
    + intros Hc Hin. destruct (wf_open s Hwf _ _ _ Hc Hin) as (k & Hk & Hopen).
      exists k. split; [|done]. by apply lookup_app_l_Some.
  - intros c' hs. rewrite lookup_insert. case_decide; [|apply Hwf].
    intros [= <-]. apply NoDup_app. split_and!.
    + unfold handlers_at. destruct (handlers s !! c) as [hs|] eqn:Hc; simpl.
      * by apply (wf_nodup s Hwf c).
      * constructor.
    + intros x Hx ->%list_elem_of_singleton. done.
    + apply NoDup_singleton.
  - intros c1 c2 hs1 hs2 ch. rewrite !lookup_insert.
    repeat case_decide; subst; try done.
    + intros [= <-] H2 [Hin| ->%list_elem_of_singleton]%elem_of_app Hin2.
      * apply handlers_at_elem in Hin as (hs & Hc & Hin).
        by apply (wf_disjoint s Hwf _ _ _ _ _ Hc H2 Hin Hin2).
      * specialize (Hlt _ _ _ H2 Hin2). lia.
    + intros H1 [= <-] Hin1 [Hin| ->%list_elem_of_singleton]%elem_of_app.
      * apply handlers_at_elem in Hin as (hs & Hc & Hin).
        by apply (wf_disjoint s Hwf _ _ _ _ _ H1 Hc Hin1 Hin).
      * specialize (Hlt _ _ _ H1 Hin1). lia.
    + apply Hwf.
  - intros ch [Hin|Hin%list_elem_of_singleton]%elem_of_app; [|done].
    destruct (wf_closed s Hwf ch Hin) as (k & Hk & Hcl).
    exists k. split; [|done]. by apply lookup_app_l_Some.
  - intros ch k [Hk|[_ Hk]]%lookup_app_Some.
    + by apply (wf_cap s Hwf ch).
    + apply list_lookup_singleton_Some in Hk as [_ <-]. done.
Qed.

(** Rewriting one cell without touching its [closed] flag or capacity,
    and logging anything but a close, keeps the invariant. *)
Lemma wf_update_cell s ch k k' evs :
  wf s → chans s !! ch = Some k →
  closed k' = closed k → cap k' = cap k →
  Forall (λ e, is_close e = false) evs →
  wf {| handlers := handlers s; chans := <[ch := k']> (chans s);
        events := events s ++ evs |}.
Proof.
  intros Hwf Hk Hcl Hcap Hevs.
  assert (ch < length (chans s)) as Hlt by by eapply lookup_lt_Some.
  split; simpl; try apply Hwf.
  - intros c hs ch' Hc Hin.
    destruct (wf_open s Hwf _ _ _ Hc Hin) as (k1 & Hk1 & Hopen).
    destruct (decide (ch = ch')) as [<-|Hne].
    + exists k'. rewrite list_lookup_insert_eq; [|done]. split; [done|].
      rewrite Hcl. by simplify_eq.
    + exists k1. by rewrite list_lookup_insert_ne.
  - intros ch' [Hin|Hin]%elem_of_app.
    + destruct (wf_closed s Hwf _ Hin) as (k1 & Hk1 & Hc1).
      destruct (decide (ch = ch')) as [<-|Hne].
      * exists k'. rewrite list_lookup_insert_eq; [|done]. split; [done|].
        rewrite Hcl. by simplify_eq.
      * exists k1. by rewrite list_lookup_insert_ne.
    + rewrite Forall_forall in Hevs. by apply Hevs in Hin.
  - intros ch' k1. destruct (decide (ch = ch')) as [<-|Hne].
    + rewrite list_lookup_insert_eq; [|done]. intros [= <-].
      rewrite Hcap. by apply (wf_cap s Hwf ch).
    + rewrite list_lookup_insert_ne; [|done]. apply Hwf.
Qed.

Lemma chan_try_send_open ch v s k :
  chans s !! ch = Some k → closed k = false →
  chan_try_send ch v s =
  Ok {| handlers := handlers s; chans := <[ch := after_send v k]> (chans s);
        events := events s ++ [EvSend ch (has_room s ch)] |}.
Proof.
  intros Hk Hopen. unfold chan_try_send, has_room, after_send.
  rewrite Hk, Hopen. case_bool_decide; [done|].
  by rewrite list_insert_id.
Qed.

Lemma after_send_closed v k : closed (after_send v k) = closed k.
Proof. unfold after_send. by case_bool_decide. Qed.

Lemma after_send_cap v k : cap (after_send v k) = cap k.
Proof. unfold after_send. by case_bool_decide. Qed.

Lemma registered_open s ch :
  wf s → registered s ch → ∃ k, chans s !! ch = Some k ∧ closed k = false.
Proof.
  intros Hwf [c Hin]. apply handlers_at_elem in Hin as (hs & Hc & Hin).
  by apply (wf_open s Hwf c hs).
Qed.

(** A sweep over registered channels returns, keeps the invariant and
    leaves the map alone. *)
Lemma sweep_wf n hs s :
  wf s → (∀ ch, ch ∈ hs → registered s ch) →
  ∃ s', sweep n hs s = Ok s' ∧ wf s' ∧ handlers s' = handlers s.
Proof.
  revert s. induction hs as [|h hs IH]; intros s Hwf Hreg; simpl.
  - by exists s.
  - destruct (registered_open s h Hwf) as (k & Hk & Hopen).
    { apply Hreg. apply elem_of_cons. by left. }
    rewrite (chan_try_send_open _ _ _ _ Hk Hopen). simpl.
    edestruct (IH {| handlers := handlers s;
                     chans := <[h := after_send n k]> (chans s);
                     events := events s ++ [EvSend h (has_room s h)] |})
      as (s' & Hsw & Hwf' & Hh').
    + apply (wf_update_cell s h k); auto using after_send_closed, after_send_cap.
    + intros ch Hin. destruct (Hreg ch) as [c Hc].
      { apply elem_of_cons. by right. }
      by exists c.
    + by exists s'.
Qed.

Lemma has_room_insert_ne s h k' evs ch :
  h ≠ ch →
  has_room {| handlers := handlers s; chans := <[h := k']> (chans s);
              events := evs |} ch = has_room s ch.
Proof. intros Hne. unfold has_room. simpl. by rewrite list_lookup_insert_ne. Qed.

(** What a sweep over distinct open channels does to the cells and to
    the log. *)
Lemma sweep_spec n hs s :
  NoDup hs →
  (∀ ch, ch ∈ hs → ∃ k, chans s !! ch = Some k ∧ closed k = false) →
  ∃ s', sweep n hs s = Ok s' ∧
        handlers s' = handlers s ∧
        events s' = events s ++ map (λ ch, EvSend ch (has_room s ch)) hs ∧
        (∀ ch, ch ∈ hs → chans s' !! ch = after_send n <$> chans s !! ch) ∧
        (∀ ch, ch ∉ hs → chans s' !! ch = chans s !! ch).
Proof.
  revert s. induction hs as [|h hs IH]; intros s Hnd Hopen; simpl.
  - exists s. rewrite app_nil_r. split_and!; try done.
    intros ch ?%not_elem_of_nil. done.
  - apply NoDup_cons in Hnd as [Hh Hnd].
    destruct (Hopen h) as (k & Hk & Hko); [apply elem_of_cons; by left|].
    rewrite (chan_try_send_open _ _ _ _ Hk Hko). simpl.
    assert (h < length (chans s)) as Hlt by by eapply lookup_lt_Some.
    edestruct (IH {| handlers := handlers s;
                     chans := <[h := after_send n k]> (chans s);
                     events := events s ++ [EvSend h (has_room s h)] |})
      as (s' & Hsw & Hh' & Hev & Hin' & Hout'); [done| |].
    { intros ch Hin. simpl. destruct (Hopen ch) as (k1 & Hk1 & Hk1o).
      { apply elem_of_cons. by right. }
      exists k1. rewrite list_lookup_insert_ne; [done|]. by intros ->. }
    exists s'. simpl in *. split_and!; try done.
    + rewrite Hev, <- app_assoc. simpl. do 2 f_equal.
      apply map_ext_in. intros ch Hin%list_elem_of_In.
      rewrite has_room_insert_ne; [done|]. by intros ->.
    + intros ch [->|Hin]%elem_of_cons.
      * rewrite (Hout' h Hh), list_lookup_insert_eq, Hk; done.
      * rewrite (Hin' ch Hin), list_lookup_insert_ne; [done|]. by intros ->.
    + intros ch Hn. rewrite Hout'.
      * rewrite list_lookup_insert_ne; [done|]. intros ->. apply Hn.
        apply elem_of_cons. by left.
      * intros Hin. apply Hn. apply elem_of_cons. by right.
Qed.

Lemma Unsubscribe_absent s c ch :
  wf s → ch ∉ handlers_at s c → Unsubscribe c ch s = Ok s.
Proof.
  intros Hwf Hn. unfold Unsubscribe.
  apply find_handler_None in Hn as ->. simpl.
  case_bool_decide as Hlen; [|done].
  destruct (handlers s !! c) as [hs|] eqn:Hc.
  - rewrite (handlers_at_Some _ _ _ Hc) in Hlen.
    apply nil_length_inv in Hlen. by apply (wf_nonempty s Hwf) in Hc.
  - rewrite (delete_id _ _ Hc). by destruct s.
Qed.

Lemma Unsubscribe_present s c ch :
  wf s → ch ∈ handlers_at s c →
  ∃ i hs k, handlers s !! c = Some hs ∧ hs !! i = Some ch ∧
            chans s !! ch = Some k ∧ closed k = false ∧
            Unsubscribe c ch s = Ok (removed_state s c ch i hs k).
Proof.
  intros Hwf Hin. destruct (handlers_at_elem _ _ _ Hin) as (hs & Hc & Hin').
  destruct (find_handler ch hs) as [i|] eqn:Hf.
  2: { apply find_handler_None in Hf. done. }
  destruct (wf_open s Hwf _ _ _ Hc Hin') as (k & Hk & Hopen).
  exists i, hs, k. split_and!; try done; [by apply find_handler_Some|].
  unfold Unsubscribe, removed_state. rewrite (handlers_at_Some _ _ _ Hc), Hf.
  unfold chan_close. simpl. rewrite Hk, Hopen. simpl.
  unfold handlers_at. simpl. rewrite lookup_insert_eq. simpl.
  rewrite <- delete_take_drop.
  case_bool_decide as Hlen.
  - apply nil_length_inv in Hlen. rewrite Hlen.
    rewrite bool_decide_eq_true_2 by done. by rewrite delete_insert_eq.
  - rewrite bool_decide_eq_false_2; [done|]. intros Hnil. by rewrite Hnil in Hlen.
Qed.

Lemma removed_state_lookup s c ch i hs k c' l :
  wf s → handlers s !! c = Some hs → hs !! i = Some ch →
  handlers (removed_state s c ch i hs k) !! c' = Some l →
  ∃ l0, handlers s !! c' = Some l0 ∧ l `sublist_of` l0 ∧ l ≠ [] ∧ ch ∉ l.
Proof.
  intros Hwf Hc Hi. unfold removed_state. simpl.
  assert (ch ∈ hs) as Hin by (apply list_elem_of_lookup; eauto).
  assert (c' ≠ c → ∀ l0, handlers s !! c' = Some l0 → ch ∉ l0) as Hother.
  { intros Hne l0 Hc' Hin'. apply Hne.
    by apply (wf_disjoint s Hwf _ _ _ _ _ Hc' Hc Hin' Hin). }
  case_bool_decide as Hnil.
  - rewrite lookup_delete. case_decide as Hcc; [done|].
    intros Hl. exists l. split_and!; try done.
    + by apply (wf_nonempty s Hwf c').
    + apply Hother; [congruence|done].
  - rewrite lookup_insert. case_decide as Hcc.
    + intros [= <-]. subst c'. exists hs. split_and!; try done.
      * apply sublist_delete.
      * apply NoDup_delete_notin; [|done]. by apply (wf_nodup s Hwf c).
    + intros Hl. exists l. split_and!; try done.
      * by apply (wf_nonempty s Hwf c').
      * apply Hother; [congruence|done].
Qed.

Lemma wf_removed_state s c ch i hs k :
  wf s → handlers s !! c = Some hs → hs !! i = Some ch →
  chans s !! ch = Some k →
  wf (removed_state s c ch i hs k).
Proof.
  intros Hwf Hc Hi Hk.
  assert (ch < length (chans s)) as Hlt by by eapply lookup_lt_Some.
  pose proof (removed_state_lookup s c ch i hs k) as Hlook.
  split.
  - intros c' l Hl. by destruct (Hlook c' l Hwf Hc Hi Hl) as (l0 & _ & _ & ? & _).
  - intros c' l ch' Hl Hin.
    destruct (Hlook c' l Hwf Hc Hi Hl) as (l0 & Hl0 & Hsub & _ & Hch).
    assert (ch' ∈ l0) as Hin0 by by eapply elem_of_sublist.
    destruct (wf_open s Hwf _ _ _ Hl0 Hin0) as (k1 & Hk1 & Hopen).
    exists k1. split; [|done]. simpl.
    rewrite list_lookup_insert_ne; [done|]. by intros ->.
  - intros c' l Hl.
    destruct (Hlook c' l Hwf Hc Hi Hl) as (l0 & Hl0 & Hsub & _ & _).
    eapply sublist_NoDup; [|done]. by apply (wf_nodup s Hwf c').
  - intros c1 c2 l1 l2 ch' Hl1 Hl2 Hin1 Hin2.
    destruct (Hlook c1 l1 Hwf Hc Hi Hl1) as (l01 & Hl01 & Hsub1 & _ & _).
    destruct (Hlook c2 l2 Hwf Hc Hi Hl2) as (l02 & Hl02 & Hsub2 & _ & _).
    apply (wf_disjoint s Hwf c1 c2 l01 l02 ch'); try done.
    + exact (elem_of_sublist _ _ _ Hin1 Hsub1).
    + exact (elem_of_sublist _ _ _ Hin2 Hsub2).
  - intros ch'. simpl. intros [Hin|Hin%list_elem_of_singleton]%elem_of_app.
    + destruct (wf_closed s Hwf _ Hin) as (k1 & Hk1 & Hc1).
      destruct (decide (ch = ch')) as [<-|Hne].
      * eexists. rewrite list_lookup_insert_eq; [|done]. done.
      * exists k1. by rewrite list_lookup_insert_ne.
    + injection Hin as ->. eexists. rewrite list_lookup_insert_eq; [|done]. done.
  - intros ch' k1. simpl. destruct (decide (ch = ch')) as [<-|Hne].
    + rewrite list_lookup_insert_eq; [|done]. intros [= <-]. simpl.
      by apply (wf_cap s Hwf ch).
    + rewrite list_lookup_insert_ne; [|done]. apply Hwf.
Qed.

Lemma removed_state_gone s c ch i hs k :
  wf s → handlers s !! c = Some hs → hs !! i = Some ch →
  ∀ c', ch ∉ handlers_at (removed_state s c ch i hs k) c'.
Proof.
  intros Hwf Hc Hi c' Hin.
  apply handlers_at_elem in Hin as (l & Hl & Hin).
  by destruct (removed_state_lookup s c ch i hs k c' l Hwf Hc Hi Hl) as (_ & _ & _ & _ & ?).
Qed.

(** [Unsubscribe] returns, keeps the invariant, and leaves [ch]
    registered nowhere under [c]. *)
Lemma wf_Unsubscribe s c ch :
  wf s → ∃ s', Unsubscribe c ch s = Ok s' ∧ wf s' ∧ ch ∉ handlers_at s' c.
Proof.
  intros Hwf. destruct (decide (ch ∈ handlers_at s c)) as [Hin|Hn].
  - destruct (Unsubscribe_present s c ch Hwf Hin) as (i & hs & k & Hc & Hi & Hk & _ & ->).
    eexists. split; [done|]. split.
    + by apply wf_removed_state.
    + by apply removed_state_gone.
  - exists s. by rewrite Unsubscribe_absent.
Qed.

Lemma wf_chan_recv s ch v s' :
  wf s → chan_recv ch s = Some (v, s') → wf s'.
Proof.
  intros Hwf. unfold chan_recv.
  destruct (chans s !! ch) as [k|] eqn:Hk; [|done].
  destruct (buf k) as [|x rest] eqn:Hb.
  - destruct (closed k); [|done]. by intros [= _ <-].
  - intros [= _ <-].
    pose proof (wf_update_cell s ch k
      {| buf := rest; cap := cap k; closed := closed k |} [] Hwf Hk) as H.
    rewrite app_nil_r in H. by apply H.
Qed.

Section WithJSON.
Variable json_Unmarshal : string → option EventNotification.

Lemma wf_handleMessage payload s :
  wf s → ∃ s', handleMessage json_Unmarshal payload s = Ok s' ∧ wf s' ∧
               handlers s' = handlers s.
Proof.
  intros Hwf. unfold handleMessage.
  destruct (json_Unmarshal payload) as [n|]; [|by exists s].
  apply sweep_wf; [done|]. intros ch Hin. by exists (ChannelID n).
Qed.

Lemma wf_apply_op o s :
  wf s → ∃ s', apply_op json_Unmarshal o s = Ok s' ∧ wf s'.
Proof.
  intros Hwf. destruct o as [c|c ch|payload|ch]; simpl.
  - eexists. split; [done|]. by apply wf_Subscribe.
  - destruct (wf_Unsubscribe s c ch Hwf) as (s' & ? & ? & _). by exists s'.
  - destruct (wf_handleMessage payload s Hwf) as (s' & ? & ? & _). by exists s'.
  - destruct (chan_recv ch s) as [[v s1]|] eqn:Hr.
    + exists s1. split; [done|]. by eapply wf_chan_recv.
    + by exists s.
Qed.

(** No sequence of calls panics, and each leaves the invariant. *)
Lemma wf_run_ops ops s :
  wf s → ∃ s', run_ops json_Unmarshal ops s = Ok s' ∧ wf s'.
Proof.
  revert s. induction ops as [|o ops IH]; intros s Hwf; simpl.
  - by exists s.
  - destruct (wf_apply_op o s Hwf) as (s1 & -> & Hwf1). simpl. by apply IH.
Qed.

Lemma reachable_wf ops s :
  run_ops json_Unmarshal ops NewSubscriber = Ok s → wf s.
Proof.
  intros Hrun. destruct (wf_run_ops ops NewSubscriber wf_NewSubscriber) as (s' & Hs' & Hwf).
  rewrite Hrun in Hs'. by injection Hs' as ->.
Qed.

(** C10. On every state the subscriber can reach, [Unsubscribe] is
    idempotent: it returns, and a second call with the same arguments
    returns the very state the first one left (same map, same cells, same
    log, so nothing is closed); a call whose channel is not registered
    under its key, or whose key is absent, returns the state it was
    given. *)
Theorem Unsubscribe_idempotent ops s c ch :
  run_ops json_Unmarshal ops NewSubscriber = Ok s →
  (∃ s1, Unsubscribe c ch s = Ok s1 ∧ Unsubscribe c ch s1 = Ok s1) ∧
  (ch ∉ handlers_at s c → Unsubscribe c ch s = Ok s) ∧
  (handlers s !! c = None → Unsubscribe c ch s = Ok s).
Proof.
  intros Hwf%reachable_wf. split_and!.
  - destruct (wf_Unsubscribe s c ch Hwf) as (s1 & Hs1 & Hwf1 & Hgone).
    exists s1. split; [done|]. by apply Unsubscribe_absent.
  - by apply Unsubscribe_absent.
  - intros Hc. apply Unsubscribe_absent; [done|].
    unfold handlers_at. rewrite Hc. apply not_elem_of_nil.
Qed.

End WithJSON.

Lemma Unsubscribe_idempotent_witness :
  run_ops json_a ops_ab NewSubscriber = Ok state_ab ∧
  ((∃ s1, Unsubscribe "a" 0 state_ab = Ok s1 ∧ Unsubscribe "a" 0 s1 = Ok s1) ∧
   (0 ∉ handlers_at state_ab "a" → Unsubscribe "a" 0 state_ab = Ok state_ab) ∧
   (handlers state_ab !! "a" = None → Unsubscribe "a" 0 state_ab = Ok state_ab)).
Proof.
  split; [reflexivity|].
  apply (Unsubscribe_idempotent json_a ops_ab state_ab "a" 0). reflexivity.
Defined.

Section Delivery.
Variable json_Unmarshal : string → option EventNotification.

(** On a reachable state, what [handleMessage] does with a payload that
    parses. *)
Lemma handleMessage_spec s payload n :
  wf s → json_Unmarshal payload = Some n →
  ∃ s', handleMessage json_Unmarshal payload s = Ok s' ∧
        wf s' ∧
        handlers s' = handlers s ∧
        events s' = events s ++
          map (λ ch, EvSend ch (has_room s ch)) (handlers_at s (ChannelID n)) ∧
        (∀ ch, ch ∈ handlers_at s (ChannelID n) →
               chans s' !! ch = after_send n <$> chans s !! ch) ∧
        (∀ ch, ch ∉ handlers_at s (ChannelID n) → chans s' !! ch = chans s !! ch).
Proof.
  intros Hwf Hn.
  destruct (wf_handleMessage json_Unmarshal payload s Hwf) as (s1 & Hs1 & Hwf1 & _).
  revert Hs1. unfold handleMessage. rewrite Hn. intros Hs1.
  destruct (sweep_spec n (handlers_at s (ChannelID n)) s) as (s' & Hs' & ?).
  - unfold handlers_at. destruct (handlers s !! ChannelID n) as [hs|] eqn:Hc; simpl.
    + by apply (wf_nodup s Hwf (ChannelID n)).
    + constructor.
  - intros ch Hin. apply registered_open; [done|]. by exists (ChannelID n).
  - exists s'. split; [done|]. rewrite Hs1 in Hs'. injection Hs' as <-.
    by split.
Qed.

Lemma wf_Start_loop items s :
  wf s → ∃ out s', Start_loop json_Unmarshal items s = Ok (out, s') ∧ wf s'.
Proof.
  revert s. induction items as [|[| | |payload] items IH]; intros s Hwf; simpl; eauto.
  destruct (wf_handleMessage json_Unmarshal payload s Hwf) as (s1 & -> & Hwf1 & _).
  simpl. by apply IH.
Qed.

Lemma wf_Start conn s :
  wf s → ∃ out s', Start json_Unmarshal conn s = Ok (out, s') ∧ wf s'.
Proof.
  intros Hwf. unfold Start. destruct (confirm conn); eauto using wf_Start_loop.
Qed.

(** C8. On every state the subscriber can reach, delivering a parsed
    notification returns, leaves the map alone, attempts a send exactly on
    the channels registered under the notification's [ChannelID] (one
    attempt each, in slice order), and leaves the cell of every channel
    registered under another key as it was. *)
Theorem delivery_touches_one_channel ops s payload n :
  run_ops json_Unmarshal ops NewSubscriber = Ok s →
  json_Unmarshal payload = Some n →
  ∃ s', handleMessage json_Unmarshal payload s = Ok s' ∧
        handlers s' = handlers s ∧
        events s' = events s ++
          map (λ ch, EvSend ch (has_room s ch)) (handlers_at s (ChannelID n)) ∧
        (∀ c ch, c ≠ ChannelID n → ch ∈ handlers_at s c →
                 chans s' !! ch = chans s !! ch).
Proof.
  intros Hwf%reachable_wf Hn.
  destruct (handleMessage_spec s payload n Hwf Hn)
    as (s' & Hs' & _ & Hh & Hev & _ & Hout).
  exists s'. split_and!; try done.
  intros c ch Hne Hin. apply Hout. intros Hin'.
  apply handlers_at_elem in Hin as (hs & Hc & Hin).
  apply handlers_at_elem in Hin' as (hs' & Hc' & Hin').
  apply Hne. by apply (wf_disjoint s Hwf _ _ _ _ _ Hc Hc' Hin Hin').
Qed.

(** C5. On every state the subscriber can reach, the sweep for a parsed
    notification returns without a panic; the log shows one send attempt
    on every registration of the channel, in slice order, delivered
    exactly when the queue had room; a registration with room gets the
    notification appended and a full one keeps its cell unchanged; and the
    feed loop of [Start] gets through any stream of items without a
    panic. *)
Theorem sweep_never_blocks ops s payload n :
  run_ops json_Unmarshal ops NewSubscriber = Ok s →
  json_Unmarshal payload = Some n →
  (∃ s', handleMessage json_Unmarshal payload s = Ok s' ∧
         events s' = events s ++
           map (λ ch, EvSend ch (has_room s ch)) (handlers_at s (ChannelID n)) ∧
         (∀ ch, ch ∈ handlers_at s (ChannelID n) →
            ∃ k, chans s !! ch = Some k ∧
                 chans s' !! ch =
                   Some (if bool_decide (length (buf k) < cap k)
                         then {| buf := buf k ++ [n]; cap := cap k; closed := false |}
                         else k))) ∧
  (∀ items, ∃ out s', Start_loop json_Unmarshal items s = Ok (out, s')).
Proof.
  intros Hwf%reachable_wf Hn. split.
  - destruct (handleMessage_spec s payload n Hwf Hn)
      as (s' & Hs' & _ & _ & Hev & Hin & _).
    exists s'. split_and!; try done.
    intros ch Hch. destruct (registered_open s ch Hwf) as (k & Hk & Hopen).
    { by exists (ChannelID n). }
    exists k. split; [done|]. rewrite (Hin ch Hch), Hk. simpl.
    unfold after_send. case_bool_decide; [|done]. by rewrite Hopen.
  - intros items. destruct (wf_Start_loop items s Hwf) as (out & s' & ? & _).
    by exists out, s'.
Qed.

End Delivery.

Lemma delivery_touches_one_channel_witness :
  run_ops json_a ops_ab NewSubscriber = Ok state_ab ∧
  json_a "a" = Some note_a ∧
  ∃ s', handleMessage json_a "a" state_ab = Ok s' ∧
        handlers s' = handlers state_ab ∧
        events s' = events state_ab ++
          map (λ ch, EvSend ch (has_room state_ab ch)) (handlers_at state_ab (ChannelID note_a)) ∧
        (∀ c ch, c ≠ ChannelID note_a → ch ∈ handlers_at state_ab c →
                 chans s' !! ch = chans state_ab !! ch).
Proof.
  split; [reflexivity|]. split; [reflexivity|].
  apply (delivery_touches_one_channel json_a ops_ab state_ab "a" note_a); reflexivity.
Defined.

Lemma sweep_never_blocks_witness :
  run_ops json_a ops_full NewSubscriber = Ok state_full ∧
  json_a "a" = Some note_a ∧
  (∃ s', handleMessage json_a "a" state_full = Ok s' ∧
         events s' = events state_full ++
           map (λ ch, EvSend ch (has_room state_full ch)) (handlers_at state_full (ChannelID note_a)) ∧
         (∀ ch, ch ∈ handlers_at state_full (ChannelID note_a) →
            ∃ k, chans state_full !! ch = Some k ∧
                 chans s' !! ch =
                   Some (if bool_decide (length (buf k) < cap k)
                         then {| buf := buf k ++ [note_a]; cap := cap k; closed := false |}
                         else k))) ∧
  (∀ items, ∃ out s', Start_loop json_a items state_full = Ok (out, s')).
Proof.
  split; [reflexivity|]. split; [reflexivity|].
  apply (sweep_never_blocks json_a ops_full state_full "a" note_a); reflexivity.
Defined.

(** The scenario of the full queue: the eleventh notification is dropped
    for the full registration and still delivered to the next one. *)
Example sweep_full_queue :
  handleMessage json_a "a" state_full =
  Ok {| handlers := handlers state_full;
        chans := [ {| buf := replicate 10 note_a; cap := 10; closed := false |};
                   {| buf := [note_a]; cap := 10; closed := false |} ];
        events := events state_full ++ [EvSend 0 false; EvSend 1 true] |}.
Proof. reflexivity. Qed.

End RedisFacts.

(** * Facts about the goroutine machine *)
Module SysFacts.
Import Redis Spec RedisFacts.

Lemma countb_insert {A} (f : A → bool) (l : list A) g p p' :
  l !! g = Some p →
  countb f (<[g := p']> l) + b2n (f p) = countb f l + b2n (f p').
Proof.
  revert g. induction l as [|q l IH]; intros g; [done|].
  destruct g as [|g]; simpl.
  - intros [= ->]. lia.
  - intros Hg. specialize (IH g Hg). lia.
Qed.

Lemma countb_zero {A} (f : A → bool) (l : list A) g p :
  countb f l = 0 → l !! g = Some p → f p = false.
Proof.
  revert g. induction l as [|q l IH]; intros g; [done|].
  destruct g as [|g]; simpl.
  - intros Hc [= ->]. destruct (f p); [simpl in Hc; lia|done].
  - intros Hc Hg. apply (IH g); [|done]. destruct (f q); simpl in Hc; lia.
Qed.

Lemma countb_replicate (f : pc → bool) k :
  f Idle = false → countb f (replicate k Idle) = 0.
Proof. intros Hf. induction k as [|k IH]; simpl; [done|]. by rewrite Hf, IH. Qed.

Lemma snoc_split_inv {A} (tr t1 t2 : list A) (e x : A) :
  tr ++ [e] = t1 ++ x :: t2 →
  (t2 = [] ∧ tr = t1 ∧ e = x) ∨ (∃ t2', t2 = t2' ++ [e] ∧ tr = t1 ++ x :: t2').
Proof.
  destruct t2 as [|z t2 _] using rev_ind.
  - intros H. apply (app_inj_tail tr t1 e x) in H as [-> ->]. by left.
  - intros H. right. exists t2.
    change (t1 ++ x :: t2 ++ [z]) with (t1 ++ (x :: t2) ++ [z]) in H.
    rewrite app_assoc in H. apply app_inj_tail in H as [-> ->]. done.
Qed.

Lemma no_send_after_close_snoc tr e :
  no_send_after_close tr →
  (∀ ch b, e = EvSend ch b → EvClose ch ∉ tr) →
  no_send_after_close (tr ++ [e]).
Proof.
  intros Htr He t1 t2 ch Heq b Hin.
  apply snoc_split_inv in Heq as [(-> & _ & _)|(t2' & -> & ->)].
  - by apply not_elem_of_nil in Hin.
  - apply elem_of_app in Hin as [Hin|Hin%list_elem_of_singleton].
    + by apply (Htr t1 t2' ch eq_refl b).
    + apply (He ch b); [done|]. apply elem_of_app. right. apply elem_of_cons. by left.
Qed.

Lemma return_after_close_snoc tr e :
  return_after_close tr →
  (∀ c ch, e = EvUnsubscribeReturn c ch true → EvClose ch ∈ tr) →
  return_after_close (tr ++ [e]).
Proof.
  intros Htr He t1 t2 c ch Heq.
  apply snoc_split_inv in Heq as [(-> & -> & ->)|(t2' & -> & ->)].
  - by apply (He c ch).
  - by apply (Htr t1 t2' c ch).
Qed.

Lemma no_send_after_close_nil : no_send_after_close [].
Proof. intros t1 t2 ch H. by destruct t1. Qed.

Lemma return_after_close_nil : return_after_close [].
Proof. intros t1 t2 c ch H. by destruct t1. Qed.

(** A closed channel is registered nowhere. *)
Lemma closed_not_registered s ch :
  wf s → EvClose ch ∈ events s → ¬ registered s ch.
Proof.
  intros Hwf Hcl Hreg.
  destruct (wf_closed s Hwf ch Hcl) as (k & Hk & Hc).
  destruct (registered_open s ch Hwf Hreg) as (k' & Hk' & Ho).
  simplify_eq. congruence.
Qed.

Lemma countb_pos {A} (f : A → bool) (l : list A) g p :
  l !! g = Some p → f p = true → 0 < countb f l.
Proof.
  intros Hg Hf. destruct (countb f l) eqn:Hc; [|lia].
  rewrite (countb_zero f l g p Hc Hg) in Hf. done.
Qed.

Lemma countb_two {A} (f : A → bool) (l : list A) g g' p p' :
  l !! g = Some p → l !! g' = Some p' → g ≠ g' →
  f p = true → f p' = true → 2 ≤ countb f l.
Proof.
  revert g g'. induction l as [|q l IH]; intros g g'; [done|].
  destruct g as [|g], g' as [|g']; simpl; try done.
  - intros [= ->] Hg' _ Hp Hp'. rewrite Hp.
    pose proof (countb_pos f l g' p' Hg' Hp'). simpl. lia.
  - intros Hg [= ->] _ Hp Hp'. rewrite Hp'.
    pose proof (countb_pos f l g p Hg Hp). simpl. lia.
  - intros Hg Hg' Hne Hp Hp'.
    assert (g ≠ g') as Hne' by congruence.
    pose proof (IH g g' Hg Hg' Hne' Hp Hp'). lia.
Qed.

Lemma unsubscribed_is_closed_snoc tr e :
  unsubscribed_is_closed tr →
  (∀ c ch b, e = EvUnsubscribeReturn c ch b →
             EvSubscribeReturn c ch ∈ tr → EvClose ch ∈ tr) →
  unsubscribed_is_closed (tr ++ [e]).
Proof.
  intros Htr He t1 t2 c ch b Heq.
  apply snoc_split_inv in Heq as [(-> & -> & ->)|(t2' & -> & ->)].
  - by apply (He c ch b).
  - by apply (Htr t1 t2' c ch b).
Qed.

Lemma unsubscribed_is_closed_nil : unsubscribed_is_closed [].
Proof. intros t1 t2 c ch b H. by destruct t1. Qed.

(** [live_or_closed] survives any step that keeps the map and only
    extends the log. *)
Lemma live_or_closed_mono s s' evs c ch :
  handlers s' = handlers s → events s' = events s ++ evs →
  live_or_closed s c ch → live_or_closed s' c ch.
Proof.
  intros Hh He [Hin|Hcl].
  - left. unfold handlers_at in *. by rewrite Hh.
  - right. rewrite He. apply elem_of_app. by left.
Qed.

Lemma live_or_closed_Subscribe c' s c ch :
  live_or_closed s c ch → live_or_closed (Subscribe c' s).2 c ch.
Proof.
  rewrite Subscribe_eq. intros [Hin|Hcl].
  - left. unfold handlers_at in *. simpl. rewrite lookup_insert.
    case_decide; [subst c'|done]. simpl. apply elem_of_app. by left.
  - right. simpl. apply elem_of_app. by left.
Qed.

Lemma live_or_closed_removed s c' ch' i hs k c ch :
  handlers s !! c' = Some hs → hs !! i = Some ch' →
  live_or_closed s c ch → live_or_closed (removed_state s c' ch' i hs k) c ch.
Proof.
  intros Hc Hi [Hin|Hcl].
  - destruct (decide (ch = ch')) as [->|Hne].
    { right. simpl. apply elem_of_app. right. apply elem_of_cons. by left. }
    left. unfold handlers_at in *. simpl.
    destruct (decide (c' = c)) as [->|Hcc].
    + rewrite Hc in Hin. simpl in Hin.
      assert (ch ∈ delete i hs) as Hd.
      { apply list_elem_of_lookup in Hin as [j Hj].
        apply list_elem_of_lookup.
        destruct (decide (j < i)) as [Hlt|Hge].
        - exists j. by rewrite list_lookup_delete_lt.
        - assert (j ≠ i) by (intros ->; simplify_eq).
          exists (pred j). rewrite list_lookup_delete_ge by lia.
          replace (S (pred j)) with j by lia. done. }
      case_bool_decide as Hnil.
      * rewrite Hnil in Hd. by apply not_elem_of_nil in Hd.
      * by rewrite lookup_insert_eq.
    + case_bool_decide.
      * by rewrite lookup_delete_ne.
      * by rewrite lookup_insert_ne.
  - right. simpl. apply elem_of_app. by left.
Qed.

(** Moving goroutine [g] from [p] to [p'] keeps the invariant when the
    new registry state, lock state and program point fit together. *)
Lemma sys_inv_update y g p p' s' r' w' evs :
  sys_inv y → goroutines y !! g = Some p →
  wf s' →
  ((∀ ch, registered (sub y) ch → registered s' ch) ∨ readers y = 0) →
  events s' = events (sub y) ++ evs →
  no_send_after_close (events s') →
  return_after_close (events s') →
  unsubscribed_is_closed (events s') →
  r' + b2n (holds_read p) = readers y + b2n (holds_read p') →
  b2n w' + b2n (holds_write p) = b2n (writer y) + b2n (holds_write p') →
  (w' = true → r' = 0) →
  (∀ n rest, p' = HM_Range n rest → ∀ ch, ch ∈ rest → registered s' ch) →
  (∀ c ch, p' = Un_Unlock c ch true → EvClose ch ∈ events s') →
  (∀ c ch, live_or_closed (sub y) c ch → live_or_closed s' c ch) →
  (∀ c ch, EvSubscribeReturn c ch ∈ evs → live_or_closed s' c ch) →
  (∀ c ch, p' = Sub_Unlock c ch → live_or_closed s' c ch) →
  (∀ c ch b, p' = Un_Unlock c ch b → ch ∉ handlers_at s' c) →
  (handlers s' = handlers (sub y) ∨ holds_write p = true) →
  sys_inv {| sub := s'; readers := r'; writer := w';
             goroutines := <[g := p']> (goroutines y) |}.
Proof.
  intros Hinv Hg Hwf Hreg Hev Htr Hret Hun Hr Hw Hex Hrange Hunl
         Hlive Hnew Hsubpc Hunpc Hsame.
  pose proof (countb_insert holds_read _ g p p' Hg) as Hcr.
  pose proof (countb_insert holds_write _ g p p' Hg) as Hcw.
  pose proof (inv_readers y Hinv) as Hyr.
  pose proof (inv_writer y Hinv) as Hyw.
  split; simpl; try done.
  - lia.
  - lia.
  - intros g' n rest [(<- & Hp & _)|(Hne & Hg')]%list_lookup_insert_Some ch Hin.
    + by eapply Hrange.
    + destruct Hreg as [Hreg|Hzero].
      * apply Hreg. by eapply (inv_range y Hinv g').
      * rewrite Hyr in Hzero.
        by pose proof (countb_zero holds_read _ g' _ Hzero Hg').
  - intros g' c ch [(<- & Hp & _)|(Hne & Hg')]%list_lookup_insert_Some.
    + by eapply Hunl.
    + rewrite Hev. apply elem_of_app. left. by eapply (inv_unlock y Hinv g').
  - intros c ch. rewrite Hev. intros [Hin|Hin]%elem_of_app.
    + apply Hlive. by apply (inv_sub y Hinv).
    + by apply Hnew.
  - intros g' c ch [(<- & Hp & _)|(Hne & Hg')]%list_lookup_insert_Some.
    + by apply Hsubpc.
    + apply Hlive. by apply (inv_sub_pc y Hinv g').
  - intros g' c ch b [(<- & Hp & _)|(Hne & Hg')]%list_lookup_insert_Some.
    + by eapply Hunpc.
    + destruct Hsame as [Hsame|Hpw].
      * unfold handlers_at. rewrite Hsame. by apply (inv_un_pc y Hinv g' c ch b).
      * pose proof (countb_two holds_write _ g g' _ _ Hg Hg' Hne Hpw eq_refl) as H2.
        destruct (writer y); simpl in Hyw; lia.
Qed.

Lemma wf_log_event e s :
  wf s → is_close e = false → wf (log_event e s).
Proof.
  intros Hwf He. split; try apply Hwf.
  intros ch. simpl. intros [Hin|Hin%list_elem_of_singleton]%elem_of_app.
  - by apply (wf_closed s Hwf).
  - subst e. done.
Qed.

Lemma registered_Subscribe c s ch :
  registered s ch → registered (Subscribe c s).2 ch.
Proof.
  intros [c' Hin]. exists c'. rewrite Subscribe_eq. unfold handlers_at in *. simpl.
  rewrite lookup_insert. case_decide; [subst c'|done].
  simpl. apply elem_of_app. by left.
Qed.

Lemma sys_inv_init k : sys_inv (init k).
Proof.
  split; simpl.
  - apply wf_NewSubscriber.
  - by rewrite countb_replicate.
  - by rewrite countb_replicate.
  - done.
  - intros g n rest [? _]%lookup_replicate. done.
  - intros g c ch [? _]%lookup_replicate. done.
  - apply no_send_after_close_nil.
  - apply return_after_close_nil.
  - intros c ch ?%not_elem_of_nil. done.
  - intros g c ch [? _]%lookup_replicate. done.
  - intros g c ch b [? _]%lookup_replicate. done.
  - apply unsubscribed_is_closed_nil.
Qed.

Section Steps.
Variable json_Unmarshal : string → option EventNotification.

Ltac side_conditions Hinv :=
  cbn [b2n holds_read holds_write]; simpl;
  first [ done
        | by left
        | by right
        | by rewrite app_nil_r
        | exact (inv_trace _ Hinv)
        | exact (inv_ret _ Hinv)
        | exact (inv_unsub _ Hinv)
        | by (apply no_send_after_close_snoc; [exact (inv_trace _ Hinv)|])
        | by (apply return_after_close_snoc; [exact (inv_ret _ Hinv)|])
        | by (apply unsubscribed_is_closed_snoc; [exact (inv_unsub _ Hinv)|])
        | lia
        | by (intros; congruence)
        | by (intros ? ? ?%not_elem_of_nil)
        | by (intros ? ? [?|?%not_elem_of_nil]%elem_of_cons)
        | by (intros ? ?; eapply live_or_closed_mono; simpl; reflexivity)
        | idtac ].

Lemma next_step_inv y g p r :
  sys_inv y → goroutines y !! g = Some p →
  next_step g p y = Some r → ∃ y', r = Ok y' ∧ sys_inv y'.
Proof.
  intros Hinv Hg.
  pose proof (inv_wf y Hinv) as Hwf.
  pose proof (inv_writer y Hinv) as Hyw.
  pose proof (inv_readers y Hinv) as Hyr.
  destruct p as [|n|n [|h rest]|c|c|c ch|c ch|c ch|c ch removed]; simpl.
  - done.
  - (* RLock *)
    destruct (writer y) eqn:Hw; [done|]. intros [= <-]. eexists. split; [done|].
    eapply (sys_inv_update y g _ _ (sub y) _ _ [] Hinv Hg); side_conditions Hinv.
    + rewrite Hw. simpl. lia.
    + intros n' rest' [= <- <-] ch Hin. by exists (ChannelID n).
  - (* RUnlock *)
    intros [= <-]. eexists. split; [done|].
    pose proof (countb_pos holds_read _ g _ Hg eq_refl) as Hpos.
    eapply (sys_inv_update y g _ _ (sub y) _ _ [] Hinv Hg); side_conditions Hinv.
    intros Hw. rewrite (inv_excl y Hinv Hw). done.
  - (* one send of the range loop *)
    intros [= <-].
    assert (registered (sub y) h) as Hreg.
    { eapply (inv_range y Hinv g); [done|]. apply elem_of_cons. by left. }
    destruct (registered_open _ _ Hwf Hreg) as (k & Hk & Hopen).
    rewrite (chan_try_send_open _ _ _ _ Hk Hopen). simpl.
    eexists. split; [done|].
    eapply (sys_inv_update y g _ _ _ _ _ [EvSend h (has_room (sub y) h)] Hinv Hg);
      side_conditions Hinv.
    + apply (wf_update_cell _ h k); auto using after_send_closed, after_send_cap.
    + apply no_send_after_close_snoc; [apply Hinv|].
      intros ch b [= -> _] Hcl. by apply (closed_not_registered _ _ Hwf Hcl).
    + apply Hinv.
    + intros n' rest' [= <- <-] ch Hin. destruct (inv_range y Hinv g _ _ Hg ch) as [c Hc].
      { apply elem_of_cons. by right. }
      by exists c.
  - (* Lock in Subscribe *)
    destruct (writer y) eqn:Hw; [done|]. simpl.
    case_bool_decide as Hr; [|done]. simpl. intros [= <-]. eexists. split; [done|].
    eapply (sys_inv_update y g _ _ (sub y) _ _ [] Hinv Hg); side_conditions Hinv.
    rewrite Hw. simpl. lia.
  - (* body of Subscribe *)
    intros [= <-]. eexists. split; [done|].
    pose proof (wf_Subscribe c _ Hwf) as Hwf'. rewrite Subscribe_eq in Hwf'.
    eapply (sys_inv_update y g _ _ _ _ _ [EvMake (length (chans (sub y)))] Hinv Hg);
      side_conditions Hinv.
    + left. intros ch Hch. pose proof (registered_Subscribe c _ ch Hch) as H.
      by rewrite Subscribe_eq in H.
    + apply Hinv.
    + intros c0 ch Hl. pose proof (live_or_closed_Subscribe c _ c0 ch Hl) as H.
      by rewrite Subscribe_eq in H.
    + intros c0 ch [= <- <-]. left. unfold handlers_at. simpl.
      rewrite lookup_insert_eq. simpl. apply elem_of_app. right.
      by apply list_elem_of_singleton.
  - (* Unlock in Subscribe *)
    intros [= <-]. eexists. split; [done|].
    pose proof (countb_pos holds_write _ g _ Hg eq_refl) as Hpos.
    eapply (sys_inv_update y g _ _ _ _ _ [EvSubscribeReturn c ch] Hinv Hg);
      side_conditions Hinv.
    + by apply wf_log_event.
    + destruct (writer y); simpl in *; lia.
    + intros c0 ch0 [[= <- <-]|?%not_elem_of_nil]%elem_of_cons; [|done].
      apply (live_or_closed_mono (sub y) _ [EvSubscribeReturn c0 ch0]); [done|done|].
      by apply (inv_sub_pc y Hinv g).
  - (* Lock in Unsubscribe *)
    destruct (writer y) eqn:Hw; [done|]. simpl.
    case_bool_decide as Hr; [|done]. simpl. intros [= <-]. eexists. split; [done|].
    eapply (sys_inv_update y g _ _ (sub y) _ _ [] Hinv Hg); side_conditions Hinv.
    rewrite Hw. simpl. lia.
  - (* body of Unsubscribe *)
    intros [= <-].
    pose proof (countb_pos holds_write _ g _ Hg eq_refl) as Hpos.
    assert (writer y = true) as Hw by (destruct (writer y); simpl in *; [done|lia]).
    pose proof (inv_excl y Hinv Hw) as Hzero.
    destruct (decide (ch ∈ handlers_at (sub y) c)) as [Hin|Hn].
    + destruct (Unsubscribe_present _ c ch Hwf Hin)
        as (i & hs & k & Hc & Hi & Hk & _ & ->). simpl.
      eexists. split; [done|].
      eapply (sys_inv_update y g _ _ _ _ _ [EvClose ch] Hinv Hg); side_conditions Hinv.
      * by apply wf_removed_state.
      * intros c' ch' [= _ <- _]. apply elem_of_app. right.
        apply elem_of_cons. by left.
      * intros c0 ch0. by apply live_or_closed_removed.
      * intros c0 ch0 b [= <- <- _]. by apply removed_state_gone.
    + rewrite (Unsubscribe_absent _ c ch Hwf Hn). simpl.
      eexists. split; [done|].
      eapply (sys_inv_update y g _ _ (sub y) _ _ [] Hinv Hg); side_conditions Hinv.
      * intros c' ch' [= _ _ Hrem]. apply bool_decide_eq_true in Hrem as [i Hi].
        exfalso. apply Hn. apply list_elem_of_lookup. exists i.
        by apply find_handler_Some.
  - (* Unlock in Unsubscribe *)
    intros [= <-]. eexists. split; [done|].
    pose proof (countb_pos holds_write _ g _ Hg eq_refl) as Hpos.
    eapply (sys_inv_update y g _ _ _ _ _ [EvUnsubscribeReturn c ch removed] Hinv Hg);
      side_conditions Hinv.
    + by apply wf_log_event.
    + apply return_after_close_snoc; [apply Hinv|].
      intros c' ch' [= -> -> ->]. by apply (inv_unlock y Hinv g c').
    + apply unsubscribed_is_closed_snoc; [apply Hinv|].
      intros c' ch' b [= <- <- _] Hsub.
      destruct (inv_sub y Hinv c ch Hsub) as [Hin|Hcl]; [|done].
      by apply (inv_un_pc y Hinv g c ch removed) in Hin.
    + destruct (writer y); simpl in *; lia.
Qed.

Lemma chan_recv_frame ch s v s' :
  chan_recv ch s = Some (v, s') →
  handlers s' = handlers s ∧ events s' = events s.
Proof.
  unfold chan_recv. destruct (chans s !! ch) as [k|]; [|done].
  destruct (buf k); [destruct (closed k); [|done]|]; by intros [= _ <-].
Qed.

Lemma call_inv y g p r :
  sys_inv y → holds_read p = false → holds_write p = false →
  call g p y = Some r → ∃ y', r = Ok y' ∧ sys_inv y'.
Proof.
  intros Hinv Hr Hw. unfold call.
  destruct (goroutines y !! g) as [[| | | | | | | |]|] eqn:Hg; try done.
  intros [= <-]. eexists. split; [done|]. unfold at_pc.
  eapply (sys_inv_update y g _ _ (sub y) _ _ [] Hinv Hg); side_conditions Hinv.
  - apply Hinv.
  - rewrite Hr. simpl. lia.
  - rewrite Hw. simpl. lia.
  - apply Hinv.
  - intros n rest ->. done.
  - intros c ch ->. done.
  - intros c ch ->. done.
  - intros c ch b ->. done.
Qed.

Lemma step_inv a y r :
  sys_inv y → step json_Unmarshal a y = Some r → ∃ y', r = Ok y' ∧ sys_inv y'.
Proof.
  intros Hinv. destruct a as [g payload|g c|g c ch|ch|g]; simpl.
  - destruct (json_Unmarshal payload); by apply call_inv.
  - by apply call_inv.
  - by apply call_inv.
  - destruct (chan_recv ch (sub y)) as [[v s1]|] eqn:Hrecv; [|done].
    intros [= <-]. eexists. split; [done|].
    destruct (chan_recv_frame _ _ _ _ Hrecv) as [Hh He].
    split; simpl; try apply Hinv.
    + eapply wf_chan_recv; [apply Hinv|done].
    + intros g n rest Hg ch' Hin.
      destruct (inv_range y Hinv g n rest Hg ch' Hin) as [c Hc].
      exists c. unfold handlers_at in *. by rewrite Hh.
    + intros g c ch' Hg. rewrite He. by apply (inv_unlock y Hinv g c).
    + rewrite He. apply Hinv.
    + rewrite He. apply Hinv.
    + intros c ch' Hin. rewrite He in Hin.
      apply (live_or_closed_mono (sub y) _ []); [done|by rewrite app_nil_r|].
      by apply (inv_sub y Hinv).
    + intros g c ch' Hg.
      apply (live_or_closed_mono (sub y) _ []); [done|by rewrite app_nil_r|].
      by apply (inv_sub_pc y Hinv g).
    + intros g c ch' b Hg. unfold handlers_at. rewrite Hh.
      by apply (inv_un_pc y Hinv g c ch' b).
    + rewrite He. apply Hinv.
  - destruct (goroutines y !! g) as [p|] eqn:Hg; [|done].
    by apply next_step_inv.
Qed.

Lemma run_inv sched y r :
  sys_inv y → run json_Unmarshal sched y = Some r → ∃ y', r = Ok y' ∧ sys_inv y'.
Proof.
  revert y. induction sched as [|a sched IH]; intros y Hinv; simpl.
  - intros [= <-]. by exists y.
  - destruct (step json_Unmarshal a y) as [r1|] eqn:Hs; [|done].
    destruct (step_inv a y r1 Hinv Hs) as (y1 & -> & Hinv1).
    by apply IH.
Qed.

Lemma no_send_after_return_of tr :
  no_send_after_close tr → return_after_close tr → no_send_after_return tr.
Proof.
  intros Hcl Hret t1 t2 c ch Heq b Hin.
  pose proof (Hret t1 t2 c ch Heq) as Hc.
  apply list_elem_of_split in Hc as (u1 & u2 & ->).
  apply (Hcl u1 (u2 ++ EvUnsubscribeReturn c ch true :: t2) ch) with b.
  - rewrite Heq, <- app_assoc. done.
  - apply elem_of_app. right. apply elem_of_cons. by right.
Qed.

(** The range loop of the machine, run without interruption, is the
    loop of [handleMessage]. *)
Lemma range_loop_agrees g n rest y :
  goroutines y !! g = Some (HM_Range n rest) →
  run json_Unmarshal (replicate (length rest) (Next g)) y =
  Some (s' ← sweep n rest (sub y);
        Ok {| sub := s'; readers := readers y; writer := writer y;
              goroutines := <[g := HM_Range n []]> (goroutines y) |}).
Proof.
  revert y. induction rest as [|h rest IH]; intros y Hg.
  - simpl. rewrite list_insert_id by done. by destruct y.
  - cbn [length replicate run step]. rewrite Hg. cbn [next_step sweep].
    destruct (chan_try_send h n (sub y)) as [s1|m]; simpl; [|done].
    assert (g < length (goroutines y)) as Hlt by by eapply lookup_lt_Some.
    rewrite IH by (simpl; by rewrite list_lookup_insert_eq).
    simpl. by rewrite list_insert_insert_eq.
Qed.

Lemma no_send_after_unsubscribe_of tr :
  no_send_after_close tr → unsubscribed_is_closed tr → no_send_after_unsubscribe tr.
Proof.
  intros Hcl Hun t1 t2 c ch b Heq Hsub b' Hin.
  pose proof (Hun t1 t2 c ch b Heq Hsub) as Hc.
  apply list_elem_of_split in Hc as (u1 & u2 & ->).
  apply (Hcl u1 (u2 ++ EvUnsubscribeReturn c ch b :: t2) ch) with b'.
  - rewrite Heq, <- app_assoc. done.
  - apply elem_of_app. right. apply elem_of_cons. by right.
Qed.

(** C1. Whatever the goroutines calling [Subscribe], [Unsubscribe] and
    [handleMessage] and whatever their interleaving under the lock
    discipline of [mu], the run never panics (no send reaches a closed
    channel), and in the log of channel operations no send attempt on a
    channel comes after the close of that channel, nor after the return
    of the [Unsubscribe] call that removed it, nor after the return of
    any [Unsubscribe(c, ch)] for a channel [ch] that [Subscribe(c)] had
    returned. *)
Theorem no_delivery_after_unsubscribe k sched r :
  run json_Unmarshal sched (init k) = Some r →
  ∃ y, r = Ok y ∧
       no_send_after_close (events (sub y)) ∧
       no_send_after_return (events (sub y)) ∧
       no_send_after_unsubscribe (events (sub y)).
Proof.
  intros Hrun.
  destruct (run_inv sched (init k) r (sys_inv_init k) Hrun) as (y & -> & Hinv).
  exists y. split_and!; [done|apply Hinv| |].
  - apply no_send_after_return_of; apply Hinv.
  - apply no_send_after_unsubscribe_of; apply Hinv.
Qed.

End Steps.

Lemma no_delivery_after_unsubscribe_witness :
  run json_a sched_race (init 2) = Some (Ok state_race) ∧
  ∃ y, Ok state_race = Ok y ∧
       no_send_after_close (events (sub y)) ∧
       no_send_after_return (events (sub y)) ∧
       no_send_after_unsubscribe (events (sub y)).
Proof.
  split; [reflexivity|].
  apply (no_delivery_after_unsubscribe json_a 2 sched_race (Ok state_race)).
  reflexivity.
Defined.

(** While the sweep holds the read lock, [Unsubscribe] cannot take the
    write lock: the seventh action of [sched_race] leaves goroutine 0
    waiting. *)
Example unsubscribe_waits_for_sweep :
  ∃ y, run json_a (take 7 sched_race) (init 2) = Some (Ok y) ∧
       goroutines y = [Un_Lock "a" 0; HM_Range note_a [0]] ∧
       step json_a (Next 0) y = None.
Proof. eexists. split; [reflexivity|]. split; reflexivity. Qed.

End SysFacts.

(** * Facts about the upstream pool *)
Module CoreFacts.
Import Core Spec SysFacts.

Section WithLibs.
Variable url_QueryEscape : string → string.
Variable json_Decode : string → option (list Event).

#[local] Abbreviation call_step := (call_step url_QueryEscape json_Decode).
#[local] Abbreviation run_call := (run_call url_QueryEscape json_Decode).
#[local] Abbreviation GetEvents := (GetEvents url_QueryEscape json_Decode).
#[local] Abbreviation pool_step := (pool_step url_QueryEscape json_Decode).
#[local] Abbreviation pool_run := (pool_run url_QueryEscape json_Decode).
#[local] Abbreviation request_of := (request_of url_QueryEscape).
#[local] Abbreviation outcome_of := (outcome_of json_Decode).

Lemma clamp_min (limit m : Z) :
  (if (limit >? m)%Z then m else limit) = Z.min limit m.
Proof. destruct (Z.gtb_spec limit m); lia. Qed.

(** [GetEvents] in closed form. *)
Lemma GetEvents_eq env channelID offset limit p :
  GetEvents env channelID offset limit p =
  match select_case env with
  | CaseDone err => Some (RetErr err, p)
  | CaseAcquire =>
      if bool_decide (semaphore p < workers p)
      then match new_request_err env with
           | Some m => Some (RetErr (errorf ("failed to create request: " +:+ m)), p)
           | None =>
               Some (outcome_of env,
                     issue p (request_of p channelID offset (Z.min limit (maxLimit p))))
           end
      else None
  end.
Proof.
  unfold Core.GetEvents. simpl.
  destruct (select_case env); [|done].
  case_bool_decide; [|done]. simpl. rewrite clamp_min.
  destruct (new_request_err env); simpl; by destruct p.
Qed.

(** C4. With every permit taken ([workers <= len(semaphore)]) a call
    cannot acquire: it stays suspended in its [select] until [ctx] is
    done, and then returns [(nil, ctx.Err())] and leaves the pool as it
    was, so no request is handed to the HTTP client. *)
Theorem pool_exhausted_no_request env channelID offset limit p :
  workers p ≤ semaphore p →
  GetEvents env channelID offset limit p =
  match select_case env with
  | CaseDone err => Some (RetErr err, p)
  | CaseAcquire => None
  end.
Proof.
  intros Hfull. rewrite GetEvents_eq. destruct (select_case env); [|done].
  rewrite bool_decide_eq_false_2; [done|lia].
Qed.

(** C9, as the code has it. A call first takes its permit, carrying the
    requested limit untouched, and clamps next; the request it then
    builds and hands to the HTTP client carries exactly
    [min(requested, maxLimit)]. *)
Theorem acquire_then_clamp env channelID offset limit p :
  select_case env = CaseAcquire → semaphore p < workers p →
  let p1 := with_semaphore p (S (semaphore p)) in
  call_step env p (G_Select channelID offset limit)
    = Some (p1, G_Clamp channelID offset limit) ∧
  call_step env p1 (G_Clamp channelID offset limit)
    = Some (p1, G_NewRequest channelID offset (Z.min limit (maxLimit p))) ∧
  (new_request_err env = None →
   GetEvents env channelID offset limit p =
     Some (outcome_of env,
           issue p (request_of p channelID offset (Z.min limit (maxLimit p)))) ∧
   req_limit (request_of p channelID offset (Z.min limit (maxLimit p)))
     = Z.min limit (maxLimit p)).
Proof.
  intros Hsel Hroom. simpl. rewrite Hsel, clamp_min.
  rewrite bool_decide_eq_true_2 by done. split_and!; try done.
  intros Hreq. rewrite GetEvents_eq, Hsel, Hreq.
  by rewrite bool_decide_eq_true_2 by done.
Qed.

Lemma countb_le {A} (f g : A → bool) (l : list A) :
  (∀ x, f x = true → g x = true) → countb f l ≤ countb g l.
Proof.
  intros Hfg. induction l as [|x l IH]; simpl; [done|].
  specialize (Hfg x). destruct (f x), (g x); simpl; try lia.
Qed.

Lemma countb_app {A} (f : A → bool) (l1 l2 : list A) :
  countb f (l1 ++ l2) = countb f l1 + countb f l2.
Proof. induction l1 as [|x l1 IH]; simpl; [done|]. rewrite IH. lia. Qed.

Lemma call_step_frame env p c p1 c1 :
  call_step env p c = Some (p1, c1) →
  workers p1 = workers p ∧
  semaphore p1 + b2n (holds_permit c) = semaphore p + b2n (holds_permit c1) ∧
  (holds_permit c1 = true → semaphore p1 ≤ workers p ∨ holds_permit c = true).
Proof.
  destruct c as [ch o l|ch o l|ch o l|req|r|r]; simpl.
  - destruct (select_case env).
    + case_bool_decide; [|done]. intros [= <- <-]. simpl. split_and!; [done|lia|].
      intros _. left. lia.
    + intros [= <- <-]. simpl. split_and!; [done|lia|done].
  - intros [= <- <-]. simpl. split_and!; [done|lia|auto].
  - destruct (new_request_err env); intros [= <- <-]; simpl; split_and!; auto; lia.
  - intros [= <- <-]. simpl. split_and!; [done|lia|auto].
  - destruct (semaphore p) as [|k] eqn:Hk; [done|].
    intros [= <- <-]. simpl. split_and!; [done|lia|done].
  - done.
Qed.

Lemma pool_step_inv N a y y1 :
  pool_inv N y → pool_step a y = Some y1 → pool_inv N y1.
Proof.
  intros [Hw Hh Hc]. destruct a as [env ch o l|i]; simpl.
  - intros [= <-]. split; simpl; try done.
    unfold permits_held. simpl. rewrite countb_app. simpl. unfold permits_held in Hh. lia.
  - destruct (calls y !! i) as [[env c]|] eqn:Hi; [|done].
    destruct (call_step env (pool y) c) as [[p1 c1]|] eqn:Hs; [|done].
    intros [= <-].
    destruct (call_step_frame _ _ _ _ _ Hs) as (Hw1 & Hs1 & Hcap).
    pose proof (countb_insert (λ ec : CallEnv * gpc, holds_permit ec.2)
                  (calls y) i (env, c) (env, c1) Hi) as Hcnt.
    unfold permits_held in *. simpl in *.
    split; unfold permits_held; simpl; [congruence|lia|].
    destruct (holds_permit c1) eqn:Hc1.
    + destruct (Hcap eq_refl) as [?|Hc0]; [lia|]. rewrite Hc0 in Hs1. simpl in *. lia.
    + destruct (holds_permit c); simpl in *; lia.
Qed.

Lemma pool_run_inv N sched y y1 :
  pool_inv N y → pool_run sched y = Some y1 → pool_inv N y1.
Proof.
  revert y. induction sched as [|a sched IH]; intros y Hinv; simpl.
  - by intros [= <-].
  - destruct (pool_step a y) as [y0|] eqn:Hs; [|done].
    apply IH. by eapply pool_step_inv.
Qed.

Lemma pool_inv_new addr sec maxLim w p :
  NewLaravelUpstreamPool addr sec maxLim w = Ok p →
  pool_inv (Z.to_nat w) {| pool := p; calls := [] |}.
Proof.
  unfold NewLaravelUpstreamPool. destruct (w <? 0)%Z; [done|].
  intros [= <-]. split; simpl; [done|done|lia].
Qed.

(** A call that holds a permit gives it back within four instructions,
    whatever the environment answers. *)
Lemma holder_releases env p c :
  holds_permit c = true → 0 < semaphore p →
  ∃ p' r, run_call 4 env p c = Some (p', G_Return r) ∧
          S (semaphore p') = semaphore p.
Proof.
  destruct (semaphore p) as [|k] eqn:Hk; [lia|].
  destruct c as [ch o l|ch o l|ch o l|req|r|r]; try done; intros _ _; simpl.
  - destruct (new_request_err env); simpl; rewrite Hk; eauto.
  - destruct (new_request_err env); simpl; rewrite Hk; eauto.
  - rewrite Hk. eauto.
  - rewrite Hk. eauto.
Qed.

(** C6. From a fresh pool of [workers] permits, whatever calls are made
    and however their instructions interleave: the calls inside
    [httpClient.Do] are among the permit holders, the permit holders are
    as many as the items in the semaphore, and these never exceed
    [workers]. Every permit holder releases its permit within four of its
    own instructions whatever the backend answers, and a call run on its
    own from its [select] to its return leaves the semaphore as it found
    it. *)
Theorem in_flight_bounded addr sec maxLim w p sched y :
  NewLaravelUpstreamPool addr sec maxLim w = Ok p →
  pool_run sched {| pool := p; calls := [] |} = Some y →
  in_flight y ≤ permits_held y ∧
  permits_held y = semaphore (pool y) ∧
  permits_held y ≤ Z.to_nat w ∧
  (∀ i env c, calls y !! i = Some (env, c) → holds_permit c = true →
     ∃ p' r, run_call 4 env (pool y) c = Some (p', G_Return r) ∧
             S (semaphore p') = semaphore (pool y)) ∧
  (∀ env channelID offset limit r p',
     GetEvents env channelID offset limit (pool y) = Some (r, p') →
     semaphore p' = semaphore (pool y)).
Proof.
  intros Hnew Hrun.
  pose proof (pool_run_inv _ _ _ _ (pool_inv_new _ _ _ _ _ Hnew) Hrun) as [Hw Hh Hc].
  split_and!.
  - apply countb_le. intros [env c]. simpl. by destruct c.
  - done.
  - lia.
  - intros i env c Hi Hperm.
    pose proof (countb_pos (λ ec : CallEnv * gpc, holds_permit ec.2)
                  (calls y) i (env, c) Hi Hperm) as Hpos.
    apply holder_releases; [done|]. unfold permits_held in Hh. lia.
  - intros env ch o l r p'. rewrite GetEvents_eq.
    destruct (select_case env); [|by intros [= _ <-]].
    case_bool_decide; [|done].
    destruct (new_request_err env); by intros [= _ <-].
Qed.

End WithLibs.

Lemma pool_exhausted_no_request_witness :
  workers pool_1_busy ≤ semaphore pool_1_busy ∧
  GetEvents (λ x, x) decode_ok env_canceled "a" 0 500 pool_1_busy =
  match select_case env_canceled with
  | CaseDone err => Some (RetErr err, pool_1_busy)
  | CaseAcquire => None
  end.
Proof.
  split; [simpl; lia|].
  apply (pool_exhausted_no_request (λ x, x) decode_ok env_canceled "a" 0 500 pool_1_busy).
  simpl. lia.
Defined.

(** C9, as stated, fails: the call below holds the only permit of
    [pool_1] while its limit is still the requested 500, above the cap
    of 100. *)
Lemma clamps_before_acquire_fails :
  ¬ clamps_before_acquire (λ x, x) decode_ok.
Proof.
  intros H.
  destruct (H env_ok pool_1 "a" 0%Z 500%Z (with_semaphore pool_1 1) (G_Clamp "a" 0 500)
              eq_refl eq_refl) as (ch & o & l & [Hc|Hc] & Hl).
  - injection Hc as _ _ <-. simpl in Hl. lia.
  - discriminate Hc.
Qed.

Lemma acquire_then_clamp_witness :
  select_case env_ok = CaseAcquire ∧ semaphore pool_1 < workers pool_1 ∧
  let p1 := with_semaphore pool_1 (S (semaphore pool_1)) in
  call_step (λ x, x) decode_ok env_ok pool_1 (G_Select "a" 0 500)
    = Some (p1, G_Clamp "a" 0 500) ∧
  call_step (λ x, x) decode_ok env_ok p1 (G_Clamp "a" 0 500)
    = Some (p1, G_NewRequest "a" 0 (Z.min 500 (maxLimit pool_1))) ∧
  (new_request_err env_ok = None →
   GetEvents (λ x, x) decode_ok env_ok "a" 0 500 pool_1 =
     Some (outcome_of decode_ok env_ok,
           issue pool_1 (request_of (λ x, x) pool_1 "a" 0 (Z.min 500 (maxLimit pool_1)))) ∧
   req_limit (request_of (λ x, x) pool_1 "a" 0 (Z.min 500 (maxLimit pool_1)))
     = Z.min 500 (maxLimit pool_1)).
Proof.
  split; [reflexivity|]. split; [simpl; lia|].
  apply (acquire_then_clamp (λ x, x) decode_ok env_ok "a" 0 500 pool_1);
    [reflexivity | simpl; lia].
Defined.

Lemma in_flight_bounded_witness :
  NewLaravelUpstreamPool "http://laravel" "s" 100 1 = Ok pool_1 ∧
  pool_run (λ x, x) decode_ok sched_pool {| pool := pool_1; calls := [] |}
    = Some state_pool ∧
  (in_flight state_pool ≤ permits_held state_pool ∧
   permits_held state_pool = semaphore (pool state_pool) ∧
   permits_held state_pool ≤ Z.to_nat 1 ∧
   (∀ i env c, calls state_pool !! i = Some (env, c) → holds_permit c = true →
      ∃ p' r, run_call (λ x, x) decode_ok 4 env (pool state_pool) c
                = Some (p', G_Return r) ∧
              S (semaphore p') = semaphore (pool state_pool)) ∧
   (∀ env channelID offset limit r p',
      GetEvents (λ x, x) decode_ok env channelID offset limit (pool state_pool)
        = Some (r, p') →
      semaphore p' = semaphore (pool state_pool))).
Proof.
  split; [reflexivity|]. split; [reflexivity|].
  apply (in_flight_bounded (λ x, x) decode_ok "http://laravel" "s" 100 1 pool_1
           sched_pool state_pool); reflexivity.
Defined.

(** With the permit of [state_pool] taken, the second call cannot move. *)
Example second_call_waits :
  pool_step (λ x, x) decode_ok (PNext 1) state_pool = None.
Proof. reflexivity. Qed.

End CoreFacts.

(** * Facts about the poll handler *)
Module HttpFacts.
Import Redis Spec RedisFacts Http.

Lemma find_handler_snoc ch hs :
  ch ∉ hs → find_handler ch (hs ++ [ch]) = Some (length hs).
Proof.
  induction hs as [|h hs IH]; simpl; intros Hn.
  - by rewrite bool_decide_eq_true_2.
  - rewrite bool_decide_eq_false_2.
    + rewrite IH; [done|]. intros ?. apply Hn. apply elem_of_cons. by right.
    + intros ->. apply Hn. apply elem_of_cons. by left.
Qed.

Lemma delete_snoc {A} (l : list A) (x : A) : delete (length l) (l ++ [x]) = l.
Proof. induction l as [|y l IH]; simpl; [done|]. by rewrite IH. Qed.

(** The deferred [Unsubscribe] of a poll undoes its [Subscribe]: the map
    is as before, the channel made for the poll is closed. *)
Lemma Unsubscribe_Subscribe c s :
  wf s →
  ∃ s', Unsubscribe c (Subscribe c s).1 (Subscribe c s).2 = Ok s' ∧
        handlers s' = handlers s ∧
        events s' = events s ++ [EvMake (length (chans s)); EvClose (length (chans s))].
Proof.
  intros Hwf.
  pose proof (wf_Subscribe c s Hwf) as Hwf1. revert Hwf1.
  rewrite Subscribe_eq. simpl.
  set (ch := length (chans s)). set (hs := handlers_at s c).
  intros Hwf1.
  assert (ch ∉ hs) as Hfresh.
  { intros Hin. assert (registered s ch) as Hr by by exists c.
    pose proof (wf_registered_lt s ch Hwf Hr). unfold ch in *. lia. }
  edestruct (Unsubscribe_present _ c ch Hwf1) as (i & hs1 & k & Hc & Hi & Hk & _ & ->).
  { unfold handlers_at. simpl. rewrite lookup_insert_eq. simpl.
    apply elem_of_app. right. apply list_elem_of_singleton. done. }
  simpl in Hc. rewrite lookup_insert_eq in Hc. injection Hc as <-.
  assert (i = length hs) as ->.
  { apply lookup_app_Some in Hi as [Hi|[Hle Hi]].
    - exfalso. apply Hfresh. apply list_elem_of_lookup. eauto.
    - apply list_lookup_singleton_Some in Hi as [Hi _]. lia. }
  eexists. split; [done|]. unfold removed_state. simpl.
  rewrite delete_snoc. split; [|by rewrite <- app_assoc].
  subst hs. unfold handlers_at in *.
  destruct (handlers s !! c) as [hs|] eqn:Hc; simpl.
  - rewrite bool_decide_eq_false_2 by by apply (wf_nonempty s Hwf c).
    rewrite insert_insert_eq. by apply insert_id.
  - rewrite delete_insert_eq. by apply delete_id.
Qed.

Section WithLibs.
Variable url_QueryEscape : string → string.
Variable json_Decode : string → option (list Core.Event).
Variable ValidateToken : string → option string.
Variable strconv_ParseInt : string → option Z.
Variable strconv_Atoi : string → option Z.
Variable json_Unmarshal : string → option EventNotification.

#[local] Abbreviation GetEvents := (Core.GetEvents url_QueryEscape json_Decode).
#[local] Abbreviation GetUpdates_enter :=
  (GetUpdates_enter url_QueryEscape json_Decode ValidateToken strconv_ParseInt strconv_Atoi).
#[local] Abbreviation GetUpdates_wake := (GetUpdates_wake url_QueryEscape json_Decode).
#[local] Abbreviation offset_param := (offset_param strconv_ParseInt).
#[local] Abbreviation limit_param := (limit_param strconv_Atoi).

(** C7. A request with a valid token whose immediate fetch returns a
    non-empty list is answered at once with status 200 and those events;
    the subscriber is left exactly as it was (same map, no channel made,
    nothing logged), only the pool is the one [GetEvents] returned. *)
Theorem immediate_events_skip_subscribe h q env w channelID evs p1 :
  Query q "token" ≠ "" →
  ValidateToken (Query q "token") = Some channelID →
  GetEvents env channelID (offset_param q) (limit_param h q) (upstreamPool w)
    = Some (Core.RetEvents evs, p1) →
  evs ≠ [] →
  GetUpdates_enter h q env w =
  Some (Responded {| status := StatusOK; body := BodyEvents evs |},
        {| subscriber := subscriber w; upstreamPool := p1 |}).
Proof.
  intros Htok Hval Hget Hne. unfold Http.GetUpdates_enter.
  rewrite bool_decide_eq_false_2 by done. rewrite Hval, Hget.
  rewrite bool_decide_eq_true_2; [done|]. destruct evs; [done|simpl; lia].
Qed.

(** C3. On a subscriber state that can be reached, a request with a
    valid token whose immediate fetch returns the empty list subscribes
    and waits on a fresh, empty queue. As long as that queue is empty the
    notification case of the [select] is not ready; when [pollCtx] is
    done the handler writes status 200 with an empty event list, in any
    state of the world. If nothing touched the registry meanwhile, the
    deferred [Unsubscribe] returns without a panic and leaves the map as
    it was before the poll. *)
Theorem deadline_gives_empty_success ops h q env w channelID p1 :
  run_ops json_Unmarshal ops NewSubscriber = Ok (subscriber w) →
  Query q "token" ≠ "" →
  ValidateToken (Query q "token") = Some channelID →
  GetEvents env channelID (offset_param q) (limit_param h q) (upstreamPool w)
    = Some (Core.RetEvents [], p1) →
  ∃ notifyCh w1,
    GetUpdates_enter h q env w =
      Some (Waiting channelID (offset_param q) (limit_param h q) notifyCh, w1) ∧
    chans (subscriber w1) !! notifyCh = Some {| buf := []; cap := 10; closed := false |} ∧
    (∀ env2 w',
       (∀ k, chans (subscriber w') !! notifyCh = Some k → buf k = [] ∧ closed k = false) →
       GetUpdates_wake h channelID (offset_param q) (limit_param h q) notifyCh
         WakeNotify env2 w' = None ∧
       ∃ rw, GetUpdates_wake h channelID (offset_param q) (limit_param h q) notifyCh
               WakeDone env2 w' =
             Some ({| status := StatusOK; body := BodyEvents [] |}, rw)) ∧
    (∀ env2, ∃ w2,
       GetUpdates_wake h channelID (offset_param q) (limit_param h q) notifyCh
         WakeDone env2 w1 =
       Some ({| status := StatusOK; body := BodyEvents [] |}, Ok w2) ∧
       handlers (subscriber w2) = handlers (subscriber w)).
Proof.
  intros Hwf%reachable_wf Htok Hval Hget.
  exists (Subscribe channelID (subscriber w)).1,
         {| subscriber := (Subscribe channelID (subscriber w)).2; upstreamPool := p1 |}.
  split_and!.
  - unfold Http.GetUpdates_enter.
    rewrite bool_decide_eq_false_2 by done. rewrite Hval, Hget. simpl. done.
  - rewrite Subscribe_eq. simpl. rewrite lookup_app_r, Nat.sub_diag by done. done.
  - intros env2 w' Hempty. split; [|eauto].
    simpl. unfold chan_recv.
    simpl in Hempty.
    destruct (chans (subscriber w') !! length (chans (subscriber w)))
      as [k|] eqn:Hk.
    + destruct (Hempty k eq_refl) as [Hb Hc]. rewrite Hb, Hc. done.
    + done.
  - intros env2. unfold Http.GetUpdates_wake.
    cbn [subscriber upstreamPool].
    destruct (Unsubscribe_Subscribe channelID (subscriber w) Hwf) as (s' & -> & Hh & _).
    simpl. eauto.
Qed.

End WithLibs.

Lemma deadline_gives_empty_success_witness :
  run_ops json_a [] NewSubscriber = Ok (subscriber world_1) ∧
  Query query_t "token" ≠ "" ∧
  validate_t (Query query_t "token") = Some "a" ∧
  Core.GetEvents (λ x, x) decode_ok env_none "a"
    (offset_param parse_none query_t) (limit_param parse_none handlers_1 query_t)
    (upstreamPool world_1)
    = Some (Core.RetEvents [],
            Core.issue pool_1 (Core.request_of (λ x, x) pool_1 "a" 0 100)) ∧
  ∃ notifyCh w1,
    GetUpdates_enter (λ x, x) decode_ok validate_t parse_none parse_none
      handlers_1 query_t env_none world_1 =
      Some (Waiting "a" (offset_param parse_none query_t)
              (limit_param parse_none handlers_1 query_t) notifyCh, w1) ∧
    chans (subscriber w1) !! notifyCh = Some {| buf := []; cap := 10; closed := false |} ∧
    (∀ env2 w',
       (∀ k, chans (subscriber w') !! notifyCh = Some k → buf k = [] ∧ closed k = false) →
       GetUpdates_wake (λ x, x) decode_ok handlers_1 "a" (offset_param parse_none query_t)
         (limit_param parse_none handlers_1 query_t) notifyCh WakeNotify env2 w' = None ∧
       ∃ rw, GetUpdates_wake (λ x, x) decode_ok handlers_1 "a"
               (offset_param parse_none query_t)
               (limit_param parse_none handlers_1 query_t) notifyCh WakeDone env2 w' =
             Some ({| status := StatusOK; body := BodyEvents [] |}, rw)) ∧
    (∀ env2, ∃ w2,
       GetUpdates_wake (λ x, x) decode_ok handlers_1 "a" (offset_param parse_none query_t)
         (limit_param parse_none handlers_1 query_t) notifyCh WakeDone env2 w1 =
       Some ({| status := StatusOK; body := BodyEvents [] |}, Ok w2) ∧
       handlers (subscriber w2) = handlers (subscriber world_1)).
Proof.
  split; [reflexivity|]. split; [done|]. split; [reflexivity|]. split; [reflexivity|].
  apply (deadline_gives_empty_success (λ x, x) decode_ok validate_t parse_none
           parse_none json_a [] handlers_1 query_t env_none world_1 "a"
           (Core.issue pool_1 (Core.request_of (λ x, x) pool_1 "a" 0 100))); done.
Defined.

Lemma immediate_events_skip_subscribe_witness :
  Query query_t "token" ≠ "" ∧
  validate_t (Query query_t "token") = Some "a" ∧
  Core.GetEvents (λ x, x) decode_ok env_ok "a"
    (offset_param parse_none query_t) (limit_param parse_none handlers_1 query_t)
    (upstreamPool world_1)
    = Some (Core.RetEvents [ev_5],
            Core.issue pool_1 (Core.request_of (λ x, x) pool_1 "a" 0 100)) ∧
  [ev_5] ≠ [] ∧
  GetUpdates_enter (λ x, x) decode_ok validate_t parse_none parse_none
    handlers_1 query_t env_ok world_1 =
  Some (Responded {| status := StatusOK; body := BodyEvents [ev_5] |},
        {| subscriber := subscriber world_1;
           upstreamPool := Core.issue pool_1 (Core.request_of (λ x, x) pool_1 "a" 0 100) |}).
Proof.
  split; [done|]. split; [reflexivity|]. split; [reflexivity|]. split; [done|].
  apply (immediate_events_skip_subscribe (λ x, x) decode_ok validate_t parse_none
           parse_none handlers_1 query_t env_ok world_1 "a" [ev_5]); done.
Defined.

End HttpFacts.

(** * Facts about the reconnect goroutine *)
Module MainFacts.
Import Redis Spec Main.

Section WithJSON.
Variable json_Unmarshal : string → option EventNotification.

#[local] Abbreviation supervise := (supervise json_Unmarshal).
#[local] Abbreviation supervisor := (supervisor json_Unmarshal).
#[local] Abbreviation Start := (Start json_Unmarshal).

Lemma wrap64_small (z : Z) :
  (- 2 ^ 63 ≤ z < 2 ^ 63)%Z → wrap64 z = z.
Proof.
  intros Hz. unfold wrap64.
  rewrite Z.mod_small; lia.
Qed.

Lemma error_eqb_Canceled e :
  error_eqb e context_Canceled = true ↔ e = context_Canceled.
Proof. destruct e; simpl; split; done. Qed.

(** One failed attempt: sleep the current interval, then double it up
    to the ceiling. *)
Lemma supervise_failed conn rest b s s1 e :
  (time_Second ≤ b ≤ time_Minute)%Z →
  Start conn s = Ok (Returned (Some e), s1) →
  e ≠ context_Canceled →
  supervise (conn :: rest) b s =
  SupStart (Returned (Some e)) :: SupSleep b ::
  supervise rest (Z.min (2 * b) time_Minute) s1.
Proof.
  intros Hb Hst He. simpl. rewrite Hst.
  destruct (error_eqb e context_Canceled) eqn:Heq.
  { by apply error_eqb_Canceled in Heq. }
  simpl. do 3 f_equal.
  rewrite wrap64_small.
  - unfold maxBackoff. destruct (Z.gtb_spec (b * 2) time_Minute); lia.
  - unfold time_Minute, time_Second in *. lia.
Qed.

Lemma backoff_after_0 : backoff_after 0 = time_Second.
Proof. reflexivity. Qed.

Lemma backoff_after_S i :
  backoff_after (S i) = Z.min (2 * backoff_after i) time_Minute.
Proof.
  unfold backoff_after. rewrite Nat2Z.inj_succ, Z.pow_succ_r by lia.
  unfold time_Minute, time_Second. lia.
Qed.

Lemma backoff_after_range i :
  (time_Second ≤ backoff_after i ≤ time_Minute)%Z.
Proof.
  unfold backoff_after.
  assert (1 ≤ 2 ^ Z.of_nat i)%Z by (apply Z.pow_le_mono_r with (b := 0%Z); lia).
  unfold time_Minute, time_Second. lia.
Qed.

Lemma supervise_failed_run e items k rest s i :
  e ≠ context_Canceled →
  supervise (replicate k {| confirm := Some e; feed := items |} ++ rest)
            (backoff_after i) s =
  flat_map (λ j, [SupStart (Returned (Some e)); SupSleep (backoff_after j)]) (seq i k)
  ++ supervise rest (backoff_after (i + k)) s.
Proof.
  intros He. revert i. induction k as [|k IH]; intros i.
  - simpl. by rewrite Nat.add_0_r.
  - cbn [replicate app].
    rewrite (supervise_failed {| confirm := Some e; feed := items |} _ _ s s e
               (backoff_after_range i) eq_refl He).
    rewrite <- backoff_after_S, (IH (S i)). simpl.
    by rewrite Nat.add_succ_r.
Qed.

(** C2, as the code has it. A [Start] that fails with an error other
    than [context.Canceled] is followed by a sleep of the current
    interval, which then doubles up to one minute: [k] failures in a row
    from a fresh goroutine sleep [min(2^i s, 60 s)] for [i = 0 .. k-1].
    A [Start] that returns nil (the stream ended) is followed by no
    sleep: the interval is reset to one second and the next [Start]
    comes at once. A [Start] that returns [context.Canceled] ends the
    goroutine, whatever connections might still be had. *)
Theorem supervisor_backoff e :
  e ≠ context_Canceled →
  (∀ items k rest s,
     supervisor (replicate k {| confirm := Some e; feed := items |} ++ rest) s =
     failed_attempts e k ++ supervise rest (backoff_after k) s) ∧
  (∀ conn rest b s s1,
     (time_Second ≤ b ≤ time_Minute)%Z →
     Start conn s = Ok (Returned (Some e), s1) →
     supervise (conn :: rest) b s =
     SupStart (Returned (Some e)) :: SupSleep b ::
     supervise rest (Z.min (2 * b) time_Minute) s1) ∧
  (∀ conn rest b s s1,
     Start conn s = Ok (Returned None, s1) →
     supervise (conn :: rest) b s =
     SupStart (Returned None) :: supervise rest time_Second s1) ∧
  (∀ conn rest b s s1,
     Start conn s = Ok (Returned (Some context_Canceled), s1) →
     supervise (conn :: rest) b s =
     [SupStart (Returned (Some context_Canceled)); SupReturn]).
Proof.
  intros He. split_and!.
  - intros items k rest s. unfold Main.supervisor, failed_attempts.
    rewrite <- backoff_after_0. apply (supervise_failed_run e items k rest s 0 He).
  - intros conn rest b s s1 Hb Hst. by apply supervise_failed.
  - intros conn rest b s s1 Hst. simpl. by rewrite Hst.
  - intros conn rest b s s1 Hst. simpl. by rewrite Hst.
Qed.

End WithJSON.

Lemma supervisor_backoff_witness :
  errorf "dial tcp: connection refused" ≠ context_Canceled ∧
  (∀ items k rest s,
     supervisor json_a
       (replicate k {| confirm := Some (errorf "dial tcp: connection refused");
                       feed := items |} ++ rest) s =
     failed_attempts (errorf "dial tcp: connection refused") k ++
     supervise json_a rest (backoff_after k) s) ∧
  (∀ conn rest b s s1,
     (time_Second ≤ b ≤ time_Minute)%Z →
     Start json_a conn s = Ok (Returned (Some (errorf "dial tcp: connection refused")), s1) →
     supervise json_a (conn :: rest) b s =
     SupStart (Returned (Some (errorf "dial tcp: connection refused"))) :: SupSleep b ::
     supervise json_a rest (Z.min (2 * b) time_Minute) s1) ∧
  (∀ conn rest b s s1,
     Start json_a conn s = Ok (Returned None, s1) →
     supervise json_a (conn :: rest) b s =
     SupStart (Returned None) :: supervise json_a rest time_Second s1) ∧
  (∀ conn rest b s s1,
     Start json_a conn s = Ok (Returned (Some context_Canceled), s1) →
     supervise json_a (conn :: rest) b s =
     [SupStart (Returned (Some context_Canceled)); SupReturn]).
Proof.
  split; [done|].
  apply (supervisor_backoff json_a (errorf "dial tcp: connection refused")). done.
Defined.

(** Eight refused connections in a row: the sleeps are 1, 2, 4, 8, 16,
    32, 60 and 60 seconds. *)
Example backoff_schedule :
  supervisor json_a (replicate 8 conn_refused) NewSubscriber =
  flat_map (λ d, [SupStart (Returned (Some (errorf "dial tcp: connection refused")));
                  SupSleep (d * time_Second)])
           [1; 2; 4; 8; 16; 32; 60; 60]%Z.
Proof. vm_compute. reflexivity. Qed.

(** C2, as stated, fails: the connection is lost after one
    notification, [Start] returns nil, and the next [Start] follows with
    no sleep between the two. *)
Lemma disconnect_is_not_followed_by_sleep :
  supervisor json_a [conn_lost; conn_stopped] NewSubscriber =
    [ SupStart (Returned None);
      SupStart (Returned (Some context_Canceled));
      SupReturn ] ∧
  ¬ waits_after_disconnect (supervisor json_a [conn_lost; conn_stopped] NewSubscriber).
Proof.
  split; [reflexivity|].
  intros H. apply (H [] [SupReturn] (Returned (Some context_Canceled))). reflexivity.
Qed.

End MainFacts.

(** * More about the registry *)
Module RedisMore.
Import Redis Spec RedisFacts.

Lemma filter_ne_notin (hs : list chan_id) ch :
  ch ∉ hs → filter (λ x, x ≠ ch) hs = hs.
Proof.
  induction hs as [|h hs IH]; intros Hn; [done|].
  rewrite filter_cons_True.
  - f_equal. apply IH. intros ?. apply Hn. apply elem_of_cons. by right.
  - intros ->. apply Hn. apply elem_of_cons. by left.
Qed.

Lemma NoDup_delete_filter (hs : list chan_id) i ch :
  NoDup hs → hs !! i = Some ch →
  delete i hs = filter (λ x, x ≠ ch) hs.
Proof.
  revert i. induction hs as [|h hs IH]; intros i Hnd Hi; [done|].
  apply NoDup_cons in Hnd as [Hh Hnd].
  destruct i as [|i]; simpl in *.
  - injection Hi as ->. rewrite filter_cons_False by (intros ?; done).
    by rewrite filter_ne_notin.
  - rewrite filter_cons_True.
    + f_equal. by apply IH.
    + intros ->. apply Hh. apply list_elem_of_lookup. eauto.
Qed.

Lemma after_send_bounded v k :
  length (buf k) ≤ cap k → length (buf (after_send v k)) ≤ cap (after_send v k).
Proof.
  unfold after_send. case_bool_decide; simpl; [|done].
  rewrite length_app. simpl. lia.
Qed.

Section WithJSON.
Variable json_Unmarshal : string → option EventNotification.

#[local] Abbreviation handleMessage := (handleMessage json_Unmarshal).
#[local] Abbreviation apply_op := (apply_op json_Unmarshal).
#[local] Abbreviation run_ops := (run_ops json_Unmarshal).
#[local] Abbreviation Start_loop := (Start_loop json_Unmarshal).
#[local] Abbreviation Start := (Start json_Unmarshal).

Lemma bounded_apply_op o s s' :
  wf s → queues_bounded s → apply_op o s = Ok s' → queues_bounded s'.
Proof.
  intros Hwf Hb. destruct o as [c|c ch|payload|ch]; cbn [Redis.apply_op].
  - rewrite Subscribe_eq. intros [= <-] ch k. simpl.
    intros [Hk|[_ Hk]]%lookup_app_Some; [by apply (Hb ch)|].
    apply list_lookup_singleton_Some in Hk as [_ <-]. simpl. lia.
  - destruct (decide (ch ∈ handlers_at s c)) as [Hin|Hn].
    + destruct (Unsubscribe_present s c ch Hwf Hin)
        as (i & hs & k & Hc & Hi & Hk & _ & ->).
      intros [= <-] ch' k'. simpl.
      assert (ch < length (chans s)) as Hlt by by eapply lookup_lt_Some.
      destruct (decide (ch = ch')) as [<-|Hne].
      * rewrite list_lookup_insert_eq by done. intros [= <-]. simpl. by apply (Hb ch).
      * rewrite list_lookup_insert_ne by done. apply Hb.
    + rewrite (Unsubscribe_absent s c ch Hwf Hn). by intros [= <-].
  - destruct (json_Unmarshal payload) as [n|] eqn:Hn.
    + destruct (handleMessage_spec json_Unmarshal s payload n Hwf Hn)
        as (s1 & -> & _ & _ & _ & Hin & Hout).
      intros [= <-] ch k.
      destruct (decide (ch ∈ handlers_at s (ChannelID n))) as [Hch|Hch].
      * rewrite (Hin ch Hch). destruct (chans s !! ch) as [k0|] eqn:Hk0; [|done].
        simpl. intros [= <-]. apply after_send_bounded. by apply (Hb ch).
      * rewrite (Hout ch Hch). apply Hb.
    + unfold Redis.handleMessage. rewrite Hn. by intros [= <-].
  - unfold chan_recv. destruct (chans s !! ch) as [k|] eqn:Hk; [|by intros [= <-]].
    assert (ch < length (chans s)) as Hlt by by eapply lookup_lt_Some.
    destruct (buf k) as [|v rest] eqn:Hbuf.
    + destruct (closed k); by intros [= <-].
    + intros [= <-] ch' k'. simpl.
      destruct (decide (ch = ch')) as [<-|Hne].
      * rewrite list_lookup_insert_eq by done. intros [= <-]. simpl.
        specialize (Hb ch k Hk). rewrite Hbuf in Hb. simpl in Hb. lia.
      * rewrite list_lookup_insert_ne by done. apply Hb.
Qed.

Lemma bounded_run_ops ops s s' :
  wf s → queues_bounded s → run_ops ops s = Ok s' → queues_bounded s'.
Proof.
  revert s. induction ops as [|o ops IH]; intros s Hwf Hb; simpl.
  - by intros [= <-].
  - destruct (wf_apply_op json_Unmarshal o s Hwf) as (s1 & Hs1 & Hwf1).
    rewrite Hs1. simpl. apply IH; [done|].
    exact (bounded_apply_op o s s1 Hwf Hb Hs1).
Qed.

(** X1. No sequence of [Subscribe], [Unsubscribe], [handleMessage] calls
    and receives on a new subscriber panics: no channel is closed twice
    and no send reaches a closed channel. *)
Theorem calls_never_panic ops :
  ∃ s, run_ops ops NewSubscriber = Ok s.
Proof.
  destruct (wf_run_ops json_Unmarshal ops NewSubscriber wf_NewSubscriber) as (s & Hs & _).
  by exists s.
Qed.

(** X2. In every state a subscriber can reach: no key of the map holds
    an empty slice; no channel occurs twice in a slice nor under two keys;
    every registered channel is open; and a channel that has been closed
    is registered nowhere. *)
Theorem registry_invariant ops s :
  run_ops ops NewSubscriber = Ok s →
  (∀ c, handlers s !! c ≠ Some []) ∧
  (∀ c, NoDup (handlers_at s c)) ∧
  (∀ c c' ch, ch ∈ handlers_at s c → ch ∈ handlers_at s c' → c = c') ∧
  (∀ c ch, ch ∈ handlers_at s c →
           ∃ k, chans s !! ch = Some k ∧ closed k = false) ∧
  (∀ c ch, EvClose ch ∈ events s → ch ∉ handlers_at s c).
Proof.
  intros Hwf%reachable_wf. split_and!.
  - intros c Hc. by apply (wf_nonempty s Hwf) in Hc.
  - intros c. unfold handlers_at.
    destruct (handlers s !! c) as [hs|] eqn:Hc; simpl.
    + by apply (wf_nodup s Hwf c).
    + constructor.
  - intros c c' ch (hs & Hc & Hin)%handlers_at_elem (hs' & Hc' & Hin')%handlers_at_elem.
    by apply (wf_disjoint s Hwf c c' hs hs' ch).
  - intros c ch Hin. apply registered_open; [done|]. by exists c.
  - intros c ch Hcl Hin.
    destruct (wf_closed s Hwf ch Hcl) as (k & Hk & Hc).
    destruct (registered_open s ch Hwf) as (k' & Hk' & Ho); [by exists c|].
    simplify_eq. congruence.
Qed.

(** X3. In every state a subscriber can reach, every channel has
    capacity 10 and holds at most 10 pending notifications. *)
Theorem queues_hold_at_most_ten ops s ch k :
  run_ops ops NewSubscriber = Ok s →
  chans s !! ch = Some k →
  cap k = 10 ∧ length (buf k) ≤ 10.
Proof.
  intros Hrun Hk.
  pose proof (reachable_wf json_Unmarshal ops s Hrun) as Hwf.
  assert (queues_bounded s) as Hb.
  { eapply (bounded_run_ops ops NewSubscriber); [apply wf_NewSubscriber| |done].
    intros ch' k'. done. }
  pose proof (wf_cap s Hwf ch k Hk) as Hcap.
  split; [done|]. rewrite <- Hcap. by apply (Hb ch).
Qed.

End WithJSON.

Lemma registry_invariant_witness :
  run_ops json_a ops_ab NewSubscriber = Ok state_ab ∧
  (∀ c, handlers state_ab !! c ≠ Some []) ∧
  (∀ c, NoDup (handlers_at state_ab c)) ∧
  (∀ c c' ch, ch ∈ handlers_at state_ab c → ch ∈ handlers_at state_ab c' → c = c') ∧
  (∀ c ch, ch ∈ handlers_at state_ab c →
           ∃ k, chans state_ab !! ch = Some k ∧ closed k = false) ∧
  (∀ c ch, EvClose ch ∈ events state_ab → ch ∉ handlers_at state_ab c).
Proof.
  split; [reflexivity|].
  apply (registry_invariant json_a ops_ab state_ab). reflexivity.
Defined.

Lemma queues_hold_at_most_ten_witness :
  run_ops json_a ops_full NewSubscriber = Ok state_full ∧
  chans state_full !! 0 = Some {| buf := replicate 10 note_a; cap := 10; closed := false |} ∧
  cap {| buf := replicate 10 note_a; cap := 10; closed := false |} = 10 ∧
  length (buf {| buf := replicate 10 note_a; cap := 10; closed := false |}) ≤ 10.
Proof.
  split; [reflexivity|]. split; [reflexivity|].
  apply (queues_hold_at_most_ten json_a ops_full state_full 0); reflexivity.
Defined.

Lemma run_ops_app json (ops1 ops2 : list op) s :
  run_ops json (ops1 ++ ops2) s = (s1 ← run_ops json ops1 s; run_ops json ops2 s1).
Proof.
  revert s. induction ops1 as [|o ops1 IH]; intros s; simpl; [done|].
  destruct (apply_op json o s) as [s1|m]; simpl; [apply IH|done].
Qed.

(** [k] calls of [Subscribe(c)] in a row append [k] new channels to the
    slice of [c] and [k] empty cells to the heap. *)
Lemma run_subscribes json k c s :
  ∃ s', run_ops json (replicate k (OpSubscribe c)) s = Ok s' ∧
        handlers_at s' c = handlers_at s c ++ seq (length (chans s)) k ∧
        chans s' = chans s ++ replicate k {| buf := []; cap := 10; closed := false |}.
Proof.
  revert s. induction k as [|k IH]; intros s.
  - exists s. simpl. by rewrite !app_nil_r.
  - cbn [replicate Redis.run_ops Redis.apply_op]. rewrite Subscribe_eq. simpl.
    edestruct IH as (s' & -> & Hh & Hc). exists s'. split; [done|].
    rewrite Hh, Hc. unfold handlers_at at 1. simpl. rewrite lookup_insert_eq. simpl.
    rewrite length_app, <- !app_assoc. simpl.
    by rewrite Nat.add_1_r.
Qed.

Section Effects.
Variable json_Unmarshal : string → option EventNotification.

#[local] Abbreviation handleMessage := (handleMessage json_Unmarshal).
#[local] Abbreviation run_ops := (run_ops json_Unmarshal).
#[local] Abbreviation Start_loop := (Start_loop json_Unmarshal).

(** X4. On a state the subscriber can reach, [Subscribe(c)] returns a
    channel that had no cell and was registered nowhere; afterwards the
    channel is empty, open, of capacity 10 and last in the slice of [c],
    and every other slice and every existing cell is as before. *)
Theorem Subscribe_returns_fresh_channel ops s c :
  run_ops ops NewSubscriber = Ok s →
  let ch := (Subscribe c s).1 in
  let s' := (Subscribe c s).2 in
  (∀ c', ch ∉ handlers_at s c') ∧
  chans s !! ch = None ∧
  chans s' !! ch = Some {| buf := []; cap := 10; closed := false |} ∧
  handlers_at s' c = handlers_at s c ++ [ch] ∧
  (∀ c', c' ≠ c → handlers s' !! c' = handlers s !! c') ∧
  (∀ ch' k, chans s !! ch' = Some k → chans s' !! ch' = Some k).
Proof.
  intros Hwf%reachable_wf. rewrite Subscribe_eq. simpl. split_and!.
  - intros c' Hin. assert (registered s (length (chans s))) as Hr by by exists c'.
    pose proof (wf_registered_lt s _ Hwf Hr). lia.
  - by apply lookup_ge_None_2.
  - rewrite lookup_app_r, Nat.sub_diag by done. done.
  - unfold handlers_at at 1. simpl. by rewrite lookup_insert_eq.
  - intros c' Hne. by rewrite lookup_insert_ne.
  - intros ch' k Hk. by apply lookup_app_l_Some.
Qed.

(** X5. On a state the subscriber can reach, [Unsubscribe(c, ch)] of a
    channel registered under [c] removes exactly [ch] from the slice of
    [c], keeping the others in order; it deletes the key [c] exactly when
    [ch] was its only registration; it leaves every other key alone,
    closes [ch] keeping what its buffer holds, and touches no other
    cell. *)
Theorem Unsubscribe_removes_exactly_one ops s c ch :
  run_ops ops NewSubscriber = Ok s →
  ch ∈ handlers_at s c →
  ∃ s' k, Unsubscribe c ch s = Ok s' ∧
    handlers_at s' c = filter (λ x, x ≠ ch) (handlers_at s c) ∧
    (handlers s' !! c = None ↔ handlers_at s c = [ch]) ∧
    (∀ c', c' ≠ c → handlers s' !! c' = handlers s !! c') ∧
    chans s !! ch = Some k ∧
    chans s' !! ch = Some {| buf := buf k; cap := cap k; closed := true |} ∧
    (∀ ch', ch' ≠ ch → chans s' !! ch' = chans s !! ch') ∧
    events s' = events s ++ [EvClose ch].
Proof.
  intros Hwf%reachable_wf Hin.
  destruct (Unsubscribe_present s c ch Hwf Hin) as (i & hs & k & Hc & Hi & Hk & _ & ->).
  pose proof (wf_nodup s Hwf c hs Hc) as Hnd.
  assert (ch < length (chans s)) as Hlt by by eapply lookup_lt_Some.
  exists (removed_state s c ch i hs k), k.
  rewrite (handlers_at_Some _ _ _ Hc).
  rewrite <- (NoDup_delete_filter hs i ch Hnd Hi).
  unfold removed_state, handlers_at. simpl.
  split_and!; try done.
  - case_bool_decide as Hnil.
    + rewrite lookup_delete_eq. by rewrite Hnil.
    + by rewrite lookup_insert_eq.
  - case_bool_decide as Hnil.
    + rewrite lookup_delete_eq. split; [intros _|done].
      assert (length hs = 1) as Hlen.
      { pose proof (length_delete hs i (mk_is_Some _ _ Hi)) as Hl.
        rewrite Hnil in Hl. simpl in Hl.
        assert (i < length hs) by by eapply lookup_lt_Some. lia. }
      destruct hs as [|h [|h' hs]]; simpl in Hlen; try lia.
      destruct i; simpl in Hi; [by injection Hi as ->|done].
    + rewrite lookup_insert_eq. split; [done|]. intros ->.
      destruct i; simpl in *; [done|done].
  - intros c' Hne. case_bool_decide.
    + by rewrite lookup_delete_ne.
    + by rewrite lookup_insert_ne.
  - by rewrite list_lookup_insert_eq.
  - intros ch' Hne. by rewrite list_lookup_insert_ne.
Qed.

(** X6. On a state the subscriber can reach, [k] listeners subscribe to
    one channel and one notification for it is then delivered: the call
    returns, and each of the [k] new queues holds exactly that one
    notification. *)
Theorem every_listener_gets_one ops s k payload n :
  run_ops ops NewSubscriber = Ok s →
  json_Unmarshal payload = Some n →
  ∃ s', run_ops (replicate k (OpSubscribe (ChannelID n)) ++ [OpHandleMessage payload]) s
          = Ok s' ∧
        ∀ j, j < k →
          (length (chans s) + j) ∈ handlers_at s' (ChannelID n) ∧
          chans s' !! (length (chans s) + j)
            = Some {| buf := [n]; cap := 10; closed := false |}.
Proof.
  intros Hwf%reachable_wf Hn.
  destruct (run_subscribes json_Unmarshal k (ChannelID n) s) as (s1 & Hs1 & Hh & Hc).
  assert (wf s1) as Hwf1.
  { destruct (wf_run_ops json_Unmarshal (replicate k (OpSubscribe (ChannelID n))) s Hwf)
      as (s1' & Hs1' & Hwf1). rewrite Hs1 in Hs1'. by injection Hs1' as <-. }
  destruct (handleMessage_spec json_Unmarshal s1 payload n Hwf1 Hn)
    as (s' & Hs' & _ & Hh' & _ & Hin & _).
  exists s'. split.
  - rewrite run_ops_app, Hs1. simpl. by rewrite Hs'.
  - intros j Hj.
    assert (length (chans s) + j ∈ handlers_at s1 (ChannelID n)) as Hreg.
    { rewrite Hh. apply elem_of_app. right. apply list_elem_of_In, in_seq. lia. }
    split.
    + unfold handlers_at in *. by rewrite Hh'.
    + rewrite (Hin _ Hreg), Hc.
      rewrite lookup_app_r by lia.
      replace (length (chans s) + j - length (chans s)) with j by lia.
      rewrite lookup_replicate_2 by done. done.
Qed.

(** X7. The loop of [Start] passes over nil messages and payloads that
    do not parse: dropping them from the stream changes neither what the
    loop returns nor the state it leaves. *)
Theorem feed_loop_skips_bad_messages items s :
  Start_loop (filter (λ it, passed_over json_Unmarshal it = false) items) s
  = Start_loop items s.
Proof.
  revert s. induction items as [|it items IH]; intros s; [done|].
  destruct it as [| | |payload].
  - by rewrite filter_cons_True.
  - by rewrite filter_cons_True.
  - rewrite filter_cons_False by done. simpl. apply IH.
  - destruct (json_Unmarshal payload) as [n|] eqn:Hn.
    + rewrite filter_cons_True by (simpl; by rewrite Hn).
      cbn [Redis.Start_loop].
      destruct (Redis.handleMessage json_Unmarshal payload s); simpl; [apply IH|done].
    + rewrite filter_cons_False by (simpl; by rewrite Hn).
      cbn [Redis.Start_loop]. unfold Redis.handleMessage. rewrite Hn. simpl. apply IH.
Qed.

(** X8. The loop of [Start] hands to [handleMessage], in order, the
    payloads that arrive before the first [ctx.Done()] or closed stream,
    and nothing that comes later; it returns [context.Canceled] on
    [ctx.Done()], nil on a closed stream, and stays suspended when the
    stream has nothing more. From a state the subscriber can reach it
    does so without a panic. *)
Theorem feed_loop_handles_until_end ops items s :
  run_ops ops NewSubscriber = Ok s →
  Start_loop items s
    = (s' ← run_ops (map OpHandleMessage (handled_payloads items)) s;
       Ok (loop_end items, s')) ∧
  ∃ s', Start_loop items s = Ok (loop_end items, s').
Proof.
  intros Hwf%reachable_wf.
  assert (∀ s0, Start_loop items s0
            = (s' ← run_ops (map OpHandleMessage (handled_payloads items)) s0;
               Ok (loop_end items, s'))) as Heq.
  { induction items as [|[| | |payload] items IH]; intros s0; simpl; try done.
    destruct (Redis.handleMessage json_Unmarshal payload s0); simpl; [apply IH|done]. }
  split; [apply Heq|].
  destruct (wf_run_ops json_Unmarshal (map OpHandleMessage (handled_payloads items)) s Hwf)
    as (s' & Hs' & _).
  exists s'. by rewrite Heq, Hs'.
Qed.

End Effects.

Lemma Subscribe_returns_fresh_channel_witness :
  run_ops json_a ops_ab NewSubscriber = Ok state_ab ∧
  let ch := (Subscribe "a" state_ab).1 in
  let s' := (Subscribe "a" state_ab).2 in
  (∀ c', ch ∉ handlers_at state_ab c') ∧
  chans state_ab !! ch = None ∧
  chans s' !! ch = Some {| buf := []; cap := 10; closed := false |} ∧
  handlers_at s' "a" = handlers_at state_ab "a" ++ [ch] ∧
  (∀ c', c' ≠ "a" → handlers s' !! c' = handlers state_ab !! c') ∧
  (∀ ch' k, chans state_ab !! ch' = Some k → chans s' !! ch' = Some k).
Proof.
  split; [reflexivity|].
  apply (Subscribe_returns_fresh_channel json_a ops_ab state_ab "a"). reflexivity.
Defined.

Lemma Unsubscribe_removes_exactly_one_witness :
  run_ops json_a ops_full NewSubscriber = Ok state_full ∧
  0 ∈ handlers_at state_full "a" ∧
  ∃ s' k, Unsubscribe "a" 0 state_full = Ok s' ∧
    handlers_at s' "a" = filter (λ x, x ≠ 0) (handlers_at state_full "a") ∧
    (handlers s' !! "a" = None ↔ handlers_at state_full "a" = [0]) ∧
    (∀ c', c' ≠ "a" → handlers s' !! c' = handlers state_full !! c') ∧
    chans state_full !! 0 = Some k ∧
    chans s' !! 0 = Some {| buf := buf k; cap := cap k; closed := true |} ∧
    (∀ ch', ch' ≠ 0 → chans s' !! ch' = chans state_full !! ch') ∧
    events s' = events state_full ++ [EvClose 0].
Proof.
  split; [reflexivity|].
  assert (0 ∈ handlers_at state_full "a") as Hin.
  { apply elem_of_cons. by left. }
  split; [exact Hin|].
  apply (Unsubscribe_removes_exactly_one json_a ops_full state_full "a" 0);
    [reflexivity|exact Hin].
Defined.

Lemma every_listener_gets_one_witness :
  run_ops json_a ops_ab NewSubscriber = Ok state_ab ∧
  json_a "a" = Some note_a ∧
  ∃ s', run_ops json_a (replicate 3 (OpSubscribe (ChannelID note_a)) ++ [OpHandleMessage "a"])
          state_ab = Ok s' ∧
        ∀ j, j < 3 →
          (length (chans state_ab) + j) ∈ handlers_at s' (ChannelID note_a) ∧
          chans s' !! (length (chans state_ab) + j)
            = Some {| buf := [note_a]; cap := 10; closed := false |}.
Proof.
  split; [reflexivity|]. split; [reflexivity|].
  apply (every_listener_gets_one json_a ops_ab state_ab 3 "a" note_a); reflexivity.
Defined.

Lemma feed_loop_handles_until_end_witness :
  run_ops json_a ops_ab NewSubscriber = Ok state_ab ∧
  Start_loop json_a (feed conn_lost) state_ab
    = (s' ← run_ops json_a (map OpHandleMessage (handled_payloads (feed conn_lost))) state_ab;
       Ok (loop_end (feed conn_lost), s')) ∧
  ∃ s', Start_loop json_a (feed conn_lost) state_ab = Ok (loop_end (feed conn_lost), s').
Proof.
  split; [reflexivity|].
  apply (feed_loop_handles_until_end json_a ops_ab (feed conn_lost) state_ab). reflexivity.
Defined.

End RedisMore.

(** * More about the goroutine machine *)
Module SysMore.
Import Redis Spec RedisFacts SysFacts.

Lemma countb_pos_inv {A} (f : A → bool) (l : list A) :
  0 < countb f l → ∃ g p, l !! g = Some p ∧ f p = true.
Proof.
  induction l as [|x l IH]; simpl; [lia|].
  destruct (f x) eqn:Hx; simpl.
  - intros _. by exists 0, x.
  - intros Hpos. destruct (IH Hpos) as (g & p & Hg & Hp). by exists (S g), p.
Qed.

Lemma countb_all_idle (f : pc → bool) (l : list pc) :
  f Idle = false → Forall (λ p, p = Idle) l → countb f l = 0.
Proof.
  intros Hf. induction 1 as [|p l -> _ IH]; simpl; [done|]. by rewrite Hf, IH.
Qed.

Section WithJSON.
Variable json_Unmarshal : string → option EventNotification.

#[local] Abbreviation run := (run json_Unmarshal).
#[local] Abbreviation step := (step json_Unmarshal).

(** X9. Whatever the interleaving, the counters of [mu] tell exactly who
    holds it: [readers] is the number of sweeps inside their range loop,
    at most one goroutine is inside [Subscribe] or [Unsubscribe] and then
    no sweep is inside its loop; and once every call has returned the
    lock is free, so no path forgets its unlock. *)
Theorem lock_is_never_leaked k sched y :
  run sched (init k) = Some (Ok y) →
  readers y = countb holds_read (goroutines y) ∧
  b2n (writer y) = countb holds_write (goroutines y) ∧
  (writer y = true → readers y = 0) ∧
  (Forall (λ p, p = Idle) (goroutines y) → readers y = 0 ∧ writer y = false).
Proof.
  intros Hrun.
  destruct (run_inv json_Unmarshal sched (init k) _ (sys_inv_init k) Hrun)
    as (y' & [= <-] & Hinv).
  pose proof (inv_readers y Hinv) as Hr.
  pose proof (inv_writer y Hinv) as Hw.
  split_and!; try done.
  - apply Hinv.
  - intros Hidle.
    rewrite (countb_all_idle holds_read _ eq_refl Hidle) in Hr.
    rewrite (countb_all_idle holds_write _ eq_refl Hidle) in Hw.
    split; [done|]. by destruct (writer y).
Qed.

(** X10. The lock discipline cannot deadlock: whatever the interleaving
    so far, if some goroutine is inside a call then some goroutine can
    execute its next instruction, and that instruction does not panic. *)
Theorem some_goroutine_can_move k sched y g p :
  run sched (init k) = Some (Ok y) →
  goroutines y !! g = Some p → p ≠ Idle →
  ∃ g' y', step (Next g') y = Some (Ok y').
Proof.
  intros Hrun Hg Hp.
  destruct (run_inv json_Unmarshal sched (init k) _ (sys_inv_init k) Hrun)
    as (y' & [= <-] & Hinv).
  pose proof (inv_readers y Hinv) as Hr.
  pose proof (inv_writer y Hinv) as Hw.
  assert (∀ g' p' r, goroutines y !! g' = Some p' →
            next_step g' p' y = Some r → ∃ g'' y', step (Next g'') y = Some (Ok y')) as Hmove.
  { intros g' p' r Hg' Hs.
    destruct (next_step_inv y g' p' r Hinv Hg' Hs) as (y' & -> & _).
    exists g', y'. simpl. by rewrite Hg'. }
  destruct (writer y) eqn:Hwr.
  - (* a goroutine holds the write lock *)
    destruct (countb_pos_inv holds_write (goroutines y)) as (g' & p' & Hg' & Hp');
      [simpl in Hw; lia|].
    destruct p' as [| | | |c|c ch| |c ch|c ch b]; try done.
    + by eapply (Hmove g' _ _ Hg').
    + by eapply (Hmove g' _ _ Hg').
    + by eapply (Hmove g' _ _ Hg').
    + by eapply (Hmove g' _ _ Hg').
  - destruct (readers y) as [|nr] eqn:Hrd.
    + (* the lock is free: the goroutine inside a call can take it *)
      simpl in Hw.
      pose proof (countb_zero holds_read _ g p (eq_sym Hr) Hg) as Hpr.
      pose proof (countb_zero holds_write _ g p (eq_sym Hw) Hg) as Hpw.
      destruct p as [|n| | c| | |c ch| | ]; try done.
      * eapply (Hmove g _ _ Hg). simpl. by rewrite Hwr.
      * eapply (Hmove g _ _ Hg). simpl. by rewrite Hwr, Hrd.
      * eapply (Hmove g _ _ Hg). simpl. by rewrite Hwr, Hrd.
    + (* a sweep holds the read lock *)
      destruct (countb_pos_inv holds_read (goroutines y)) as (g' & p' & Hg' & Hp');
        [lia|].
      destruct p' as [| |n rest| | | | | |]; try done.
      destruct rest as [|h rest]; by eapply (Hmove g' _ _ Hg').
Qed.

End WithJSON.

Lemma lock_is_never_leaked_witness :
  Redis.run json_a sched_race (init 2) = Some (Ok state_race) ∧
  readers state_race = countb holds_read (goroutines state_race) ∧
  b2n (writer state_race) = countb holds_write (goroutines state_race) ∧
  (writer state_race = true → readers state_race = 0) ∧
  (Forall (λ p, p = Idle) (goroutines state_race) →
   readers state_race = 0 ∧ writer state_race = false).
Proof.
  split; [reflexivity|].
  apply (lock_is_never_leaked json_a 2 sched_race state_race). reflexivity.
Defined.

Lemma some_goroutine_can_move_witness :
  Redis.run json_a (take 7 sched_race) (init 2) = Some (Ok state_waiting) ∧
  goroutines state_waiting !! 0 = Some (Un_Lock "a" 0) ∧
  Un_Lock "a" 0 ≠ Idle ∧
  ∃ g' y', Redis.step json_a (Next g') state_waiting = Some (Ok y').
Proof.
  split; [reflexivity|]. split; [reflexivity|]. split; [done|].
  apply (some_goroutine_can_move json_a 2 (take 7 sched_race) state_waiting 0
           (Un_Lock "a" 0)); [reflexivity|reflexivity|done].
Defined.

End SysMore.

(** * More about the upstream pool *)
Module CoreMore.
Import Core Spec SysFacts CoreFacts SysMore.

Section WithLibs.
Variable url_QueryEscape : string → string.
Variable json_Decode : string → option (list Event).

#[local] Abbreviation call_step := (call_step url_QueryEscape json_Decode).
#[local] Abbreviation GetEvents := (GetEvents url_QueryEscape json_Decode).
#[local] Abbreviation pool_step := (pool_step url_QueryEscape json_Decode).
#[local] Abbreviation pool_run := (pool_run url_QueryEscape json_Decode).
#[local] Abbreviation request_of := (request_of url_QueryEscape).
#[local] Abbreviation outcome_of := (outcome_of json_Decode).

Lemma outcome_of_events env evs :
  outcome_of env = RetEvents evs ↔
  ∃ body, transport env = Response 200 body ∧ json_Decode body = Some evs.
Proof.
  unfold Core.outcome_of. destruct (transport env) as [m|st body].
  - split; [done|]. by intros (b & ? & _).
  - destruct (Z.eqb_spec st 200) as [->|Hne]; simpl.
    + destruct (json_Decode body) as [evs'|] eqn:Hd.
      * split; [intros [= <-]; eauto|]. intros (b & [= <-] & Hb). congruence.
      * split; [done|]. intros (b & [= <-] & Hb). congruence.
    + split; [done|]. intros (b & [= ? _] & _). done.
Qed.

(** X11. [GetEvents] returns events only as a pure pass-through: it
    returns a list exactly when it got a permit, could build the request,
    the backend answered 200 and the body decoded, and the list is then
    the decoded one, unchanged and in the same order. On any other
    status, on a transport error or on a malformed body it returns an
    error, never an empty list. *)
Theorem GetEvents_passes_events_through env channelID offset limit p evs p' :
  GetEvents env channelID offset limit p = Some (RetEvents evs, p') ↔
  select_case env = CaseAcquire ∧ semaphore p < workers p ∧
  new_request_err env = None ∧
  (∃ body, transport env = Response 200 body ∧ json_Decode body = Some evs) ∧
  p' = issue p (request_of p channelID offset (Z.min limit (maxLimit p))).
Proof.
  rewrite GetEvents_eq. destruct (select_case env) as [|err].
  - case_bool_decide as Hroom.
    + destruct (new_request_err env) as [m|].
      * split; [done|]. by intros (_ & _ & ? & _).
      * rewrite <- outcome_of_events. split.
        -- intros [= -> <-]. done.
        -- intros (_ & _ & _ & -> & ->). done.
    + split; [done|]. intros (_ & ? & _). done.
  - split; [done|]. by intros (? & _).
Qed.

Lemma GetEvents_pool_cases env channelID offset limit p r p' :
  GetEvents env channelID offset limit p = Some (r, p') →
  p' = p ∨
  p' = issue p (request_of p channelID offset (Z.min limit (maxLimit p))).
Proof.
  rewrite GetEvents_eq. destruct (select_case env) as [|err].
  - case_bool_decide as Hroom; [|done].
    destruct (new_request_err env) as [m|]; intros [= _ <-]; [by left|by right].
  - intros [= _ <-]. by left.
Qed.

(** X12. One call of [GetEvents] hands at most one request to the HTTP
    client: exactly one when it got a permit and could build the
    request, none otherwise. The request carries the escaped channel and
    secret, the offset as given and [min(limit, maxLimit)]; everything
    else of the pool is as before. *)
Theorem GetEvents_issues_at_most_one_request env channelID offset limit p r p' :
  GetEvents env channelID offset limit p = Some (r, p') →
  p' = match select_case env, new_request_err env with
       | CaseAcquire, None =>
           issue p (request_of p channelID offset (Z.min limit (maxLimit p)))
       | _, _ => p
       end.
Proof.
  rewrite GetEvents_eq. destruct (select_case env) as [|err].
  - case_bool_decide as Hroom; [|done].
    destruct (new_request_err env) as [m|]; by intros [= _ <-].
  - by intros [= _ <-].
Qed.

Lemma pool_step_next y j env c p1 c1 :
  calls y !! j = Some (env, c) →
  call_step env (pool y) c = Some (p1, c1) →
  pool_step (PNext j) y = Some {| pool := p1; calls := <[j := (env, c1)]> (calls y) |}.
Proof. intros Hj Hs. simpl. by rewrite Hj, Hs. Qed.

(** A call that holds a permit runs to its return in [steps_left] of its
    own instructions and gives the permit back. *)
Lemma holder_runs_to_return y j env c :
  calls y !! j = Some (env, c) → holds_permit c = true →
  0 < semaphore (pool y) →
  ∃ y' r, pool_run (replicate (steps_left env c) (PNext j)) y = Some y' ∧
          calls y' = <[j := (env, G_Return r)]> (calls y) ∧
          S (semaphore (pool y')) = semaphore (pool y) ∧
          workers (pool y') = workers (pool y).
Proof.
  intros Hj Hc Hpos.
  assert (j < length (calls y)) as Hlt by by eapply lookup_lt_Some.
  destruct (semaphore (pool y)) as [|n] eqn:Hsem; [lia|].
  destruct c as [ch o l|ch o l|ch o l|req|r|r]; try done;
    unfold steps_left; destruct (new_request_err env) as [m|] eqn:Hreq;
    cbn [replicate Core.pool_run];
    repeat (first
      [ erewrite pool_step_next;
          [ | first [ exact Hj | by apply list_lookup_insert_eq; rewrite ?length_insert ]
            | simpl; rewrite ?Hreq, ?Hsem; reflexivity ]
      | idtac ]; cbn [Core.pool_run pool calls]; rewrite ?list_insert_insert_eq);
    eexists _, _; (split; [reflexivity|]); simpl; rewrite ?Hsem; done.
Qed.

(** X13. The pool cannot starve a caller for good: with at least one
    worker, whatever calls were made and however they interleaved, a
    call waiting in its [select] can get a permit. Either one is free, or
    some call holds one and, whatever the backend answers, returns and
    releases it within its next four instructions. *)
Theorem waiting_call_gets_permit addr sec maxLim w p sched y i env channelID offset limit :
  NewLaravelUpstreamPool addr sec maxLim w = Ok p →
  (1 ≤ w)%Z →
  pool_run sched {| pool := p; calls := [] |} = Some y →
  calls y !! i = Some (env, G_Select channelID offset limit) →
  select_case env = CaseAcquire →
  ∃ sched' y', pool_run sched' y = Some y' ∧
               calls y' !! i = Some (env, G_Clamp channelID offset limit).
Proof.
  intros Hnew Hw Hrun Hi Hsel.
  pose proof (pool_run_inv url_QueryEscape json_Decode _ _ _ _
                (pool_inv_new _ _ _ _ _ Hnew) Hrun) as [Hwk Hh Hc].
  assert (i < length (calls y)) as Hlt by by eapply lookup_lt_Some.
  assert (∀ y0, calls y0 !! i = Some (env, G_Select channelID offset limit) →
                semaphore (pool y0) < workers (pool y0) →
                ∃ y', pool_run [PNext i] y0 = Some y' ∧
                      calls y' !! i = Some (env, G_Clamp channelID offset limit)) as Hacq.
  { intros y0 Hi0 Hroom. eexists. split.
    - cbn [Core.pool_run]. erewrite pool_step_next; [reflexivity|exact Hi0|].
      simpl. rewrite Hsel. by rewrite bool_decide_eq_true_2.
    - simpl. apply list_lookup_insert_eq. by eapply lookup_lt_Some. }
  destruct (decide (semaphore (pool y) < workers (pool y))) as [Hroom|Hfull].
  - destruct (Hacq y Hi Hroom) as (y' & Hr & Hi'). by exists [PNext i], y'.
  - assert (0 < semaphore (pool y)) as Hpos by lia.
    destruct (countb_pos_inv (λ ec : CallEnv * gpc, holds_permit ec.2) (calls y))
      as (j & [envj cj] & Hj & Hcj).
    { unfold permits_held in Hh. lia. }
    simpl in Hcj.
    destruct (holder_runs_to_return y j envj cj Hj Hcj Hpos)
      as (y1 & r & Hrun1 & Hcalls1 & Hsem1 & Hwk1).
    assert (i ≠ j) as Hij.
    { intros ->. rewrite Hi in Hj. injection Hj as <- <-. done. }
    destruct (Hacq y1) as (y' & Hr & Hi').
    + rewrite Hcalls1. by rewrite list_lookup_insert_ne.
    + lia.
    + exists (replicate (steps_left envj cj) (PNext j) ++ [PNext i]), y'.
      split; [|done].
      clear -Hrun1 Hr. revert Hrun1. generalize (replicate (steps_left envj cj) (PNext j)).
      intros l. revert y. induction l as [|a l IH]; intros y; simpl.
      * by intros [= ->].
      * destruct (Core.pool_step url_QueryEscape json_Decode a y); [apply IH|done].
Qed.

End WithLibs.

Lemma GetEvents_issues_at_most_one_request_witness :
  Core.GetEvents (λ x, x) decode_ok env_ok "a" 0 500 pool_1 =
    Some (RetEvents [ev_5], issue pool_1 (Core.request_of (λ x, x) pool_1 "a" 0 100)) ∧
  issue pool_1 (Core.request_of (λ x, x) pool_1 "a" 0 100) =
    match select_case env_ok, new_request_err env_ok with
    | CaseAcquire, None =>
        issue pool_1 (Core.request_of (λ x, x) pool_1 "a" 0 (Z.min 500 (maxLimit pool_1)))
    | _, _ => pool_1
    end.
Proof.
  split; [reflexivity|].
  apply (GetEvents_issues_at_most_one_request (λ x, x) decode_ok env_ok "a" 0 500
           pool_1 (RetEvents [ev_5])).
  reflexivity.
Defined.

Lemma waiting_call_gets_permit_witness :
  NewLaravelUpstreamPool "http://laravel" "s" 100 1 = Ok pool_1 ∧
  (1 ≤ 1)%Z ∧
  Core.pool_run (λ x, x) decode_ok sched_pool {| pool := pool_1; calls := [] |}
    = Some state_pool ∧
  calls state_pool !! 1 = Some (env_ok, G_Select "b" 0 10) ∧
  select_case env_ok = CaseAcquire ∧
  ∃ sched' y', Core.pool_run (λ x, x) decode_ok sched' state_pool = Some y' ∧
               calls y' !! 1 = Some (env_ok, G_Clamp "b" 0 10).
Proof.
  split; [reflexivity|]. split; [lia|]. split; [reflexivity|].
  split; [reflexivity|]. split; [reflexivity|].
  apply (waiting_call_gets_permit (λ x, x) decode_ok "http://laravel" "s" 100 1 pool_1
           sched_pool state_pool 1 env_ok "b" 0 10); first [reflexivity|lia].
Defined.

End CoreMore.

(** * More about the handlers *)
Module HttpMore.
Import Redis Spec RedisFacts Http HttpFacts.

(** Removing the channel a poll has just appended to the slice of [c]
    gives back the map as it was before the poll, whatever happened to
    the cells meanwhile. *)
Lemma Unsubscribe_restores s s1 c ch :
  wf s → wf s1 →
  handlers s1 = <[c := handlers_at s c ++ [ch]]> (handlers s) →
  ch ∉ handlers_at s c →
  ∃ s', Unsubscribe c ch s1 = Ok s' ∧ handlers s' = handlers s ∧
        EvClose ch ∈ events s'.
Proof.
  intros Hwf Hwf1 Hh Hfresh.
  edestruct (Unsubscribe_present s1 c ch Hwf1) as (i & hs1 & k & Hc & Hi & Hk & _ & ->).
  { unfold handlers_at at 1. rewrite Hh, lookup_insert_eq. simpl.
    apply elem_of_app. right. by apply list_elem_of_singleton. }
  rewrite Hh, lookup_insert_eq in Hc. injection Hc as <-.
  assert (i = length (handlers_at s c)) as ->.
  { apply lookup_app_Some in Hi as [Hi|[Hle Hi]].
    - exfalso. apply Hfresh. apply list_elem_of_lookup. eauto.
    - apply list_lookup_singleton_Some in Hi as [Hi _]. lia. }
  eexists. split; [done|]. unfold removed_state. simpl.
  rewrite delete_snoc, Hh. split.
  - unfold handlers_at in *.
    destruct (handlers s !! c) as [hs|] eqn:Hc; simpl.
    + rewrite bool_decide_eq_false_2 by by apply (wf_nonempty s Hwf c).
      rewrite insert_insert_eq. by apply insert_id.
    + rewrite delete_insert_eq. by apply delete_id.
  - apply elem_of_app. right. by apply list_elem_of_singleton.
Qed.

Section WithLibs.
Variable url_QueryEscape : string → string.
Variable json_Decode : string → option (list Core.Event).
Variable ValidateToken : string → option string.
Variable GenerateToken : string → option string.
Variable strconv_ParseInt : string → option Z.
Variable strconv_Atoi : string → option Z.
Variable json_Unmarshal : string → option EventNotification.

#[local] Abbreviation GetEvents := (Core.GetEvents url_QueryEscape json_Decode).
#[local] Abbreviation GetUpdates_enter :=
  (GetUpdates_enter url_QueryEscape json_Decode ValidateToken strconv_ParseInt strconv_Atoi).
#[local] Abbreviation GetUpdates_wake := (GetUpdates_wake url_QueryEscape json_Decode).
#[local] Abbreviation offset_param := (offset_param strconv_ParseInt).
#[local] Abbreviation limit_param := (limit_param strconv_Atoi).
#[local] Abbreviation GetAccessToken := (GetAccessToken GenerateToken).
#[local] Abbreviation run_ops := (run_ops json_Unmarshal).
#[local] Abbreviation handleMessage := (handleMessage json_Unmarshal).

Lemma token_issued_secret accessSecret q token :
  t_body (GetAccessToken accessSecret q) = TokenIssued token →
  default "" (q !! "secret") = accessSecret.
Proof.
  unfold Http.GetAccessToken.
  case_bool_decide; [done|]. by case_bool_decide.
Qed.

(** X14. [GetAccessToken] answers with a token exactly when the request
    names a channel, presents the configured access secret and the
    generator succeeds; the token is then the one generated for that
    channel. A request with a wrong or missing secret never gets one. *)
Theorem token_needs_channel_and_secret accessSecret q token :
  t_body (GetAccessToken accessSecret q) = TokenIssued token ↔
  default "" (q !! "channel_id") ≠ "" ∧
  default "" (q !! "secret") = accessSecret ∧
  GenerateToken (default "" (q !! "channel_id")) = Some token.
Proof.
  unfold Http.GetAccessToken.
  case_bool_decide as Hc; simpl.
  { split; [done|]. by intros (? & _). }
  case_bool_decide as Hs; simpl.
  - destruct (GenerateToken (default "" (q !! "channel_id"))) as [t|]; simpl.
    + split; [by intros [= ->]|]. by intros (_ & _ & [= ->]).
    + split; [done|]. by intros (_ & _ & ?).
  - split; [done|]. by intros (_ & ? & _).
Qed.

(** X15. A poll without a token is answered 400 and one with a token
    that does not validate 401, before anything else happens: no permit
    is taken, no request goes to the backend and nothing is registered. *)
Theorem unauthenticated_poll_touches_nothing h q env w :
  Query q "token" = "" ∨ ValidateToken (Query q "token") = None →
  ∃ r, GetUpdates_enter h q env w = Some (Responded r, w) ∧
       status r = (if bool_decide (Query q "token" = "") then 400%Z else 401%Z).
Proof.
  intros Hbad. unfold Http.GetUpdates_enter.
  case_bool_decide as Htok; [eauto|].
  destruct Hbad as [?|Hval]; [done|]. rewrite Hval. eauto.
Qed.

Lemma limit_param_bounds h q :
  (1 ≤ maxLimit h)%Z → (1 ≤ limit_param h q ≤ maxLimit h)%Z.
Proof.
  intros Hmax. unfold Http.limit_param.
  destruct (strconv_Atoi (DefaultQuery q "limit" "100")) as [l|].
  - destruct (Z.ltb_spec l 1);
      match goal with |- context [(?a >? ?b)%Z] => destruct (Z.gtb_spec a b) end; lia.
  - match goal with |- context [(?a >? ?b)%Z] => destruct (Z.gtb_spec a b) end; lia.
Qed.

(** X16. The limit a poll asks the backend for is between 1 and the
    handlers' [maxLimit] whatever the query says (missing, unparsable,
    zero, negative or huge), provided [maxLimit] is at least 1; the
    offset falls back to 0 when it does not parse. *)
Theorem limit_param_in_range h q :
  (1 ≤ maxLimit h)%Z →
  (1 ≤ limit_param h q ≤ maxLimit h)%Z ∧
  (strconv_ParseInt (DefaultQuery q "offset" "0") = None → offset_param q = 0%Z).
Proof.
  intros Hmax. split.
  - by apply limit_param_bounds.
  - unfold Http.offset_param. by intros ->.
Qed.

(** X17. When the handlers and the pool were given the same [maxLimit]
    of at least 1, whatever a poll does up to its first response or
    wait, it hands at most one request to the backend, and that request
    carries the poll's offset and a limit between 1 and [maxLimit]: the
    clamp of the pool never cuts further. *)
Theorem poll_request_is_bounded h q env w poll w' :
  (1 ≤ maxLimit h)%Z →
  Core.maxLimit (upstreamPool w) = maxLimit h →
  GetUpdates_enter h q env w = Some (poll, w') →
  Core.issued (upstreamPool w') = Core.issued (upstreamPool w) ∨
  ∃ req, Core.issued (upstreamPool w') = Core.issued (upstreamPool w) ++ [req] ∧
         Core.req_offset req = offset_param q ∧
         Core.req_limit req = limit_param h q ∧
         (1 ≤ Core.req_limit req ≤ maxLimit h)%Z.
Proof.
  intros Hmax Hsame. unfold Http.GetUpdates_enter.
  case_bool_decide; [intros [= _ <-]; by left|].
  destruct (ValidateToken (Query q "token")) as [c|]; [|intros [= _ <-]; by left].
  destruct (GetEvents env c (offset_param q) (limit_param h q) (upstreamPool w))
    as [[r p1]|] eqn:Hget; [|done].
  pose proof (CoreMore.GetEvents_pool_cases _ _ _ _ _ _ _ _ _ Hget) as Hp1.
  pose proof (limit_param_bounds h q Hmax) as Hrange.
  assert (Core.issued p1 = Core.issued (upstreamPool w) ∨
          ∃ req, Core.issued p1 = Core.issued (upstreamPool w) ++ [req] ∧
                 Core.req_offset req = offset_param q ∧
                 Core.req_limit req = limit_param h q ∧
                 (1 ≤ Core.req_limit req ≤ maxLimit h)%Z) as Hiss.
  { destruct Hp1 as [->| ->]; [by left|].
    right. eexists. split; [done|]. simpl. rewrite Hsame.
    rewrite Z.min_l by lia. done. }
  destruct r as [evs|err].
  - case_bool_decide.
    + by intros [= _ <-].
    + destruct (Subscribe c (subscriber w)) as [ch s1]. by intros [= _ <-].
  - by intros [= _ <-].
Qed.

(** X18. [Unsubscribe] undoes the [Subscribe] before it: on a state the
    subscriber can reach, subscribing to a channel and unsubscribing the
    returned queue gives back the very map there was (a key that had to
    be created is deleted again), and leaves the new queue closed. *)
Theorem subscribe_unsubscribe_round_trip ops s c :
  run_ops ops NewSubscriber = Ok s →
  ∃ s', Unsubscribe c (Subscribe c s).1 (Subscribe c s).2 = Ok s' ∧
        handlers s' = handlers s ∧
        chans s' = chans s ++ [{| buf := []; cap := 10; closed := true |}] ∧
        events s' = events s ++ [EvMake (length (chans s)); EvClose (length (chans s))].
Proof.
  intros Hwf%reachable_wf.
  destruct (Unsubscribe_Subscribe c s Hwf) as (s' & Hu & Hh & He).
  exists s'. split_and!; try done.
  pose proof (wf_Subscribe c s Hwf) as Hwf1.
  edestruct (Unsubscribe_present (Subscribe c s).2 c (Subscribe c s).1 Hwf1)
    as (i & hs1 & k & _ & _ & Hk & _ & Hu').
  { rewrite Subscribe_eq. unfold handlers_at. simpl. rewrite lookup_insert_eq. simpl.
    apply elem_of_app. right. by apply list_elem_of_singleton. }
  rewrite Hu in Hu'. injection Hu' as ->.
  revert Hk. rewrite Subscribe_eq. simpl.
  rewrite lookup_app_r by lia. rewrite Nat.sub_diag. simpl. intros [= <-]. simpl.
  rewrite insert_app_r_alt by lia. by rewrite Nat.sub_diag.
Qed.

(** X19. When the immediate fetch of an authenticated poll fails, the
    poll is answered 500 at once: the failure is not taken for "no
    events", the poll does not subscribe, and the subscriber is left as
    it was. *)
Theorem upstream_failure_is_reported h q env w channelID err p1 :
  Query q "token" ≠ "" →
  ValidateToken (Query q "token") = Some channelID →
  GetEvents env channelID (offset_param q) (limit_param h q) (upstreamPool w)
    = Some (Core.RetErr err, p1) →
  GetUpdates_enter h q env w =
  Some (Responded {| status := StatusInternalServerError;
                     body := BodyError "Failed to fetch events" |},
        {| subscriber := subscriber w; upstreamPool := p1 |}).
Proof.
  intros Htok Hval Hget. unfold Http.GetUpdates_enter.
  rewrite bool_decide_eq_false_2 by done. by rewrite Hval, Hget.
Qed.

(** X20. Whichever way a waiting poll wakes up, it ends by removing its
    registration: on a subscriber state that can be reached and in which
    the poll's queue is registered under its channel, the handler
    answers 200 or 500, the deferred [Unsubscribe] returns without a
    panic, and afterwards the queue is closed and registered nowhere. *)
Theorem poll_always_unsubscribes ops h channelID offset limit notifyCh wake env w resp rw :
  run_ops ops NewSubscriber = Ok (subscriber w) →
  notifyCh ∈ handlers_at (subscriber w) channelID →
  GetUpdates_wake h channelID offset limit notifyCh wake env w = Some (resp, rw) →
  (status resp = 200%Z ∨ status resp = 500%Z) ∧
  ∃ w', rw = Ok w' ∧
        (∀ c, notifyCh ∉ handlers_at (subscriber w') c) ∧
        EvClose notifyCh ∈ events (subscriber w').
Proof.
  intros Hwf%reachable_wf Hreg.
  assert (∀ s p, wf s → notifyCh ∈ handlers_at s channelID →
            ∃ w', (s1 ← Unsubscribe channelID notifyCh s;
                   Ok {| subscriber := s1; upstreamPool := p |}) = Ok w' ∧
                  (∀ c, notifyCh ∉ handlers_at (subscriber w') c) ∧
                  EvClose notifyCh ∈ events (subscriber w')) as Hclean.
  { intros s p Hs Hin.
    destruct (Unsubscribe_present s channelID notifyCh Hs Hin)
      as (i & hs & k & Hc & Hi & Hk & _ & ->).
    eexists. split; [done|]. simpl. split.
    - by apply removed_state_gone.
    - apply elem_of_app. right. by apply list_elem_of_singleton. }
  destruct wake; simpl.
  - intros [= <- <-]. split; [by left|]. by apply Hclean.
  - destruct (chan_recv notifyCh (subscriber w)) as [[n s1]|] eqn:Hrecv; [|done].
    destruct (GetEvents env channelID offset limit (upstreamPool w)) as [[r p1]|]; [|done].
    intros [= <- <-]. split; [destruct r; [by left|by right]|].
    apply Hclean.
    + by eapply wf_chan_recv.
    + destruct (SysFacts.chan_recv_frame _ _ _ _ Hrecv) as [Hh _].
      unfold handlers_at in *. by rewrite Hh.
Qed.

(** X21. The whole of a notified poll: on a subscriber state that can
    be reached, an authenticated poll whose immediate fetch is empty
    subscribes; once a notification for its channel has been delivered,
    the notification case of the [select] is ready; the handler fetches
    again and answers with what that fetch returns (200 with the events,
    be they none, or 500 on a failure), and its deferred [Unsubscribe]
    leaves the map exactly as it was before the poll. *)
Theorem notified_poll_refetches ops h q env w channelID p1 payload n env2 r2 p2 :
  run_ops ops NewSubscriber = Ok (subscriber w) →
  Query q "token" ≠ "" →
  ValidateToken (Query q "token") = Some channelID →
  GetEvents env channelID (offset_param q) (limit_param h q) (upstreamPool w)
    = Some (Core.RetEvents [], p1) →
  json_Unmarshal payload = Some n → ChannelID n = channelID →
  GetEvents env2 channelID (offset_param q) (limit_param h q) p1 = Some (r2, p2) →
  ∃ notifyCh s1 s2 w3,
    GetUpdates_enter h q env w =
      Some (Waiting channelID (offset_param q) (limit_param h q) notifyCh,
            {| subscriber := s1; upstreamPool := p1 |}) ∧
    handleMessage payload s1 = Ok s2 ∧
    GetUpdates_wake h channelID (offset_param q) (limit_param h q) notifyCh
      WakeNotify env2 {| subscriber := s2; upstreamPool := p1 |} =
    Some (match r2 with
          | Core.RetErr _ => {| status := StatusInternalServerError;
                                body := BodyError "Failed to fetch events" |}
          | Core.RetEvents evs => {| status := StatusOK; body := BodyEvents evs |}
          end, Ok w3) ∧
    handlers (subscriber w3) = handlers (subscriber w) ∧
    upstreamPool w3 = p2.
Proof.
  intros Hwf%reachable_wf Htok Hval Hget Hn Hch Hget2.
  set (s := subscriber w) in *.
  pose proof (wf_Subscribe channelID s Hwf) as Hwf1.
  assert (length (chans s) ∉ handlers_at s channelID) as Hfresh.
  { intros Hin. assert (registered s (length (chans s))) as Hr by by exists channelID.
    pose proof (wf_registered_lt s _ Hwf Hr). lia. }
  destruct (handleMessage_spec json_Unmarshal _ payload n Hwf1 Hn)
    as (s2 & Hs2 & Hwf2 & Hh2 & _ & Hin2 & _).
  revert Hwf1 Hs2 Hwf2 Hh2 Hin2. rewrite Subscribe_eq. cbn [snd].
  set (s1 := {| handlers := <[channelID := handlers_at s channelID ++ [length (chans s)]]> (handlers s);
                chans := chans s ++ [{| buf := []; cap := 10; closed := false |}];
                events := events s ++ [EvMake (length (chans s))] |}).
  intros Hwf1 Hs2 Hwf2 Hh2 Hin2.
  assert (chans s2 !! length (chans s)
          = Some {| buf := [n]; cap := 10; closed := false |}) as Hcell.
  { rewrite Hin2.
    - unfold s1. simpl. rewrite lookup_app_r, Nat.sub_diag by done. done.
    - rewrite Hch. unfold handlers_at, s1. simpl. rewrite lookup_insert_eq. simpl.
      apply elem_of_app. right. by apply list_elem_of_singleton. }
  set (s2' := {| handlers := handlers s2;
                 chans := <[length (chans s) := {| buf := []; cap := 10; closed := false |}]> (chans s2);
                 events := events s2 |}).
  assert (chan_recv (length (chans s)) s2 = Some (n, s2')) as Hrecv.
  { unfold chan_recv. by rewrite Hcell. }
  destruct (Unsubscribe_restores s s2' channelID (length (chans s)) Hwf)
    as (s3 & Hs3 & Hh3 & _); [by eapply wf_chan_recv|simpl; by rewrite Hh2|done|].
  exists (length (chans s)), s1, s2, {| subscriber := s3; upstreamPool := p2 |}.
  split_and!; try done.
  - unfold Http.GetUpdates_enter.
    rewrite bool_decide_eq_false_2 by done. rewrite Hval, Hget. simpl. done.
  - unfold Http.GetUpdates_wake. cbn [subscriber upstreamPool].
    rewrite Hrecv, Hget2, Hs3. done.
Qed.

End WithLibs.

Lemma unauthenticated_poll_touches_nothing_witness :
  (Query ∅ "token" = "" ∨ validate_t (Query ∅ "token") = None) ∧
  ∃ r, Http.GetUpdates_enter (λ x, x) decode_ok validate_t parse_none parse_none
         handlers_1 ∅ env_ok world_1 = Some (Responded r, world_1) ∧
       status r = (if bool_decide (Query ∅ "token" = "") then 400%Z else 401%Z).
Proof.
  split; [by left|].
  apply (unauthenticated_poll_touches_nothing (λ x, x) decode_ok validate_t parse_none
           parse_none handlers_1 ∅ env_ok world_1). by left.
Defined.

Lemma limit_param_in_range_witness :
  (1 ≤ maxLimit handlers_1)%Z ∧
  (1 ≤ Http.limit_param parse_none handlers_1 query_t ≤ maxLimit handlers_1)%Z ∧
  (parse_none (DefaultQuery query_t "offset" "0") = None →
   Http.offset_param parse_none query_t = 0%Z).
Proof.
  split; [simpl; lia|].
  apply (limit_param_in_range parse_none parse_none handlers_1 query_t). simpl. lia.
Defined.

Lemma poll_request_is_bounded_witness :
  (1 ≤ maxLimit handlers_1)%Z ∧
  Core.maxLimit (upstreamPool world_1) = maxLimit handlers_1 ∧
  Http.GetUpdates_enter (λ x, x) decode_ok validate_t parse_none parse_none
    handlers_1 query_t env_ok world_1 =
  Some (Responded {| status := StatusOK; body := BodyEvents [ev_5] |},
        {| subscriber := subscriber world_1;
           upstreamPool := Core.issue pool_1 (Core.request_of (λ x, x) pool_1 "a" 0 100) |}) ∧
  (Core.issued (Core.issue pool_1 (Core.request_of (λ x, x) pool_1 "a" 0 100))
     = Core.issued (upstreamPool world_1) ∨
   ∃ req, Core.issued (Core.issue pool_1 (Core.request_of (λ x, x) pool_1 "a" 0 100))
            = Core.issued (upstreamPool world_1) ++ [req] ∧
          Core.req_offset req = Http.offset_param parse_none query_t ∧
          Core.req_limit req = Http.limit_param parse_none handlers_1 query_t ∧
          (1 ≤ Core.req_limit req ≤ maxLimit handlers_1)%Z).
Proof.
  split; [simpl; lia|]. split; [reflexivity|]. split; [reflexivity|].
  apply (poll_request_is_bounded (λ x, x) decode_ok validate_t parse_none parse_none
           handlers_1 query_t env_ok world_1
           (Responded {| status := StatusOK; body := BodyEvents [ev_5] |})
           {| subscriber := subscriber world_1;
              upstreamPool := Core.issue pool_1 (Core.request_of (λ x, x) pool_1 "a" 0 100) |});
    [simpl; lia|reflexivity|reflexivity].
Defined.

Lemma subscribe_unsubscribe_round_trip_witness :
  Redis.run_ops json_a ops_ab NewSubscriber = Ok state_ab ∧
  ∃ s', Unsubscribe "b" (Subscribe "b" state_ab).1 (Subscribe "b" state_ab).2 = Ok s' ∧
        handlers s' = handlers state_ab ∧
        chans s' = chans state_ab ++ [{| buf := []; cap := 10; closed := true |}] ∧
        events s' = events state_ab
                    ++ [EvMake (length (chans state_ab)); EvClose (length (chans state_ab))].
Proof.
  split; [reflexivity|].
  apply (subscribe_unsubscribe_round_trip json_a ops_ab state_ab "b"). reflexivity.
Defined.

Lemma upstream_failure_is_reported_witness :
  Query query_t "token" ≠ "" ∧
  validate_t (Query query_t "token") = Some "a" ∧
  Core.GetEvents (λ x, x) decode_ok env_fail "a"
    (Http.offset_param parse_none query_t) (Http.limit_param parse_none handlers_1 query_t)
    (upstreamPool world_1)
    = Some (Core.RetErr (errorf "Laravel returned status: unavailable"),
            Core.issue pool_1 (Core.request_of (λ x, x) pool_1 "a" 0 100)) ∧
  Http.GetUpdates_enter (λ x, x) decode_ok validate_t parse_none parse_none
    handlers_1 query_t env_fail world_1 =
  Some (Responded {| status := StatusInternalServerError;
                     body := BodyError "Failed to fetch events" |},
        {| subscriber := subscriber world_1;
           upstreamPool := Core.issue pool_1 (Core.request_of (λ x, x) pool_1 "a" 0 100) |}).
Proof.
  split; [done|]. split; [reflexivity|]. split; [reflexivity|].
  apply (upstream_failure_is_reported (λ x, x) decode_ok validate_t parse_none parse_none
           handlers_1 query_t env_fail world_1 "a"
           (errorf "Laravel returned status: unavailable")); done.
Defined.

Lemma poll_always_unsubscribes_witness :
  Redis.run_ops json_a ops_ab NewSubscriber = Ok (subscriber world_ab) ∧
  0 ∈ handlers_at (subscriber world_ab) "a" ∧
  Http.GetUpdates_wake (λ x, x) decode_ok handlers_1 "a" 0 100 0 WakeDone env_ok world_ab
    = Some ({| status := StatusOK; body := BodyEvents [] |},
            s1 ← Unsubscribe "a" 0 state_ab;
            Ok {| subscriber := s1; upstreamPool := pool_1 |}) ∧
  (status {| status := StatusOK; body := BodyEvents [] |} = 200%Z ∨
   status {| status := StatusOK; body := BodyEvents [] |} = 500%Z) ∧
  ∃ w', (s1 ← Unsubscribe "a" 0 state_ab;
         Ok {| subscriber := s1; upstreamPool := pool_1 |}) = Ok w' ∧
        (∀ c, 0 ∉ handlers_at (subscriber w') c) ∧
        EvClose 0 ∈ events (subscriber w').
Proof.
  assert (0 ∈ handlers_at (subscriber world_ab) "a") as Hin.
  { apply elem_of_cons. by left. }
  split; [reflexivity|]. split; [exact Hin|]. split; [reflexivity|].
  apply (poll_always_unsubscribes (λ x, x) decode_ok json_a ops_ab handlers_1 "a" 0 100 0
           WakeDone env_ok world_ab); [reflexivity|exact Hin|reflexivity].
Defined.

Lemma notified_poll_refetches_witness :
  Redis.run_ops json_a [] NewSubscriber = Ok (subscriber world_1) ∧
  Query query_t "token" ≠ "" ∧
  validate_t (Query query_t "token") = Some "a" ∧
  Core.GetEvents (λ x, x) decode_ok env_none "a"
    (Http.offset_param parse_none query_t) (Http.limit_param parse_none handlers_1 query_t)
    (upstreamPool world_1)
    = Some (Core.RetEvents [],
            Core.issue pool_1 (Core.request_of (λ x, x) pool_1 "a" 0 100)) ∧
  json_a "a" = Some note_a ∧ ChannelID note_a = "a" ∧
  Core.GetEvents (λ x, x) decode_ok env_ok "a"
    (Http.offset_param parse_none query_t) (Http.limit_param parse_none handlers_1 query_t)
    (Core.issue pool_1 (Core.request_of (λ x, x) pool_1 "a" 0 100))
    = Some (Core.RetEvents [ev_5],
            Core.issue (Core.issue pool_1 (Core.request_of (λ x, x) pool_1 "a" 0 100))
              (Core.request_of (λ x, x) pool_1 "a" 0 100)) ∧
  ∃ notifyCh s1 s2 w3,
    Http.GetUpdates_enter (λ x, x) decode_ok validate_t parse_none parse_none
      handlers_1 query_t env_none world_1 =
      Some (Waiting "a" (Http.offset_param parse_none query_t)
              (Http.limit_param parse_none handlers_1 query_t) notifyCh,
            {| subscriber := s1;
               upstreamPool := Core.issue pool_1 (Core.request_of (λ x, x) pool_1 "a" 0 100) |}) ∧
    Redis.handleMessage json_a "a" s1 = Ok s2 ∧
    Http.GetUpdates_wake (λ x, x) decode_ok handlers_1 "a"
      (Http.offset_param parse_none query_t)
      (Http.limit_param parse_none handlers_1 query_t) notifyCh
      WakeNotify env_ok
      {| subscriber := s2;
         upstreamPool := Core.issue pool_1 (Core.request_of (λ x, x) pool_1 "a" 0 100) |} =
    Some ({| status := StatusOK; body := BodyEvents [ev_5] |}, Ok w3) ∧
    handlers (subscriber w3) = handlers (subscriber world_1) ∧
    upstreamPool w3 =
      Core.issue (Core.issue pool_1 (Core.request_of (λ x, x) pool_1 "a" 0 100))
        (Core.request_of (λ x, x) pool_1 "a" 0 100).
Proof.
  split; [reflexivity|]. split; [done|]. split; [reflexivity|]. split; [reflexivity|].
  split; [reflexivity|]. split; [reflexivity|]. split; [reflexivity|].
  apply (notified_poll_refetches (λ x, x) decode_ok validate_t parse_none parse_none
           json_a [] handlers_1 query_t env_none world_1 "a"
           (Core.issue pool_1 (Core.request_of (λ x, x) pool_1 "a" 0 100))
           "a" note_a env_ok (Core.RetEvents [ev_5])); done.
Defined.

End HttpMore.

(** * Facts about the configuration and the providers *)
Module ConfigFacts.
Import Spec Config App Auth.

Section WithLibs.
Variable strconv_Atoi : string → option Z.
Variable time_ParseDuration : string → option Z.
Variable strconv_ParseBool : string → option bool.

#[local] Abbreviation from_env :=
  (from_env strconv_Atoi time_ParseDuration strconv_ParseBool).
#[local] Abbreviation Load := (Load strconv_Atoi time_ParseDuration strconv_ParseBool).

Lemma getEnv_nonempty env key def : def ≠ "" → getEnv env key def ≠ "".
Proof. intros Hd. unfold getEnv. by case_bool_decide. Qed.

Lemma validate_from_env env :
  validate (from_env env) =
  if (LaravelUpstreamWorkers (from_env env) <? 1)%Z
  then Some (errorf "LARAVEL_UPSTREAM_WORKERS must be at least 1")
  else if (MaxLimit (from_env env) <? 1)%Z || (MaxLimit (from_env env) >? 1000)%Z
  then Some (errorf "MAX_LIMIT must be between 1 and 1000")
  else None.
Proof.
  unfold validate.
  rewrite bool_decide_eq_false_2 by by apply getEnv_nonempty.
  by rewrite bool_decide_eq_false_2 by by apply getEnv_nonempty.
Qed.

Lemma Load_Val env cfg :
  Load env = Val cfg →
  cfg = from_env env ∧ (1 ≤ LaravelUpstreamWorkers cfg)%Z ∧ (1 ≤ MaxLimit cfg ≤ 1000)%Z.
Proof.
  unfold Config.Load. rewrite validate_from_env.
  destruct (Z.ltb_spec (LaravelUpstreamWorkers (from_env env)) 1); [done|].
  destruct (Z.ltb_spec (MaxLimit (from_env env)) 1); [done|].
  destruct (Z.gtb_spec (MaxLimit (from_env env)) 1000); [done|].
  simpl. intros [= <-]. split_and!; [done|lia|lia|lia].
Qed.

(** X22. [Load] can fail for two reasons only: a worker count below 1
    or a [MAX_LIMIT] outside 1..1000. The two secret checks of
    [validate] can never fire after [Load], because an unset or empty
    variable has already been replaced by its non-empty default; a
    configuration that loads is the one read from the environment. *)
Theorem Load_rejects_only_bad_numbers env :
  JWTSecret (from_env env) ≠ "" ∧
  AccessTokenSecret (from_env env) ≠ "" ∧
  (Load env = Val (from_env env) ↔
   (1 ≤ LaravelUpstreamWorkers (from_env env))%Z ∧
   (1 ≤ MaxLimit (from_env env) ≤ 1000)%Z) ∧
  (∀ cfg, Load env = Val cfg → cfg = from_env env).
Proof.
  split_and!.
  - by apply getEnv_nonempty.
  - by apply getEnv_nonempty.
  - split.
    + intros (_ & ? & ?)%Load_Val. done.
    + intros [Hw [Hl Hu]]. unfold Config.Load. rewrite validate_from_env.
      destruct (Z.ltb_spec (LaravelUpstreamWorkers (from_env env)) 1); [lia|].
      destruct (Z.ltb_spec (MaxLimit (from_env env)) 1); [lia|].
      destruct (Z.gtb_spec (MaxLimit (from_env env)) 1000); [lia|]. done.
  - by intros cfg (? & _)%Load_Val.
Qed.



(** X24. A configuration that loads starts the pool and the handlers
    consistently: the pool constructor does not panic, the pool has at
    least one worker and no permit taken, and the pool and the handlers
    get the same [maxLimit], between 1 and 1000. *)
Theorem loaded_config_starts_pool env cfg :
  Load env = Val cfg →
  ∃ p, provideLaravelUpstreamPool cfg = Ok p ∧
       1 ≤ Core.workers p ∧
       Core.semaphore p = 0 ∧
       Core.issued p = [] ∧
       Core.maxLimit p = Http.maxLimit (provideHTTPHandlers cfg) ∧
       (1 ≤ Core.maxLimit p ≤ 1000)%Z.
Proof.
  intros (-> & Hw & Hl)%Load_Val.
  unfold provideLaravelUpstreamPool, Core.NewLaravelUpstreamPool.
  destruct (Z.ltb_spec (LaravelUpstreamWorkers (from_env env)) 0); [lia|].
  eexists. split; [done|].
  unfold provideHTTPHandlers.
  cbn [Core.workers Core.semaphore Core.issued Core.maxLimit Http.maxLimit].
  split_and!; try done; lia.
Qed.

(** X25. With a configuration that loads, a request for a token that
    carries no [secret] parameter, or an empty one, never gets a token,
    whatever the token generator does. *)
Theorem no_secret_no_token gen env cfg q token :
  Load env = Val cfg →
  default "" (q !! "secret") = "" →
  Http.t_body (Http.GetAccessToken gen (AccessTokenSecret cfg) q) ≠ Http.TokenIssued token.
Proof.
  intros (-> & _)%Load_Val Hs Htok.
  apply HttpMore.token_issued_secret in Htok as Heq.
  rewrite Hs in Heq.
  by apply (getEnv_nonempty env "ACCESS_TOKEN_SECRET" "shared_secret_between_laravel_and_go").
Qed.

(** X26. [Load] does not look at [JWT_ALGO]; the constructor of the JWT
    service does. With a configuration that loads, the service is
    created exactly when [JWT_ALGO] is unset, empty, or one of ["HS256"],
    ["HS384"], ["HS512"] (any other value, other spellings included, is
    an error at start-up); the service then signs with the configured
    secret, which is never empty. *)
Theorem jwt_service_needs_known_algorithm env cfg :
  Load env = Val cfg →
  ((∃ svc, provideJWTService cfg = Val svc) ↔
   Getenv env "JWT_ALGO" ∈ ["HS256"; "HS384"; "HS512"; ""]) ∧
  (∀ svc, provideJWTService cfg = Val svc →
          secret svc = JWTSecret cfg ∧ secret svc ≠ "" ∧
          expiresIn svc = JWTExpiresIn cfg).
Proof.
  intros (-> & _)%Load_Val.
  pose proof (getEnv_nonempty env "JWT_SECRET" "super_long_random_secret") as Hsec.
  unfold provideJWTService, NewJWTService.
  cbn [JWTAlgo JWTSecret JWTExpiresIn Config.from_env]. split.
  - assert (getEnv env "JWT_ALGO" "HS256" =
            if bool_decide (Getenv env "JWT_ALGO" = "") then "HS256"
            else Getenv env "JWT_ALGO") as ->
      by (unfold getEnv; by case_bool_decide).
    set (v := Getenv env "JWT_ALGO").
    rewrite !elem_of_cons, elem_of_nil.
    destruct (decide (v = "")) as [Hv|Hv].
    + rewrite !(bool_decide_eq_true_2 (v = "")) by done.
      rewrite bool_decide_eq_true_2 by done. split; [tauto|eauto].
    + rewrite !(bool_decide_eq_false_2 (v = "")) by done.
      repeat case_bool_decide; (split; [tauto || by intros [svc Hsvc]|]);
        try (by eauto); intros [?|[?|[?|[?|[]]]]]; done.
  - intros svc Hsvc.
    repeat case_bool_decide; try done; injection Hsvc as <-; simpl;
      split_and!; try done; by apply Hsec.
Qed.

End WithLibs.

Lemma loaded_config_starts_pool_witness :
  Config.Load atoi_small parse_no_duration parse_no_bool env_four_workers
    = Val (Config.from_env atoi_small parse_no_duration parse_no_bool env_four_workers) ∧
  ∃ p, provideLaravelUpstreamPool
         (Config.from_env atoi_small parse_no_duration parse_no_bool env_four_workers) = Ok p ∧
       1 ≤ Core.workers p ∧
       Core.semaphore p = 0 ∧
       Core.issued p = [] ∧
       Core.maxLimit p =
         Http.maxLimit (provideHTTPHandlers
           (Config.from_env atoi_small parse_no_duration parse_no_bool env_four_workers)) ∧
       (1 ≤ Core.maxLimit p ≤ 1000)%Z.
Proof.
  split; [reflexivity|].
  apply (loaded_config_starts_pool atoi_small parse_no_duration parse_no_bool
           env_four_workers). reflexivity.
Defined.

Lemma no_secret_no_token_witness :
  Config.Load atoi_small parse_no_duration parse_no_bool env_four_workers
    = Val (Config.from_env atoi_small parse_no_duration parse_no_bool env_four_workers) ∧
  default "" (({[ "channel_id" := "a" ]} : gmap string string) !! "secret") = "" ∧
  Http.t_body (Http.GetAccessToken generate_t
    (AccessTokenSecret (Config.from_env atoi_small parse_no_duration parse_no_bool
                          env_four_workers))
    {[ "channel_id" := "a" ]}) ≠ Http.TokenIssued "token-for-a".
Proof.
  split; [reflexivity|]. split; [reflexivity|].
  apply (no_secret_no_token atoi_small parse_no_duration parse_no_bool generate_t
           env_four_workers); reflexivity.
Defined.

Lemma jwt_service_needs_known_algorithm_witness :
  Config.Load atoi_small parse_no_duration parse_no_bool env_rs256
    = Val (Config.from_env atoi_small parse_no_duration parse_no_bool env_rs256) ∧
  ¬ ∃ svc, provideJWTService
             (Config.from_env atoi_small parse_no_duration parse_no_bool env_rs256)
           = Val svc.
Proof.
  split; [reflexivity|]. intros Hsvc.
  apply (jwt_service_needs_known_algorithm atoi_small parse_no_duration parse_no_bool
           env_rs256) in Hsvc; [|reflexivity].
  revert Hsvc. rewrite !elem_of_cons, elem_of_nil. vm_compute.
  intros [?|[?|[?|[?|[]]]]]; discriminate.
Defined.

(** A worker count of 0 and a limit of 5000 are refused; four workers
    load with the default limit of 100. *)
Example Load_samples :
  Config.Load atoi_small parse_no_duration parse_no_bool
    {[ "LARAVEL_UPSTREAM_WORKERS" := "0" ]}
    = Err (errorf "config validation failed: LARAVEL_UPSTREAM_WORKERS must be at least 1") ∧
  Config.Load atoi_small parse_no_duration parse_no_bool {[ "MAX_LIMIT" := "5000" ]}
    = Err (errorf "config validation failed: MAX_LIMIT must be between 1 and 1000") ∧
  LaravelUpstreamWorkers
    (Config.from_env atoi_small parse_no_duration parse_no_bool env_four_workers) = 4%Z ∧
  MaxLimit
    (Config.from_env atoi_small parse_no_duration parse_no_bool env_four_workers) = 100%Z.
Proof. split_and!; reflexivity. Qed.

End ConfigFacts.

(** * More about the reconnect goroutine *)
Module MainMore.
Import Redis Spec RedisFacts Main MainFacts.

Section WithJSON.
Variable json_Unmarshal : string → option EventNotification.

#[local] Abbreviation supervise := (supervise json_Unmarshal).
#[local] Abbreviation supervisor := (supervisor json_Unmarshal).
#[local] Abbreviation Start := (Start json_Unmarshal).

Lemma next_backoff_range b :
  (time_Second ≤ b ≤ time_Minute)%Z →
  let b2 := wrap64 (b * 2) in
  (time_Second ≤ (if (b2 >? maxBackoff)%Z then maxBackoff else b2) ≤ time_Minute)%Z.
Proof.
  intros Hb. simpl. rewrite wrap64_small.
  - unfold maxBackoff, time_Minute, time_Second in *.
    destruct (Z.gtb_spec (b * 2) (60 * 1000000000)); lia.
  - unfold time_Minute, time_Second in *. lia.
Qed.

Lemma supervise_sleeps conns b s d :
  (time_Second ≤ b ≤ time_Minute)%Z →
  SupSleep d ∈ supervise conns b s → (time_Second ≤ d ≤ time_Minute)%Z.
Proof.
  revert b s. induction conns as [|conn conns IH]; intros b s Hb; simpl.
  - by intros ?%not_elem_of_nil.
  - destruct (Start conn s) as [[[err|] s1]|m].
    + destruct err as [e|].
      * destruct (error_eqb e context_Canceled); simpl.
        -- intros [?|[?|?%not_elem_of_nil]%elem_of_cons]%elem_of_cons; done.
        -- intros [?|[[= ->]|Hin]%elem_of_cons]%elem_of_cons; [done|done|].
           eapply IH; [|exact Hin]. by apply next_backoff_range.
      * intros [?|Hin]%elem_of_cons; [done|].
        eapply IH; [|exact Hin]. unfold time_Minute, time_Second. lia.
    + intros [?|?%not_elem_of_nil]%elem_of_cons; done.
    + intros [?|?%not_elem_of_nil]%elem_of_cons; done.
Qed.

(** X27. Whatever the sequence of refused connections, lost connections
    and stops, every sleep of the reconnect goroutine lasts between one
    second and one minute; the doubling never overflows the int64
    duration. *)
Theorem every_sleep_is_bounded conns s d :
  SupSleep d ∈ supervisor conns s → (time_Second ≤ d ≤ time_Minute)%Z.
Proof.
  apply supervise_sleeps. unfold time_Minute, time_Second. lia.
Qed.

Lemma supervise_return conns b s t1 t2 :
  supervise conns b s = t1 ++ SupReturn :: t2 →
  t2 = [] ∧ ∃ t0, t1 = t0 ++ [SupStart (Returned (Some context_Canceled))].
Proof.
  revert b s t1. induction conns as [|conn conns IH]; intros b s t1; simpl.
  - by destruct t1.
  - destruct (Start conn s) as [[[err|] s1]|m].
    + destruct err as [e|].
      * destruct (error_eqb e context_Canceled) eqn:He; simpl.
        -- apply error_eqb_Canceled in He as ->.
           destruct t1 as [|x t1]; [done|]. intros [= <- Heq].
           destruct t1 as [|x' t1]; [|by destruct t1].
           injection Heq as <-. split; [done|]. by exists [].
        -- destruct t1 as [|x t1]; [done|]. intros [= <- Heq].
           destruct t1 as [|x' t1]; [done|]. injection Heq as <- Heq.
           destruct (IH _ _ _ Heq) as [-> [t0 ->]].
           split; [done|]. by exists (SupStart (Returned (Some e)) :: SupSleep b :: t0).
      * destruct t1 as [|x t1]; [done|]. intros [= <- Heq].
        destruct (IH _ _ _ Heq) as [-> [t0 ->]].
        split; [done|]. by exists (SupStart (Returned None) :: t0).
    + destruct t1 as [|x t1]; [done|]. intros [= _ Heq]. by destruct t1.
    + destruct t1 as [|x t1]; [done|]. intros [= _ Heq]. by destruct t1.
Qed.

(** X28. The reconnect goroutine ends only on an explicit stop, and
    does nothing after it: a return in its trace is the last event, and
    it directly follows a [Start] that returned [context.Canceled]. *)
Theorem goroutine_returns_only_on_stop conns s t1 t2 :
  supervisor conns s = t1 ++ SupReturn :: t2 →
  t2 = [] ∧ ∃ t0, t1 = t0 ++ [SupStart (Returned (Some context_Canceled))].
Proof. apply supervise_return. Qed.

Lemma supervise_no_panic conns b s :
  wf s → SupPanic ∉ supervise conns b s.
Proof.
  revert b s. induction conns as [|conn conns IH]; intros b s Hwf; simpl.
  - apply not_elem_of_nil.
  - destruct (wf_Start json_Unmarshal conn s Hwf) as (out & s1 & -> & Hwf1).
    destruct out as [[e|]|].
    + destruct (error_eqb e context_Canceled); simpl.
      * intros [?|[?|?%not_elem_of_nil]%elem_of_cons]%elem_of_cons; done.
      * intros [?|[?|Hin]%elem_of_cons]%elem_of_cons; [done|done|].
        by apply (IH _ s1 Hwf1) in Hin.
    + intros [?|Hin]%elem_of_cons; [done|]. by apply (IH _ s1 Hwf1) in Hin.
    + intros [?|?%not_elem_of_nil]%elem_of_cons; done.
Qed.

(** X29. Started on a subscriber state that can be reached, the
    reconnect goroutine never panics, whatever the connections deliver:
    no notification handled inside [Start] reaches a closed queue. *)
Theorem goroutine_never_panics ops conns s :
  run_ops json_Unmarshal ops NewSubscriber = Ok s →
  SupPanic ∉ supervisor conns s.
Proof.
  intros Hwf%reachable_wf. by apply supervise_no_panic.
Qed.

End WithJSON.

Lemma every_sleep_is_bounded_witness :
  SupSleep (2 * time_Second) ∈ Main.supervisor json_a (replicate 3 conn_refused) NewSubscriber ∧
  (time_Second ≤ 2 * time_Second ≤ time_Minute)%Z.
Proof.
  assert (SupSleep (2 * time_Second)
            ∈ Main.supervisor json_a (replicate 3 conn_refused) NewSubscriber) as Hin.
  { vm_compute. do 3 (apply elem_of_cons; right). apply elem_of_cons. by left. }
  split; [exact Hin|].
  apply (every_sleep_is_bounded json_a (replicate 3 conn_refused) NewSubscriber). exact Hin.
Defined.

Lemma goroutine_returns_only_on_stop_witness :
  Main.supervisor json_a [conn_lost; conn_stopped; conn_refused] NewSubscriber
    = [SupStart (Returned None); SupStart (Returned (Some context_Canceled))]
      ++ SupReturn :: [] ∧
  ([] = ([] : list SupEvent) ∧
   ∃ t0, [SupStart (Returned None); SupStart (Returned (Some context_Canceled))]
         = t0 ++ [SupStart (Returned (Some context_Canceled))]).
Proof.
  split; [reflexivity|].
  apply (goroutine_returns_only_on_stop json_a [conn_lost; conn_stopped; conn_refused]
           NewSubscriber). reflexivity.
Defined.

Lemma goroutine_never_panics_witness :
  Redis.run_ops json_a ops_ab NewSubscriber = Ok state_ab ∧
  SupPanic ∉ Main.supervisor json_a [conn_lost; conn_stopped] state_ab.
Proof.
  split; [reflexivity|].
  apply (goroutine_never_panics json_a ops_ab [conn_lost; conn_stopped] state_ab).
  reflexivity.
Defined.

End MainMore.
